(** * SimpleAmqpClient: the channel multiplexing and frame-dispatch engine

    A shallow embedding of [src/ChannelImpl.cpp] (class
    [Channel::ChannelImpl]) and of the parts of its header that the
    functions below call.  The object's members and the transport it
    talks to are one explicit state record; a member function is a
    computation in a small state-and-exception monad; a C++ exception is
    an outcome that keeps the state reached when it was thrown. *)

From Stdlib Require Import ZArith Lia Bool String List.
From Stdlib Require Import Strings.Byte.
From Stdlib Require OrdersEx.
From stdpp Require Import base list.
Import ListNotations.
Local Open Scope Z_scope.

(** ** Machine integers *)

Definition wrap (bits : Z) (x : Z) : Z := x mod 2 ^ bits.
Definition u16 := wrap 16.
Definition u32 := wrap 32.
Definition u64 := wrap 64.

(** [std::numeric_limits<uint16_t>::max()] *)
Definition UINT16_MAX : Z := 65535.

Definition bytes := list Byte.byte.

(** [amqp_bytes_t::len] *)
Definition len (b : bytes) : Z := Z.of_nat (length b).

(** ** Constants of the transport library (amqp.h, amqp_framing.h) *)

Definition AMQP_FRAME_METHOD : Z := 1.
Definition AMQP_FRAME_HEADER : Z := 2.
Definition AMQP_FRAME_BODY : Z := 3.

Definition AMQP_CONNECTION_CLOSE_METHOD : Z := 0x000A0032.
Definition AMQP_CONNECTION_CLOSE_OK_METHOD : Z := 0x000A0033.
Definition AMQP_CHANNEL_OPEN_METHOD : Z := 0x0014000A.
Definition AMQP_CHANNEL_OPEN_OK_METHOD : Z := 0x0014000B.
Definition AMQP_CHANNEL_CLOSE_METHOD : Z := 0x00140028.
Definition AMQP_CHANNEL_CLOSE_OK_METHOD : Z := 0x00140029.
Definition AMQP_BASIC_CONSUME_OK_METHOD : Z := 0x003C0015.
Definition AMQP_BASIC_CANCEL_METHOD : Z := 0x003C001E.
Definition AMQP_BASIC_RETURN_METHOD : Z := 0x003C0032.
Definition AMQP_BASIC_DELIVER_METHOD : Z := 0x003C003C.
Definition AMQP_BASIC_ACK_METHOD : Z := 0x003C0050.
Definition AMQP_BASIC_NACK_METHOD : Z := 0x003C0078.
Definition AMQP_CONFIRM_SELECT_METHOD : Z := 0x0055000A.
Definition AMQP_CONFIRM_SELECT_OK_METHOD : Z := 0x0055000B.

(** [AMQP_STATUS_TIMEOUT] is [-0x000D]; a status is stored by its
    magnitude, every status but [AMQP_STATUS_OK] being negative. *)
Definition AMQP_STATUS_TIMEOUT : Z := -13.

Definition AMQP_BASIC_CONTENT_TYPE_FLAG : Z := Z.shiftl 1 15.
Definition AMQP_BASIC_CONTENT_ENCODING_FLAG : Z := Z.shiftl 1 14.
Definition AMQP_BASIC_HEADERS_FLAG : Z := Z.shiftl 1 13.
Definition AMQP_BASIC_DELIVERY_MODE_FLAG : Z := Z.shiftl 1 12.
Definition AMQP_BASIC_PRIORITY_FLAG : Z := Z.shiftl 1 11.
Definition AMQP_BASIC_CORRELATION_ID_FLAG : Z := Z.shiftl 1 10.
Definition AMQP_BASIC_REPLY_TO_FLAG : Z := Z.shiftl 1 9.
Definition AMQP_BASIC_EXPIRATION_FLAG : Z := Z.shiftl 1 8.
Definition AMQP_BASIC_MESSAGE_ID_FLAG : Z := Z.shiftl 1 7.
Definition AMQP_BASIC_TIMESTAMP_FLAG : Z := Z.shiftl 1 6.
Definition AMQP_BASIC_TYPE_FLAG : Z := Z.shiftl 1 5.
Definition AMQP_BASIC_USER_ID_FLAG : Z := Z.shiftl 1 4.
Definition AMQP_BASIC_APP_ID_FLAG : Z := Z.shiftl 1 3.
Definition AMQP_BASIC_CLUSTER_ID_FLAG : Z := Z.shiftl 1 2.

(** ** Frames *)

(** The decoded methods this file's functions name.  A frame's
    [payload.method.id] is [method_id] of its method, so the
    [reinterpret_cast] of [payload.method.decoded] that follows a test of
    the id is the match on the constructor. *)
Inductive amqp_method : Type :=
  | connection_close (reply_code : Z) (reply_text : bytes)
  | connection_close_ok
  | channel_open_ok
  | channel_close (reply_code : Z) (reply_text : bytes)
  | channel_close_ok
  | confirm_select_ok
  | basic_consume_ok (consumer_tag : bytes)
  | basic_cancel (consumer_tag : bytes)
  | basic_return (reply_code : Z) (reply_text exchange routing_key : bytes)
  | basic_deliver (consumer_tag : bytes) (delivery_tag : Z)
      (redelivered : bool) (exchange routing_key : bytes)
  | basic_ack (delivery_tag : Z) (multiple : bool)
  | basic_nack (delivery_tag : Z) (multiple requeue : bool).

Definition method_id (m : amqp_method) : Z :=
  match m with
  | connection_close _ _ => AMQP_CONNECTION_CLOSE_METHOD
  | connection_close_ok => AMQP_CONNECTION_CLOSE_OK_METHOD
  | channel_open_ok => AMQP_CHANNEL_OPEN_OK_METHOD
  | channel_close _ _ => AMQP_CHANNEL_CLOSE_METHOD
  | channel_close_ok => AMQP_CHANNEL_CLOSE_OK_METHOD
  | confirm_select_ok => AMQP_CONFIRM_SELECT_OK_METHOD
  | basic_consume_ok _ => AMQP_BASIC_CONSUME_OK_METHOD
  | basic_cancel _ => AMQP_BASIC_CANCEL_METHOD
  | basic_return _ _ _ _ => AMQP_BASIC_RETURN_METHOD
  | basic_deliver _ _ _ _ _ => AMQP_BASIC_DELIVER_METHOD
  | basic_ack _ _ => AMQP_BASIC_ACK_METHOD
  | basic_nack _ _ _ => AMQP_BASIC_NACK_METHOD
  end.

(** [amqp_basic_properties_t]; the header table is kept as its entries. *)
Record amqp_basic_properties_t : Type := {
  _flags : Z;
  content_type : bytes;
  content_encoding : bytes;
  headers : list (bytes * bytes);
  delivery_mode : Z;
  priority : Z;
  correlation_id : bytes;
  reply_to : bytes;
  expiration : bytes;
  message_id : bytes;
  timestamp : Z;
  type_ : bytes;
  user_id : bytes;
  app_id : bytes;
  cluster_id : bytes
}.

Inductive amqp_payload : Type :=
  | method_payload (m : amqp_method)
  | properties_payload (body_size : Z) (decoded : amqp_basic_properties_t)
  | body_fragment (fragment : bytes).

Record amqp_frame_t : Type := {
  channel : Z;
  payload : amqp_payload
}.

Definition frame_type (f : amqp_frame_t) : Z :=
  match payload f with
  | method_payload _ => AMQP_FRAME_METHOD
  | properties_payload _ _ => AMQP_FRAME_HEADER
  | body_fragment _ => AMQP_FRAME_BODY
  end.

(** ** Messages *)

(** [BasicMessage]: the body and the properties that were set. *)
Record BasicMessage : Type := {
  Body : bytes;
  ContentType : option bytes;
  ContentEncoding : option bytes;
  DeliveryMode : option Z;
  Priority : option Z;
  CorrelationId : option bytes;
  ReplyTo : option bytes;
  Expiration : option bytes;
  MessageId : option bytes;
  Timestamp : option Z;
  Type_ : option bytes;
  UserId : option bytes;
  AppId : option bytes;
  ClusterId : option bytes;
  HeaderTable : option (list (bytes * bytes))
}.

(** [BasicMessage::Create()] *)
Definition BasicMessage_Create : BasicMessage :=
  {| Body := []; ContentType := None; ContentEncoding := None;
     DeliveryMode := None; Priority := None; CorrelationId := None;
     ReplyTo := None; Expiration := None; MessageId := None;
     Timestamp := None; Type_ := None; UserId := None; AppId := None;
     ClusterId := None; HeaderTable := None |}.

Definition set_Body (b : bytes) (m : BasicMessage) : BasicMessage :=
  {| Body := b; ContentType := ContentType m;
     ContentEncoding := ContentEncoding m; DeliveryMode := DeliveryMode m;
     Priority := Priority m; CorrelationId := CorrelationId m;
     ReplyTo := ReplyTo m; Expiration := Expiration m;
     MessageId := MessageId m; Timestamp := Timestamp m; Type_ := Type_ m;
     UserId := UserId m; AppId := AppId m; ClusterId := ClusterId m;
     HeaderTable := HeaderTable m |}.

Definition flagged {A : Type} (props : amqp_basic_properties_t) (flag : Z)
    (v : A) : option A :=
  if negb (Z.land (_flags props) flag =? 0) then Some v else None.

(** [SetMessageProperties]: each property is copied when its flag is set. *)
Definition SetMessageProperties (mes : BasicMessage)
    (props : amqp_basic_properties_t) : BasicMessage :=
  {| Body := Body mes;
     ContentType :=
       flagged props AMQP_BASIC_CONTENT_TYPE_FLAG (content_type props);
     ContentEncoding :=
       flagged props AMQP_BASIC_CONTENT_ENCODING_FLAG (content_encoding props);
     DeliveryMode :=
       flagged props AMQP_BASIC_DELIVERY_MODE_FLAG (delivery_mode props);
     Priority := flagged props AMQP_BASIC_PRIORITY_FLAG (priority props);
     CorrelationId :=
       flagged props AMQP_BASIC_CORRELATION_ID_FLAG (correlation_id props);
     ReplyTo := flagged props AMQP_BASIC_REPLY_TO_FLAG (reply_to props);
     Expiration := flagged props AMQP_BASIC_EXPIRATION_FLAG (expiration props);
     MessageId := flagged props AMQP_BASIC_MESSAGE_ID_FLAG (message_id props);
     Timestamp := flagged props AMQP_BASIC_TIMESTAMP_FLAG (timestamp props);
     Type_ := flagged props AMQP_BASIC_TYPE_FLAG (type_ props);
     UserId := flagged props AMQP_BASIC_USER_ID_FLAG (user_id props);
     AppId := flagged props AMQP_BASIC_APP_ID_FLAG (app_id props);
     ClusterId := flagged props AMQP_BASIC_CLUSTER_ID_FLAG (cluster_id props);
     HeaderTable := flagged props AMQP_BASIC_HEADERS_FLAG (headers props) |}.

(** [Envelope::Create(content, consumer_tag, delivery_tag, exchange,
    redelivered, routing_key, channel)] *)
Record Envelope : Type := {
  Message : BasicMessage;
  ConsumerTag : bytes;
  DeliveryTag : Z;
  Exchange : bytes;
  Redelivered : bool;
  RoutingKey : bytes;
  DeliveryChannel : Z
}.

(** ** The object's state *)

Inductive channel_availability : Type := CS_Closed | CS_Open | CS_Used.

Definition availability_eqb (a b : channel_availability) : bool :=
  match a, b with
  | CS_Closed, CS_Closed | CS_Open, CS_Open | CS_Used, CS_Used => true
  | _, _ => false
  end.

(** Modelled from the spec: [channel_state_t] is declared in ChannelImpl.h,
    which is not among the sources.  The fields are the ones the spec's
    ChannelState lists and ChannelImpl.cpp reads and writes; the two
    counters are taken as 64-bit unsigned, the type of the delivery tags
    assigned to them.  [{CS_Used}] and [{CS_Closed}] initialise the other
    members to zero and the empty string. *)
Record channel_state_t : Type := {
  availability : channel_availability;
  last_delivery_tag : Z;
  unconsumed_ack : Z;
  direct_reply_tag : string
}.

Definition new_channel_state (a : channel_availability) : channel_state_t :=
  {| availability := a; last_delivery_tag := 0; unconsumed_ack := 0;
     direct_reply_tag := EmptyString |}.

Definition set_availability (a : channel_availability) (s : channel_state_t)
    : channel_state_t :=
  {| availability := a; last_delivery_tag := last_delivery_tag s;
     unconsumed_ack := unconsumed_ack s;
     direct_reply_tag := direct_reply_tag s |}.

Definition set_last_delivery_tag (t : Z) (s : channel_state_t)
    : channel_state_t :=
  {| availability := availability s; last_delivery_tag := t;
     unconsumed_ack := unconsumed_ack s;
     direct_reply_tag := direct_reply_tag s |}.

Definition set_unconsumed_ack (n : Z) (s : channel_state_t)
    : channel_state_t :=
  {| availability := availability s;
     last_delivery_tag := last_delivery_tag s; unconsumed_ack := n;
     direct_reply_tag := direct_reply_tag s |}.

(** What [amqp_simple_wait_frame_noblock] yields next: a decoded frame
    (status [AMQP_STATUS_OK]) or the error status [-p] and no frame. *)
Inductive wire_event : Type :=
  | wire_frame (f : amqp_frame_t)
  | wire_status (p : positive).

(** [amqp_connection_state_t], the external frame transport, as the
    engine sees it: the frames still to arrive, the methods sent so far
    (channel and method id, newest last), the status the next
    [amqp_send_method] returns, the channels on which
    [amqp_maybe_release_buffers_on_channel] was called (newest last) and
    the negotiated channel-max. *)
Record amqp_connection_state_t : Type := {
  incoming : list wire_event;
  sent : list (Z * Z);
  send_status : Z;
  released : list Z;
  channel_max : Z
}.

Definition set_incoming (w : list wire_event) (c : amqp_connection_state_t)
    : amqp_connection_state_t :=
  {| incoming := w; sent := sent c; send_status := send_status c;
     released := released c; channel_max := channel_max c |}.

Definition add_sent (m : Z * Z) (c : amqp_connection_state_t)
    : amqp_connection_state_t :=
  {| incoming := incoming c; sent := sent c ++ [m];
     send_status := send_status c; released := released c;
     channel_max := channel_max c |}.

Definition add_released (ch : Z) (c : amqp_connection_state_t)
    : amqp_connection_state_t :=
  {| incoming := incoming c; sent := sent c; send_status := send_status c;
     released := released c ++ [ch]; channel_max := channel_max c |}.

(** The data members of [Channel::ChannelImpl] that the functions below
    use, and the one fact about the process around the object that a
    function below depends on: [allocatable], the largest capacity that
    the allocator grants a [std::string::reserve]. *)
Record ChannelImpl : Type := {
  m_connection : amqp_connection_state_t;
  m_frame_queue : list amqp_frame_t;
  m_delivered_messages : list Envelope;
  m_channels : list channel_state_t;
  m_last_used_channel : Z;
  m_is_connected : bool;
  allocatable : Z
}.

Definition set_m_connection (c : amqp_connection_state_t) (st : ChannelImpl)
    : ChannelImpl :=
  {| m_connection := c; m_frame_queue := m_frame_queue st;
     m_delivered_messages := m_delivered_messages st;
     m_channels := m_channels st;
     m_last_used_channel := m_last_used_channel st;
     m_is_connected := m_is_connected st;
     allocatable := allocatable st |}.

Definition set_m_frame_queue (q : list amqp_frame_t) (st : ChannelImpl)
    : ChannelImpl :=
  {| m_connection := m_connection st; m_frame_queue := q;
     m_delivered_messages := m_delivered_messages st;
     m_channels := m_channels st;
     m_last_used_channel := m_last_used_channel st;
     m_is_connected := m_is_connected st;
     allocatable := allocatable st |}.

Definition set_m_delivered_messages (d : list Envelope) (st : ChannelImpl)
    : ChannelImpl :=
  {| m_connection := m_connection st; m_frame_queue := m_frame_queue st;
     m_delivered_messages := d; m_channels := m_channels st;
     m_last_used_channel := m_last_used_channel st;
     m_is_connected := m_is_connected st;
     allocatable := allocatable st |}.

Definition set_m_channels (cs : list channel_state_t) (st : ChannelImpl)
    : ChannelImpl :=
  {| m_connection := m_connection st; m_frame_queue := m_frame_queue st;
     m_delivered_messages := m_delivered_messages st; m_channels := cs;
     m_last_used_channel := m_last_used_channel st;
     m_is_connected := m_is_connected st;
     allocatable := allocatable st |}.

Definition set_m_last_used_channel (ch : Z) (st : ChannelImpl) : ChannelImpl :=
  {| m_connection := m_connection st; m_frame_queue := m_frame_queue st;
     m_delivered_messages := m_delivered_messages st;
     m_channels := m_channels st; m_last_used_channel := ch;
     m_is_connected := m_is_connected st;
     allocatable := allocatable st |}.

Definition set_m_is_connected (b : bool) (st : ChannelImpl) : ChannelImpl :=
  {| m_connection := m_connection st; m_frame_queue := m_frame_queue st;
     m_delivered_messages := m_delivered_messages st;
     m_channels := m_channels st;
     m_last_used_channel := m_last_used_channel st; m_is_connected := b;
     allocatable := allocatable st |}.

(** ** Exceptions and the monad *)

Inductive exn : Type :=
  | std_out_of_range
  | std_invalid_argument
  | std_runtime_error (what : string)
  | std_logic_error (what : string)
  | std_length_error
  | std_bad_alloc
  | AmqpLibraryException (ret : Z)
  | ChannelException (reply_code : Z) (reply_text : bytes)
  | ConnectionException (reply_code : Z) (reply_text : bytes)
  | MessageRejectedException (delivery_tag : Z)
  | MessageReturnedException (message : BasicMessage) (reply_code : Z)
      (reply_text exchange routing_key : bytes).

(** A call that does not come back: a blocking wait on a transport with
    nothing more to deliver, a read of a frame variable that was never
    written, an [assert] that fails and aborts the process, or a loop
    bound below that was too small (it never is: see the lemmas on
    fuel). *)
Inductive stuck : Type :=
  | blocks_on_transport
  | indeterminate_frame
  | assertion_failed
  | out_of_fuel.

Inductive outcome (A : Type) : Type :=
  | Ok (a : A)
  | Throw (e : exn)
  | Stuck (w : stuck).
Arguments Ok {A} a.
Arguments Throw {A} e.
Arguments Stuck {A} w.

Definition M (A : Type) : Type := ChannelImpl -> outcome A * ChannelImpl.

Definition ret {A : Type} (a : A) : M A := fun st => (Ok a, st).

Definition throw {A : Type} (e : exn) : M A := fun st => (Throw e, st).

Definition bind {A B : Type} (m : M A) (k : A -> M B) : M B :=
  fun st =>
    match m st with
    | (Ok a, st') => k a st'
    | (Throw e, st') => (Throw e, st')
    | (Stuck w, st') => (Stuck w, st')
    end.

Definition gets {A : Type} (f : ChannelImpl -> A) : M A :=
  fun st => (Ok (f st), st).

Definition modify (f : ChannelImpl -> ChannelImpl) : M unit :=
  fun st => (Ok tt, f st).

Notation "x <~ m ;; k" := (bind m (fun x => k))
  (at level 100, m at next level, right associativity).
Notation "m ;;; k" := (bind m (fun _ => k))
  (at level 100, right associativity).

(** ** Containers *)

(** [v.at(i)]: the element, or [std::out_of_range]. *)
Definition at_ (i : Z) : M channel_state_t :=
  fun st =>
    match m_channels st !! Z.to_nat i with
    | Some s => (Ok s, st)
    | None => (Throw std_out_of_range, st)
    end.

(** An assignment through [m_channels.at(i)] or through a reference
    obtained from it. *)
Definition update_channel (i : Z) (f : channel_state_t -> channel_state_t)
    : M unit :=
  s <~ at_ i ;;
  modify (fun st => set_m_channels (<[Z.to_nat i := f s]> (m_channels st)) st).

(** [std::find_if(first, last, p) - first], when it is not [last]. *)
Fixpoint find_index {A : Type} (p : A -> bool) (l : list A) : option nat :=
  match l with
  | [] => None
  | x :: l' => if p x then Some O else option_map S (find_index p l')
  end.

(** [it = std::find_if(first, last, p)]: the element [*it] and the
    range [(it + 1, last)], when [it] is not [last]. *)
Fixpoint find_if {A : Type} (p : A -> bool) (l : list A)
    : option (A * list A) :=
  match l with
  | [] => None
  | x :: l' => if p x then Some (x, l') else find_if p l'
  end.

(** [it = std::find_if(...); x = *it; erase(it)]: the element and the
    container without it, when [it] is not [end()]. *)
Fixpoint find_erase {A : Type} (p : A -> bool) (l : list A)
    : option (A * list A) :=
  match l with
  | [] => None
  | x :: l' =>
      if p x then Some (x, l')
      else match find_erase p l' with
           | Some (y, r) => Some (y, x :: r)
           | None => None
           end
  end.

(** ** Channel pool *)

(** [amqp_get_channel_max(m_connection)] returns an [int]; the cast to
    [size_t] is modulo [2^64]. *)
Definition GetNextChannelId : M Z :=
  fun st =>
    match find_index
            (fun state => availability_eqb (availability state) CS_Closed)
            (m_channels st) with
    | Some unused_channel => (Ok (u16 (Z.of_nat unused_channel)), st)
    | None =>
        let max_channels := channel_max (m_connection st) in
        let max_channels :=
          if 0 =? max_channels then UINT16_MAX else max_channels in
        if u64 max_channels <? Z.of_nat (length (m_channels st)) then
          (Throw (std_runtime_error "Too many channels open"), st)
        else
          (Ok (u16 (Z.of_nat (length (m_channels st)))),
           set_m_channels (m_channels st ++ [new_channel_state CS_Closed]) st)
    end.

Definition ReturnChannel (channel : Z) : M unit :=
  update_channel channel (set_availability CS_Open) ;;;
  modify (set_m_last_used_channel channel).

Definition IsChannelOpen (channel : Z) : M bool :=
  s <~ at_ channel ;;
  ret (negb (availability_eqb CS_Closed (availability s))).

Definition CheckForError (r : Z) : M unit :=
  if r <? 0 then throw (AmqpLibraryException r) else ret tt.

(** [amqp_send_method(m_connection, channel, id, decoded)]: the method is
    recorded when the transport accepts it. *)
Definition amqp_send_method (channel id : Z) : M Z :=
  fun st =>
    let r := send_status (m_connection st) in
    (Ok r,
     if r <? 0 then st
     else set_m_connection (add_sent (channel, id) (m_connection st)) st).

Definition FinishCloseChannel (channel : Z) : M unit :=
  update_channel channel (set_availability CS_Closed) ;;;
  r <~ amqp_send_method channel AMQP_CHANNEL_CLOSE_OK_METHOD ;;
  CheckForError r.

Definition FinishCloseConnection : M unit :=
  modify (set_m_is_connected false) ;;;
  _ <~ amqp_send_method 0 AMQP_CONNECTION_CLOSE_OK_METHOD ;;
  ret tt.

(** [CheckFrameForClose]; [AmqpException::Throw] of a close method is the
    exception carrying its reply code and text. *)
Definition CheckFrameForClose (frame : amqp_frame_t) (channel : Z) : M unit :=
  match payload frame with
  | method_payload (channel_close code text) =>
      FinishCloseChannel channel ;;;
      throw (ChannelException code text)
  | method_payload (connection_close code text) =>
      FinishCloseConnection ;;;
      throw (ConnectionException code text)
  | _ => ret tt
  end.

(** [m_channels[i].member = ...] and writes through a reference into
    [m_channels]: no bounds check. *)
Definition update_ref (i : Z) (f : channel_state_t -> channel_state_t)
    : M unit :=
  modify (fun st => set_m_channels (alter f (Z.to_nat i) (m_channels st)) st).

(** ** Frame queue and message-boundary detector *)

(** Modelled from the spec: the static predicates [is_on_channel],
    [is_method_on_channel] and [is_expected_method_on_channel] are defined
    in ChannelImpl.h; they test what their names say. *)
Definition is_on_channel (frame : amqp_frame_t) (ch : Z) : bool :=
  ch =? channel frame.

Definition is_method_on_channel (frame : amqp_frame_t) (method ch : Z)
    : bool :=
  (channel frame =? ch) &&
  match payload frame with
  | method_payload m => method_id m =? method
  | _ => false
  end.

Definition is_expected_method_on_channel (frame : amqp_frame_t)
    (channels expected_responses : list Z) : bool :=
  existsb (Z.eqb (channel frame)) channels &&
  match payload frame with
  | method_payload m => existsb (Z.eqb (method_id m)) expected_responses
  | _ => false
  end.

(** The [while (body_received < body_length)] loop of
    [CheckForQueuedMessageOnChannel], run over the range [(it + 1, end)]:
    skipping a frame of another channel is a step of the inner
    [std::find_if]. *)
Fixpoint queued_body_loop (ch body_length body_received : Z)
    (range : list amqp_frame_t) : outcome bool :=
  if body_received <? body_length then
    match range with
    | [] => Ok false
    | frame :: range' =>
        if is_on_channel frame ch then
          match payload frame with
          | body_fragment fragment =>
              queued_body_loop ch body_length
                (u64 (body_received + len fragment)) range'
          | _ => Throw (std_runtime_error "Protocol error")
          end
        else queued_body_loop ch body_length body_received range'
    end
  else Ok true.

Definition CheckForQueuedMessageOnChannel (ch : Z) : M bool :=
  fun st =>
    match find_if
            (fun frame =>
               is_method_on_channel frame AMQP_BASIC_DELIVER_METHOD ch)
            (m_frame_queue st) with
    | None => (Ok false, st)
    | Some (_, range) =>
        match find_if (fun frame => is_on_channel frame ch) range with
        | None => (Ok false, st)
        | Some (it, range') =>
            match payload it with
            | properties_payload body_length _ =>
                (queued_body_loop ch body_length 0 range', st)
            | _ => (Throw (std_runtime_error "Protocol error"), st)
            end
        end
    end.

(** The frames before the first one satisfying [p], that frame, and the
    frames after it. *)
Fixpoint split_at {A : Type} (p : A -> bool) (l : list A)
    : option (list A * A * list A) :=
  match l with
  | [] => None
  | x :: l' =>
      if p x then Some ([], x, l')
      else match split_at p l' with
           | Some (pre, y, post) => Some (x :: pre, y, post)
           | None => None
           end
  end.

(** Takes the body frames of channel [ch] out of [q], in order, until
    their lengths reach [body_size]: the body and what is left of [q]. *)
Fixpoint pull_body (ch body_size received : Z) (body : bytes)
    (q : list amqp_frame_t) : option (bytes * list amqp_frame_t) :=
  if received <? body_size then
    match q with
    | [] => None
    | frame :: q' =>
        if is_on_channel frame ch then
          match payload frame with
          | body_fragment fragment =>
              pull_body ch body_size (u64 (received + len fragment))
                (body ++ fragment) q'
          | _ => None
          end
        else
          match pull_body ch body_size received body q' with
          | Some (b, r) => Some (b, frame :: r)
          | None => None
          end
    end
  else Some (body, q).

Definition pull_delivery (ch : Z) (q : list amqp_frame_t)
    : option (Envelope * list amqp_frame_t) :=
  match split_at
          (fun frame =>
             is_method_on_channel frame AMQP_BASIC_DELIVER_METHOD ch) q with
  | Some (pre, deliver, post) =>
      match payload deliver, find_erase (fun f => is_on_channel f ch) post with
      | method_payload (basic_deliver tag dtag redelivered exch rkey),
        Some (header, post') =>
          match payload header with
          | properties_payload body_size properties =>
              match pull_body ch body_size 0 [] post' with
              | Some (body, rest) =>
                  Some ({| Message :=
                             SetMessageProperties
                               (set_Body body BasicMessage_Create) properties;
                           ConsumerTag := tag; DeliveryTag := dtag;
                           Exchange := exch; Redelivered := redelivered;
                           RoutingKey := rkey;
                           DeliveryChannel := channel deliver |},
                        pre ++ rest)
              | None => None
              end
          | _ => None
          end
      | _, _ => None
      end
  | None => None
  end.

(** Modelled from the spec: [ConsumeMessageOnChannelInner] is a template
    in ChannelImpl.h.  For the call in [AddToFrameQueue] the spec (4.2)
    says that it atomically pulls all frames of the detected delivery out
    of the queue and reassembles them (4.5) into the delivery; it returns
    [false] (here [None]) when it has no delivery to give. *)
Definition ConsumeMessageOnChannelInner (ch : Z) : M (option Envelope) :=
  fun st =>
    match pull_delivery ch (m_frame_queue st) with
    | Some (envelope, q) => (Ok (Some envelope), set_m_frame_queue q st)
    | None => (Ok None, st)
    end.

Definition AddToFrameQueue (frame : amqp_frame_t) : M unit :=
  modify (fun st => set_m_frame_queue (m_frame_queue st ++ [frame]) st) ;;;
  complete <~ CheckForQueuedMessageOnChannel (channel frame) ;;
  if complete : bool then
    r <~ ConsumeMessageOnChannelInner (channel frame) ;;
    match r with
    | None =>
        throw (std_logic_error
                 "ConsumeMessageOnChannelInner returned false unexpectedly")
    | Some envelope =>
        modify (fun st =>
                  set_m_delivered_messages
                    (m_delivered_messages st ++ [envelope]) st)
    end
  else ret tt.

Definition MaybeReleaseBuffersOnChannel (ch : Z) : M unit :=
  fun st =>
    match find_if (fun frame => is_on_channel frame ch) (m_frame_queue st) with
    | None => (Ok tt, set_m_connection (add_released ch (m_connection st)) st)
    | Some _ => (Ok tt, st)
    end.

(** ** RPC engine *)

(** A function with an [amqp_frame_t &] out-parameter and a [bool] result
    returns [Some frame] for [true] and [None] for [false], the argument
    then being left as it was.  [timeout] is [None] for
    [std::chrono::microseconds::max()], a blocking wait. *)
Definition GetNextFrameFromBroker (timeout : option Z)
    : M (option amqp_frame_t) :=
  fun st =>
    match incoming (m_connection st) with
    | [] =>
        match timeout with
        | None => (Stuck blocks_on_transport, st)
        | Some _ => (Ok None, st)
        end
    | wire_frame frame :: w =>
        (Ok (Some frame),
         set_m_connection (set_incoming w (m_connection st)) st)
    | wire_status p :: w =>
        let st' := set_m_connection (set_incoming w (m_connection st)) st in
        if Z.neg p =? AMQP_STATUS_TIMEOUT then (Ok None, st')
        else (_ <~ CheckForError (Z.neg p) ;; ret None) st'
    end.

(** Modelled from the spec: [GetNextFrameFromBrokerOnChannel] is a
    template in ChannelImpl.h.  By the spec (4.3) the engine blocks on
    the transport for the next frame; any frame freshly read is first
    checked for being a channel-close or connection-close method, also
    when it is not destined for the awaited channel; a frame on a channel
    that is not awaited is queued for later (4.2, enqueue) and the wait
    continues.  Every round takes one event off the transport, so the
    number of events left bounds the rounds. *)
Fixpoint GetNextFrameFromBrokerOnChannel_loop (fuel : nat)
    (channels : list Z) (timeout : option Z) : M (option amqp_frame_t) :=
  match fuel with
  | O => fun st => (Stuck out_of_fuel, st)
  | S fuel' =>
      r <~ GetNextFrameFromBroker timeout ;;
      match r with
      | None => ret None
      | Some frame =>
          CheckFrameForClose frame (channel frame) ;;;
          if existsb (Z.eqb (channel frame)) channels then ret (Some frame)
          else
            AddToFrameQueue frame ;;;
            GetNextFrameFromBrokerOnChannel_loop fuel' channels timeout
      end
  end.

Definition GetNextFrameFromBrokerOnChannel (channels : list Z)
    (timeout : option Z) : M (option amqp_frame_t) :=
  fun st =>
    GetNextFrameFromBrokerOnChannel_loop
      (S (length (incoming (m_connection st)))) channels timeout st.

Definition GetNextFrameOnChannel (ch : Z) (timeout : option Z)
    : M (option amqp_frame_t) :=
  fun st =>
    match find_erase (fun frame => is_on_channel frame ch)
            (m_frame_queue st) with
    | Some (frame, q) =>
        let st' := set_m_frame_queue q st in
        match payload frame with
        | method_payload (channel_close code text) =>
            (FinishCloseChannel ch ;;;
             throw (ChannelException code text)) st'
        | _ => (Ok (Some frame), st')
        end
    | None => GetNextFrameFromBrokerOnChannel [ch] timeout st
    end.

(** Modelled from the spec: [GetMethodOnChannel] is a template in
    ChannelImpl.h.  By the spec (4.3) it checks the frame queue for a
    frame on the channels matching the expected-reply set; if absent it
    blocks on the transport; a frame observed is first checked for a
    close; a frame on the channel with another method id is queued for
    later and the wait continues. *)
Fixpoint GetMethodOnChannel_loop (fuel : nat) (channels expected : list Z)
    (timeout : option Z) : M (option amqp_frame_t) :=
  match fuel with
  | O => fun st => (Stuck out_of_fuel, st)
  | S fuel' =>
      r <~ GetNextFrameFromBrokerOnChannel channels timeout ;;
      match r with
      | None => ret None
      | Some frame =>
          if is_expected_method_on_channel frame channels expected
          then ret (Some frame)
          else
            AddToFrameQueue frame ;;;
            GetMethodOnChannel_loop fuel' channels expected timeout
      end
  end.

Definition GetMethodOnChannel (channels expected : list Z)
    (timeout : option Z) : M (option amqp_frame_t) :=
  fun st =>
    match find_erase
            (fun frame =>
               is_expected_method_on_channel frame channels expected)
            (m_frame_queue st) with
    | Some (frame, q) =>
        (CheckFrameForClose frame (channel frame) ;;; ret (Some frame))
          (set_m_frame_queue q st)
    | None =>
        GetMethodOnChannel_loop (S (length (incoming (m_connection st))))
          channels expected timeout st
    end.

(** Modelled from the spec: [DoRpcOnChannel] is a template in
    ChannelImpl.h.  By the spec (4.3) it sends the request via the
    transport and waits for the matching reply. *)
Definition DoRpcOnChannel (ch method : Z) (expected : list Z)
    : M (option amqp_frame_t) :=
  r <~ amqp_send_method ch method ;;
  CheckForError r ;;;
  GetMethodOnChannel [ch] expected None.

(** ** Content reassembler *)

(** An upper bound on the frames [GetNextFrameOnChannel] can still hand
    out: the queued ones, and the ones to arrive (an event of the
    transport that is queued on arrival counts twice).  The body loop
    of [ReadContent] runs at most once more than that. *)
Definition frames_left (st : ChannelImpl) : nat :=
  (length (m_frame_queue st) + 2 * length (incoming (m_connection st)))%nat.

Definition unexpected_header : string :=
  "Channel::BasicConsumeMessage: received unexpected frame type (was expected AMQP_FRAME_HEADER)".

Definition unexpected_body : string :=
  "Channel::BasicConsumeMessage: received unexpected frame type (was expecting AMQP_FRAME_BODY)".

(** The [while (received_size < body_size)] loop of [ReadContent].  The
    result of [GetNextFrameOnChannel] is not looked at: when it is
    [false] the local [frame] still holds the frame of the round before. *)
Fixpoint ReadContent_loop (fuel : nat) (ch : Z) (frame : amqp_frame_t)
    (body_size received_size : Z) (body : bytes) : M bytes :=
  if received_size <? body_size then
    match fuel with
    | O => fun st => (Stuck out_of_fuel, st)
    | S fuel' =>
        r <~ GetNextFrameOnChannel ch None ;;
        let frame := match r with Some f => f | None => frame end in
        match payload frame with
        | body_fragment fragment =>
            ReadContent_loop fuel' ch frame body_size
              (u64 (received_size + len fragment)) (body ++ fragment)
        | _ => throw (std_runtime_error unexpected_body)
        end
    end
  else ret body.

(** [std::numeric_limits<size_t>::max()], [size_t] being 64 bits wide. *)
Definition SIZE_MAX : Z := 2 ^ 64 - 1.

(** [std::string::max_size()] of the standard library the code is built
    with (libstdc++, 64 bits). *)
Definition string_max_size : Z := 2 ^ 62 - 1.

(** [message->Body().reserve(n)] on the empty body of a new message:
    [std::length_error] for a capacity above [max_size()],
    [std::bad_alloc] for one that the allocator does not grant.  The
    body is as it was; the capacity is not part of the value. *)
Definition reserve (n : Z) : M unit :=
  fun st =>
    if string_max_size <? n then (Throw std_length_error, st)
    else if allocatable st <? n then (Throw std_bad_alloc, st)
    else (Ok tt, st).

(** [size_t] is taken as 64 bits wide, so the cast of [body_size] keeps
    it.  The [assert] is taken as compiled in; where it is compiled out
    (NDEBUG), the [reserve] after it throws for the one size it
    refuses. *)
Definition ReadContent (ch : Z) : M BasicMessage :=
  r <~ GetNextFrameOnChannel ch None ;;
  match r with
  | None => fun st => (Stuck indeterminate_frame, st)
  | Some frame =>
      match payload frame with
      | properties_payload body_size properties =>
          if negb (body_size <? SIZE_MAX)
          then fun st => (Stuck assertion_failed, st)
          else
            reserve body_size ;;;
            left <~ gets frames_left ;;
            body <~ ReadContent_loop (S left) ch frame body_size 0 [] ;;
            ret (SetMessageProperties (set_Body body BasicMessage_Create)
                   properties)
      | _ => throw (std_runtime_error unexpected_header)
      end
  end.

(** The exception object is a value here; the caller throws it. *)
Definition CreateMessageReturnedException (reply_code : Z)
    (reply_text exchange routing_key : bytes) (ch : Z) : M exn :=
  content <~ ReadContent ch ;;
  ret (MessageReturnedException content reply_code reply_text exchange
         routing_key).

(** ** Channel pool: opening and handing out channels *)

Definition CreateNewChannel : M Z :=
  new_channel <~ GetNextChannelId ;;
  DoRpcOnChannel new_channel AMQP_CHANNEL_OPEN_METHOD
    [AMQP_CHANNEL_OPEN_OK_METHOD] ;;;
  DoRpcOnChannel new_channel AMQP_CONFIRM_SELECT_METHOD
    [AMQP_CONFIRM_SELECT_OK_METHOD] ;;;
  update_channel new_channel (set_availability CS_Open) ;;;
  ret new_channel.

Definition GetChannel : M Z :=
  last <~ gets m_last_used_channel ;;
  s <~ at_ last ;;
  if availability_eqb CS_Open (availability s) then
    update_ref last (set_availability CS_Used) ;;;
    ret last
  else
    channels <~ gets m_channels ;;
    match find_index
            (fun state => availability_eqb (availability state) CS_Open)
            channels with
    | None =>
        new_channel <~ CreateNewChannel ;;
        update_channel new_channel (set_availability CS_Used) ;;;
        ret new_channel
    | Some it =>
        update_ref (Z.of_nat it) (set_availability CS_Used) ;;;
        ret (u16 (Z.of_nat it))
    end.

(** ** Confirm tracker *)

Definition PUBLISH_ACK : list Z :=
  [AMQP_BASIC_ACK_METHOD; AMQP_BASIC_RETURN_METHOD; AMQP_BASIC_NACK_METHOD].

Definition BASIC_ACK : list Z := [AMQP_BASIC_ACK_METHOD].

(** [state] is a reference into [m_channels]: reads and writes go to the
    slot.  The reply of [GetMethodOnChannel] is a method with one of the
    three ids of [PUBLISH_ACK]; what is neither a nack nor a return is
    cast to [amqp_basic_ack_t]. *)
Definition GetAckOnChannel (ch : Z) : M unit :=
  state <~ at_ ch ;;
  if unconsumed_ack state >? 0 then
    update_ref ch (set_unconsumed_ack (u64 (unconsumed_ack state - 1)))
  else
    r <~ GetMethodOnChannel [ch] PUBLISH_ACK None ;;
    match r with
    | Some {| payload := method_payload (basic_nack delivery_tag _ _) |} =>
        update_ref ch (set_last_delivery_tag delivery_tag) ;;;
        ReturnChannel ch ;;;
        MaybeReleaseBuffersOnChannel ch ;;;
        throw (MessageRejectedException delivery_tag)
    | Some {| payload :=
                method_payload
                  (basic_return reply_code reply_text exchange routing_key) |} =>
        message_returned <~
          CreateMessageReturnedException reply_code reply_text exchange
            routing_key ch ;;
        GetMethodOnChannel [ch] BASIC_ACK None ;;;
        ReturnChannel ch ;;;
        MaybeReleaseBuffersOnChannel ch ;;;
        throw message_returned
    | Some {| payload := method_payload (basic_ack delivery_tag _) |} =>
        state <~ at_ ch ;;
        (if delivery_tag <=? last_delivery_tag state then ret tt
         else
           let diff := u64 (delivery_tag - last_delivery_tag state) in
           update_ref ch (set_last_delivery_tag delivery_tag) ;;;
           if diff >? 1 then update_ref ch (set_unconsumed_ack (u64 (diff - 1)))
           else ret tt) ;;;
        ReturnChannel ch ;;;
        MaybeReleaseBuffersOnChannel ch
    | _ => fun st => (Stuck indeterminate_frame, st)
    end.

(** ** Broker version *)

Fixpoint bytes_eqb (a b : bytes) : bool :=
  match a, b with
  | [], [] => true
  | x :: a', y :: b' => Byte.eqb x y && bytes_eqb a' b'
  | _, _ => false
  end.

(** [bytesEqual]: equal lengths and equal contents. *)
Definition bytesEqual (r l : bytes) : bool := bytes_eqb r l.

(** [splitVersion]: the substrings between the delimiters, found by
    [find] and cut by [substr] in the source, collected here character by
    character; [cur] is the substring since the last delimiter. *)
Fixpoint splitVersion_from (cur version : bytes) : list bytes :=
  match version with
  | [] => [cur]
  | c :: rest =>
      if Byte.eqb c "."%byte then cur :: splitVersion_from [] rest
      else splitVersion_from (cur ++ [c]) rest
  end.

Definition splitVersion (version : bytes) : list bytes :=
  splitVersion_from [] version.

Definition code (c : Byte.byte) : Z := Z.of_N (Byte.to_N c).

(** [isspace] in the C locale. *)
Definition isspace (c : Byte.byte) : bool :=
  (code c =? 32) || ((9 <=? code c) && (code c <=? 13)).

Definition isdigit (c : Byte.byte) : bool :=
  (48 <=? code c) && (code c <=? 57).

Fixpoint skip_spaces (s : bytes) : bytes :=
  match s with
  | c :: s' => if isspace c then skip_spaces s' else s
  | [] => []
  end.

(** The value of the longest prefix of decimal digits, and whether there
    was a digit. *)
Fixpoint digits_value (acc : Z) (any : bool) (s : bytes) : Z * bool :=
  match s with
  | c :: s' =>
      if isdigit c then digits_value (10 * acc + (code c - 48)) true s'
      else (acc, any)
  | [] => (acc, any)
  end.

(** [std::stoul(str)] (base 10, [unsigned long] of 64 bits), by
    [strtoul]: leading white space, an optional sign, decimal digits;
    what follows the digits is ignored.  It throws
    [std::invalid_argument] when there is no digit and
    [std::out_of_range] when the digits exceed [ULONG_MAX]; a minus sign
    negates the value in the unsigned type. *)
Definition stoul (str : bytes) : outcome Z :=
  let s := skip_spaces str in
  let '(negative, s) :=
    match s with
    | c :: s' =>
        if Byte.eqb c "-"%byte then (true, s')
        else if Byte.eqb c "+"%byte then (false, s')
        else (false, s)
    | [] => (false, s)
    end in
  let '(v, any) := digits_value 0 false s in
  if negb any then Throw std_invalid_argument
  else if 2 ^ 64 <=? v then Throw std_out_of_range
  else Ok (if negative : bool then u64 (- v) else v).

(** [amqp_get_server_properties(state)] is the argument: the entries of
    the table, each a key and the bytes of its value. *)
Definition ComputeBrokerVersion (properties : list (bytes * bytes))
    : outcome Z :=
  match find_if
          (fun entry =>
             bytesEqual (fst entry) (String.list_byte_of_string "version"))
          properties with
  | None => Ok 0
  | Some (version_entry, _) =>
      match splitVersion (snd version_entry) with
      | [c0; c1; c2] =>
          match stoul c0 with
          | Ok major =>
              match stoul c1 with
              | Ok minor =>
                  match stoul c2 with
                  | Ok patch =>
                      let version_major := u32 major in
                      let version_minor := u32 minor in
                      let version_patch := u32 patch in
                      Ok (Z.lor
                            (Z.lor
                               (Z.shiftl (Z.land version_major 0xFF) 16)
                               (Z.shiftl (Z.land version_minor 0xFF) 8))
                            (Z.land version_patch 0xFF))
                  | Throw e => Throw e
                  | Stuck w => Stuck w
                  end
              | Throw e => Throw e
              | Stuck w => Stuck w
              end
          | Throw e => Throw e
          | Stuck w => Stuck w
          end
      | _ => Ok 0
      end
  end.

(** ** Connection state and RPC replies *)

(** The exceptions of the functions below that [exn] does not list. *)
Inductive session_exn : Type :=
  | ConnectionClosedException
  | ConsumerTagNotFoundException.

(** [CheckIsConnected]: [inr] is the exception thrown. *)
Definition CheckIsConnected (st : ChannelImpl) : unit + session_exn :=
  if negb (m_is_connected st) then inr ConnectionClosedException else inl tt.

(** [amqp_rpc_reply_t]: the reply type, the id of the method of a server
    exception and the library's error code. *)
Inductive amqp_response_type_enum : Type :=
  | AMQP_RESPONSE_NONE
  | AMQP_RESPONSE_NORMAL
  | AMQP_RESPONSE_LIBRARY_EXCEPTION
  | AMQP_RESPONSE_SERVER_EXCEPTION.

Record amqp_rpc_reply_t : Type := {
  reply_type : amqp_response_type_enum;
  reply_id : Z;
  library_error : Z
}.

Section CheckRpcReply.

(** [AmqpResponseLibraryException::CreateException] and
    [AmqpException::Throw] belong to other files of the library.  The
    first makes the exception that [CheckRpcReply] throws; the second
    throws one itself and does not return.  Which exception each makes
    of a reply is a parameter. *)
Variable CreateException : amqp_rpc_reply_t -> exn.
Variable AmqpException_Throw : amqp_rpc_reply_t -> exn.

Definition CheckRpcReply (ch : Z) (reply : amqp_rpc_reply_t) : M unit :=
  match reply_type reply with
  | AMQP_RESPONSE_NORMAL => ret tt
  | AMQP_RESPONSE_LIBRARY_EXCEPTION => throw (CreateException reply)
  | AMQP_RESPONSE_SERVER_EXCEPTION =>
      (if reply_id reply =? AMQP_CHANNEL_CLOSE_METHOD
       then FinishCloseChannel ch
       else if reply_id reply =? AMQP_CONNECTION_CLOSE_METHOD
            then FinishCloseConnection
            else ret tt) ;;;
      throw (AmqpException_Throw reply)
  | AMQP_RESPONSE_NONE => throw (AmqpException_Throw reply)
  end.

End CheckRpcReply.

(** ** The consumer registry *)

(** [m_consumer_channel_map], a [std::map<std::string, amqp_channel_t>]:
    its entries in the order of the keys, as iteration meets them.  It is
    the one member that the functions above do not touch, and is passed
    beside the rest of the object. *)
Definition consumer_map_t : Type := list (string * Z).

(** [std::less<std::string>]: the order of [std::string::compare]. *)
Definition tag_compare : string -> string -> comparison :=
  OrdersEx.String_as_OT.compare.

(** [std::map::insert]: an entry with an equivalent key stays as it is. *)
Fixpoint map_insert (key : string) (value : Z) (m : consumer_map_t)
    : consumer_map_t :=
  match m with
  | [] => [(key, value)]
  | (k, v) :: m' =>
      match tag_compare key k with
      | Lt => (key, value) :: m
      | Eq => m
      | Gt => (k, v) :: map_insert key value m'
      end
  end.

(** [std::map::find]: the value of the entry with an equivalent key, or
    [None] for [end()]. *)
Fixpoint map_find (key : string) (m : consumer_map_t) : option Z :=
  match m with
  | [] => None
  | (k, v) :: m' =>
      match tag_compare key k with
      | Lt => None
      | Eq => Some v
      | Gt => map_find key m'
      end
  end.

(** [std::map::erase] at the iterator that [find] gave for [key]. *)
Fixpoint map_erase (key : string) (m : consumer_map_t) : consumer_map_t :=
  match m with
  | [] => []
  | (k, v) :: m' =>
      match tag_compare key k with
      | Lt => m
      | Eq => m'
      | Gt => (k, v) :: map_erase key m'
      end
  end.

Definition AddConsumer (consumer_tag : string) (channel : Z)
    (m : consumer_map_t) : consumer_map_t :=
  map_insert consumer_tag channel m.

(** [inr] is the exception thrown. *)
Definition RemoveConsumer (consumer_tag : string) (m : consumer_map_t)
    : (Z + session_exn) * consumer_map_t :=
  match map_find consumer_tag m with
  | None => (inr ConsumerTagNotFoundException, m)
  | Some result => (inl result, map_erase consumer_tag m)
  end.

Definition GetConsumerChannel (consumer_tag : string) (m : consumer_map_t)
    : Z + session_exn :=
  match map_find consumer_tag m with
  | None => inr ConsumerTagNotFoundException
  | Some channel => inl channel
  end.

Definition GetAllConsumerChannels (m : consumer_map_t) : list Z :=
  List.map snd m.

(** ** Direct reply-to *)

Definition AMQP_BASIC_CONSUME_METHOD : Z := 0x003C0014.

Definition set_direct_reply_tag (tag : string) (s : channel_state_t)
    : channel_state_t :=
  {| availability := availability s;
     last_delivery_tag := last_delivery_tag s;
     unconsumed_ack := unconsumed_ack s; direct_reply_tag := tag |}.

(** [std::string::empty] *)
Definition empty (s : string) : bool :=
  match s with EmptyString => true | String _ _ => false end.

(** [MaybeSubscribeToDirectReply]: the registry is passed in and its new
    value is the result; where the function throws, the registry is as
    it was, [AddConsumer] coming after every call that can throw.  The
    reply of [DoRpcOnChannel] is a basic.consume-ok, the one method
    expected; [state] is a reference into [m_channels]. *)
Definition MaybeSubscribeToDirectReply (channel : Z)
    (consumers : consumer_map_t) : M consumer_map_t :=
  state <~ at_ channel ;;
  if negb (empty (direct_reply_tag state)) then ret consumers
  else
    response <~ DoRpcOnChannel channel AMQP_BASIC_CONSUME_METHOD
                  [AMQP_BASIC_CONSUME_OK_METHOD] ;;
    match option_map payload response with
    | Some (method_payload (basic_consume_ok consumer_tag)) =>
        let tag := String.string_of_list_byte consumer_tag in
        MaybeReleaseBuffersOnChannel channel ;;;
        update_ref channel (set_direct_reply_tag tag) ;;;
        ret (AddConsumer tag channel consumers)
    | _ => fun st => (Stuck indeterminate_frame, st)
    end.

Definition GetDirectReplyToken (channel : Z) : M string :=
  state <~ at_ channel ;;
  ret (direct_reply_tag state).

(** * Vocabulary of the properties

    The spec's rules written out as functions, the states that the
    theorems name, and the states of the examples. *)

Definition no_closed_slot (st : ChannelImpl) : Prop :=
  Forall (fun s => availability s <> CS_Closed) (m_channels st).

(** The negotiated channel-max, zero standing for the protocol's
    maximum. *)
Definition effective_channel_max (st : ChannelImpl) : Z :=
  if channel_max (m_connection st) =? 0 then 65535
  else channel_max (m_connection st).

(** Example states: a connection that has delivered nothing yet, and the
    object as its constructor leaves it, in a process that the allocator
    grants four gigabytes. *)
Definition idle_connection (max : Z) : amqp_connection_state_t :=
  {| incoming := []; sent := []; send_status := 0; released := [];
     channel_max := max |}.

Definition fresh_ChannelImpl (max : Z) : ChannelImpl :=
  {| m_connection := idle_connection max; m_frame_queue := [];
     m_delivered_messages := []; m_channels := [new_channel_state CS_Used];
     m_last_used_channel := 0; m_is_connected := false;
     allocatable := 2 ^ 32 |}.

Definition with_channels (cs : list channel_state_t) (st : ChannelImpl)
    : ChannelImpl :=
  set_m_channels (new_channel_state CS_Used :: cs) st.

(** The pool's members are the same in both states. *)
Definition pool_kept (st st' : ChannelImpl) : Prop :=
  m_channels st' = m_channels st /\
  m_last_used_channel st' = m_last_used_channel st /\
  m_is_connected st' = m_is_connected st.

(** [n] publish-confirm waits on a channel, one after the other. *)
Fixpoint waits (n : nat) (ch : Z) : M unit :=
  match n with
  | O => ret tt
  | S n' => GetAckOnChannel ch ;;; waits n' ch
  end.

(** The state that differs from [st] in the banked acks of slot [ch]
    only. *)
Definition banked (ch n : Z) (st : ChannelImpl) : ChannelImpl :=
  set_m_channels
    (alter (set_unconsumed_ack n) (Z.to_nat ch) (m_channels st)) st.

(** The release hint is given exactly when no frame of the channel is
    queued, and nothing else changes. *)
Definition release_offered (ch : Z) (st : ChannelImpl) : ChannelImpl :=
  if forallb (fun frame => negb (is_on_channel frame ch)) (m_frame_queue st)
  then set_m_connection (add_released ch (m_connection st)) st
  else st.

(** The frames the transport is about to deliver. *)
Definition arriving (frames : list amqp_frame_t) (st : ChannelImpl)
    : ChannelImpl :=
  set_m_connection (set_incoming (map wire_frame frames) (m_connection st)) st.

Definition method_frame (ch : Z) (m : amqp_method) : amqp_frame_t :=
  {| channel := ch; payload := method_payload m |}.

Definition header_frame (ch body_size : Z) (props : amqp_basic_properties_t)
    : amqp_frame_t :=
  {| channel := ch; payload := properties_payload body_size props |}.

Definition body_frame (ch : Z) (text : string) : amqp_frame_t :=
  {| channel := ch;
     payload := body_fragment (String.list_byte_of_string text) |}.

Definition no_properties : amqp_basic_properties_t :=
  {| _flags := 0; content_type := []; content_encoding := []; headers := [];
     delivery_mode := 0; priority := 0; correlation_id := []; reply_to := [];
     expiration := []; message_id := []; timestamp := 0; type_ := [];
     user_id := []; app_id := []; cluster_id := [] |}.

(** Three publishes on one connection.  The broker returns the first
    message (basic.return, the content, basic.ack 1) and acknowledges the
    other two (basic.ack 2, basic.ack 3). *)
Definition three_publishes : ChannelImpl :=
  arriving [method_frame 1 channel_open_ok; method_frame 1 confirm_select_ok;
            method_frame 1 (basic_return 312 [] [] []);
            header_frame 1 2 no_properties; body_frame 1 "hi";
            method_frame 1 (basic_ack 1 false);
            method_frame 1 (basic_ack 2 false);
            method_frame 1 (basic_ack 3 false)]
    (set_m_is_connected true (fresh_ChannelImpl 0)).

Definition slot_availability (ch : Z) (st : ChannelImpl)
    : option channel_availability :=
  availability <$> m_channels st !! Z.to_nat ch.

(** The detection rule in the spec's words, on the frames of one channel
    in queue order. *)
Inductive detection : Type :=
  | no_delivery   (* no basic.deliver is queued on the channel *)
  | parked        (* the queue runs out before the delivery is complete *)
  | violation     (* a frame of the wrong type follows *)
  | complete.     (* deliver, header and a body that reaches the size *)

Definition is_deliver (f : amqp_frame_t) : bool :=
  match payload f with
  | method_payload (basic_deliver _ _ _ _ _) => true
  | _ => false
  end.

(** Body frames are accumulated until the running byte total reaches the
    declared size. *)
Fixpoint accumulate (size total : Z) (fs : list amqp_frame_t) : detection :=
  if size <=? total then complete
  else
    match fs with
    | [] => parked
    | f :: fs' =>
        match payload f with
        | body_fragment b => accumulate size (total + len b) fs'
        | _ => violation
        end
    end.

(** The very next frame after the deliver must be a header frame. *)
Definition after_deliver (fs : list amqp_frame_t) : detection :=
  match fs with
  | [] => parked
  | f :: fs' =>
      match payload f with
      | properties_payload size _ => accumulate size 0 fs'
      | _ => violation
      end
  end.

(** The earliest queued basic.deliver decides. *)
Fixpoint detect (fs : list amqp_frame_t) : detection :=
  match fs with
  | [] => no_delivery
  | f :: fs' => if is_deliver f then after_deliver fs' else detect fs'
  end.

Definition on_channel (ch : Z) (q : list amqp_frame_t) : list amqp_frame_t :=
  List.filter (fun f => is_on_channel f ch) q.

(** The bytes of the body fragments held in a queue. *)
Definition queued_bytes (q : list amqp_frame_t) : Z :=
  fold_right
    (fun f n => match payload f with body_fragment b => len b + n | _ => n end)
    0 q.

Definition detected (d : detection) : outcome bool :=
  match d with
  | complete => Ok true
  | violation => Throw (std_runtime_error "Protocol error")
  | no_delivery | parked => Ok false
  end.

(** [reads ch st fs st']: from [st], successive blocking calls of
    [GetNextFrameOnChannel] for [ch] hand out the frames [fs], one after
    the other, and leave [st']: [fs] are the next frames on the channel,
    in arrival order. *)
Inductive reads (ch : Z)
    : ChannelImpl -> list amqp_frame_t -> ChannelImpl -> Prop :=
  | reads_nil (st : ChannelImpl) : reads ch st [] st
  | reads_cons (st st1 st2 : ChannelImpl) (f : amqp_frame_t)
      (fs : list amqp_frame_t) :
      GetNextFrameOnChannel ch None st = (Ok (Some f), st1) ->
      reads ch st1 fs st2 ->
      reads ch st (f :: fs) st2.

(** Reassembly in the spec's words, on the frames that are read: one
    header frame, then body fragments, concatenated in order, until the
    accumulated length reaches the declared size.  [fs] has to be the
    frames of one content, no more and no less; a frame of the wrong
    type is the last one read. *)
Inductive reassembly : Type :=
  | content (body : bytes) (props : amqp_basic_properties_t)
  | not_a_header
  | not_a_body
  | other.

Fixpoint gather (props : amqp_basic_properties_t) (size total : Z)
    (body : bytes) (fs : list amqp_frame_t) : reassembly :=
  if size <=? total then
    match fs with
    | [] => content body props
    | _ :: _ => other
    end
  else
    match fs with
    | [] => other
    | f :: fs' =>
        match payload f with
        | body_fragment b => gather props size (total + len b) (body ++ b) fs'
        | _ => match fs' with [] => not_a_body | _ :: _ => other end
        end
    end.

Definition reassemble (fs : list amqp_frame_t) : reassembly :=
  match fs with
  | [] => other
  | f :: fs' =>
      match payload f with
      | properties_payload size props => gather props size 0 [] fs'
      | _ => match fs' with [] => not_a_header | _ :: _ => other end
      end
  end.

(** The body fragments among the frames, in order. *)
Definition fragments (fs : list amqp_frame_t) : list bytes :=
  flat_map
    (fun f => match payload f with body_fragment b => [b] | _ => [] end) fs.

(** The body size that the first of the frames declares, when that frame
    is a header. *)
Definition declared_size (fs : list amqp_frame_t) : option Z :=
  match fs with
  | f :: _ =>
      match payload f with
      | properties_payload size _ => Some size
      | _ => None
      end
  | [] => None
  end.

(** A body buffer of [size] bytes can be reserved: the size is within
    what a string can hold and within what the allocator grants. *)
Definition reservable (st : ChannelImpl) (size : Z) : Prop :=
  size <= string_max_size /\ size <= allocatable st.

(** What [ReadContent] answers a header with when the body buffer cannot
    be reserved. *)
Definition refused (size : Z) : outcome BasicMessage :=
  if negb (size <? SIZE_MAX) then Stuck assertion_failed
  else if string_max_size <? size then Throw std_length_error
  else Throw std_bad_alloc.

(** Reassembly as stated for every declared size: whatever size the
    header declares, [ReadContent] returns the reassembled body, or the
    protocol error for a frame of the wrong type. *)
Definition reassembles_every_declared_size : Prop :=
  forall (ch : Z) (st st' : ChannelImpl) (fs : list amqp_frame_t),
    reads ch st fs st' ->
    queued_bytes fs < 2 ^ 64 ->
    match reassemble fs with
    | content body props =>
        exists m, ReadContent ch st = (Ok m, st') /\ Body m = body
    | not_a_header =>
        ReadContent ch st = (Throw (std_runtime_error unexpected_header), st')
    | not_a_body =>
        ReadContent ch st = (Throw (std_runtime_error unexpected_body), st')
    | other => True
    end.









Definition version_key : bytes := String.list_byte_of_string "version".

(** The packed value of three version numbers. *)
Definition packed_version (major minor patch : Z) : Z :=
  Z.lor
    (Z.lor (Z.shiftl (Z.land major 0xFF) 16) (Z.shiftl (Z.land minor 0xFF) 8))
    (Z.land patch 0xFF).

(** Server properties with the given version string. *)
Definition properties_with_version (text : string)
    : list (bytes * bytes) :=
  [(String.list_byte_of_string "product",
    String.list_byte_of_string "RabbitMQ");
   (version_key, String.list_byte_of_string text)].

(** [m] never stops because a loop bound of this file was too small. *)
Definition fueled {A : Type} (m : M A) : Prop :=
  forall st, fst (m st) <> Stuck out_of_fuel.

(** ** Vocabulary of the further properties *)

(** The table holds at most one slot per channel id up to the effective
    channel-max, slot 0 included. *)
Definition table_bounded (st : ChannelImpl) : Prop :=
  Z.of_nat (length (m_channels st)) <= effective_channel_max st + 1.

(** The negotiated channel-max is a 16-bit value, as the protocol has
    it. *)
Definition negotiated (st : ChannelImpl) : Prop :=
  0 <= channel_max (m_connection st) <= 65535.

(** The channel is back in the pool: slot Open, most recently used, and
    the release hint offered to the transport. *)
Definition returned_to_pool (ch : Z) (s : channel_state_t)
    (st : ChannelImpl) : ChannelImpl :=
  release_offered ch
    (set_m_last_used_channel ch
       (set_m_channels
          (<[Z.to_nat ch := set_availability CS_Open s]> (m_channels st)) st)).

(** The frame is a channel.close method. *)
Definition is_channel_close (f : amqp_frame_t) : bool :=
  match payload f with
  | method_payload (channel_close _ _) => true
  | _ => false
  end.

(** The queued frames of the other channels, in queue order. *)
Definition off_channel (ch : Z) (q : list amqp_frame_t) : list amqp_frame_t :=
  List.filter (fun f => negb (is_on_channel f ch)) q.

(** The components put back together, a delimiter between each two. *)
Fixpoint join_version (components : list bytes) : bytes :=
  match components with
  | [] => []
  | [c] => c
  | c :: rest => c ++ "."%byte :: join_version rest
  end.

(** The number of delimiters in a string. *)
Definition dots (version : bytes) : nat :=
  length (List.filter (fun c => Byte.eqb c "."%byte) version).

(** The invariant of the map: the keys increase strictly. *)
Fixpoint ordered (m : consumer_map_t) : Prop :=
  match m with
  | [] => True
  | (k, _) :: m' =>
      Forall (fun entry => tag_compare k (fst entry) = Lt) m' /\ ordered m'
  end.

(** The registries that the object can hold: built from the empty map by
    [AddConsumer] and [RemoveConsumer]. *)
Inductive registry : consumer_map_t -> Prop :=
  | registry_empty : registry []
  | registry_add (tag : string) (ch : Z) (m : consumer_map_t) :
      registry m -> registry (AddConsumer tag ch m)
  | registry_remove (tag : string) (m : consumer_map_t) :
      registry m -> registry (snd (RemoveConsumer tag m)).

(** * Properties *)

(** ** Searching a container *)

Section Searching.
Context {A : Type} (p : A -> bool).

Lemma find_index_None (l : list A) :
  find_index p l = None <-> Forall (fun x => p x = false) l.
Proof.
  induction l as [|x l IH]; simpl.
  - split; [constructor | reflexivity].
  - destruct (p x) eqn:Hx.
    + split; [discriminate | intros H; inversion H; congruence].
    + destruct (find_index p l); simpl.
      * split; [discriminate | intros H; inversion H; subst].
        destruct IH as [_ IH]. specialize (IH ltac:(assumption)). discriminate.
      * split; [intros _; constructor; [assumption | now apply IH] | reflexivity].
Qed.

Lemma find_index_Some (l : list A) (i : nat) :
  find_index p l = Some i ->
  exists x, l !! i = Some x /\ p x = true /\
            Forall (fun y => p y = false) (take i l).
Proof.
  revert i. induction l as [|x l IH]; simpl; intros i H; [discriminate|].
  destruct (p x) eqn:Hx.
  - injection H as <-. exists x. repeat split; [assumption | constructor].
  - destruct (find_index p l) as [j|]; [|discriminate].
    injection H as <-. destruct (IH j eq_refl) as (y & Hy & Hpy & Hbefore).
    exists y. repeat split; [assumption.. | simpl; now constructor].
Qed.

Lemma find_index_lt (l : list A) (i : nat) :
  find_index p l = Some i -> (i < length l)%nat.
Proof.
  intros H. destruct (find_index_Some l i H) as (x & Hx & _).
  now apply lookup_lt_Some in Hx.
Qed.
End Searching.

(** ** Channel-id allocation *)

Lemma availability_eqb_eq (a b : channel_availability) :
  availability_eqb a b = true <-> a = b.
Proof. destruct a, b; simpl; split; congruence. Qed.

Lemma availability_eqb_neq (a b : channel_availability) :
  availability_eqb a b = false <-> a <> b.
Proof. destruct a, b; simpl; split; congruence. Qed.

Lemma no_closed_slot_find (st : ChannelImpl) :
  find_index (fun state => availability_eqb (availability state) CS_Closed)
    (m_channels st) = None <-> no_closed_slot st.
Proof.
  rewrite find_index_None. unfold no_closed_slot.
  split; intros H; eapply Forall_impl; try exact H; simpl; intros s;
    apply availability_eqb_neq.
Qed.

Lemma u16_small (x : Z) : 0 <= x < 65536 -> u16 x = x.
Proof. intros H. unfold u16, wrap. now apply Z.mod_small. Qed.

Lemma u64_small (x : Z) : 0 <= x < 2 ^ 64 -> u64 x = x.
Proof. intros H. unfold u64, wrap. now apply Z.mod_small. Qed.

(** C7. Channel-id allocation fails with "Too many channels open" exactly
    when no slot of the channel-state table is Closed and the table is
    longer than the negotiated channel-max (0 read as 65535); otherwise it
    returns the index of a Closed slot of the table, which it leaves as it
    is, or the index of one slot that it appends. *)
Theorem GetNextChannelId_too_many_iff (st : ChannelImpl)
    (Hmax : 0 <= channel_max (m_connection st) <= 65535)
    (Hlen : Z.of_nat (length (m_channels st)) <= 65536) :
  (GetNextChannelId st
     = (Throw (std_runtime_error "Too many channels open"), st)
   <-> no_closed_slot st /\
       effective_channel_max st < Z.of_nat (length (m_channels st))) /\
  match GetNextChannelId st with
  | (Ok id, st') =>
      (exists s, m_channels st !! Z.to_nat id = Some s /\
                 availability s = CS_Closed /\ st' = st) \/
      (no_closed_slot st /\
       id = Z.of_nat (length (m_channels st)) /\
       st' = set_m_channels (m_channels st ++ [new_channel_state CS_Closed]) st)
  | (Throw e, st') =>
      e = std_runtime_error "Too many channels open" /\ st' = st
  | (Stuck _, _) => False
  end.
Proof.
  unfold GetNextChannelId, effective_channel_max.
  destruct (find_index _ (m_channels st)) as [i|] eqn:Hfind.
  - pose proof (find_index_lt _ _ _ Hfind) as Hi.
    destruct (find_index_Some _ _ _ Hfind) as (s & Hs & Hclosed & _).
    apply availability_eqb_eq in Hclosed.
    split.
    + split; [discriminate|]. intros [Hno _].
      apply no_closed_slot_find in Hno. congruence.
    + left. exists s. rewrite u16_small by lia. rewrite Nat2Z.id. auto.
  - apply no_closed_slot_find in Hfind.
    unfold UINT16_MAX. rewrite (Z.eqb_sym 0).
    set (limit := if channel_max (m_connection st) =? 0 then _ else _).
    assert (Hlimit : 0 <= limit <= 65535).
    { subst limit.
      destruct (Z.eqb_spec (channel_max (m_connection st)) 0); lia. }
    rewrite u64_small by lia.
    destruct (Z.ltb_spec limit (Z.of_nat (length (m_channels st))))
      as [Hsat|Hroom].
    + split; [split; auto | auto].
    + split.
      * split; [discriminate | lia].
      * right. rewrite u16_small by lia. auto.
Qed.

Lemma GetNextChannelId_too_many_iff_witness :
  let st := with_channels [new_channel_state CS_Used; new_channel_state CS_Open]
              (fresh_ChannelImpl 2) in
  GetNextChannelId st
  = (Throw (std_runtime_error "Too many channels open"), st).
Proof.
  intros st.
  assert (Hmax : 0 <= channel_max (m_connection st) <= 65535)
    by (vm_compute; split; discriminate).
  assert (Hlen : Z.of_nat (length (m_channels st)) <= 65536)
    by (vm_compute; discriminate).
  apply (proj1 (GetNextChannelId_too_many_iff st Hmax Hlen)).
  split; [|reflexivity].
  repeat constructor; discriminate.
Defined.

(** ** Channel affinity *)

Ltac run :=
  cbv beta iota zeta delta
    [bind ret throw gets modify at_ update_channel update_ref];
  simpl.

(** C9. When [ReturnChannel c] has marked slot [c] Open, a [GetChannel]
    that follows at once returns [c] and marks the slot Used, changing
    nothing else. *)
Theorem GetChannel_after_ReturnChannel (st st1 : ChannelImpl) (c : Z)
    (Hreturn : ReturnChannel c st = (Ok tt, st1)) :
  (exists s, m_channels st1 !! Z.to_nat c = Some s /\
             availability s = CS_Open) /\
  exists st2,
    GetChannel st1 = (Ok c, st2) /\
    (exists s, m_channels st2 !! Z.to_nat c = Some s /\
               availability s = CS_Used) /\
    (forall i, i <> Z.to_nat c -> m_channels st2 !! i = m_channels st1 !! i) /\
    set_m_channels (m_channels st1) st2 = st1.
Proof.
  unfold ReturnChannel in Hreturn. revert Hreturn. run.
  destruct (m_channels st !! Z.to_nat c) as [s|] eqn:Hs; simpl;
    [|discriminate].
  intros [= <-]. simpl.
  pose proof (lookup_lt_Some _ _ _ Hs) as Hlt.
  split.
  - exists (set_availability CS_Open s). split; [|reflexivity].
    now apply list_lookup_insert_eq.
  - unfold GetChannel. run.
    rewrite list_lookup_insert_eq by assumption. simpl.
    eexists. split; [reflexivity|]. simpl. repeat split.
    + exists (set_availability CS_Used (set_availability CS_Open s)).
      split; [|reflexivity].
      rewrite list_lookup_alter_eq, list_lookup_insert_eq by assumption.
      reflexivity.
    + intros i Hi. now rewrite list_lookup_alter_ne by congruence.
Qed.

Lemma GetChannel_after_ReturnChannel_witness :
  let st := with_channels [new_channel_state CS_Open; new_channel_state CS_Used]
              (fresh_ChannelImpl 0) in
  exists st1 st2,
    ReturnChannel 2 st = (Ok tt, st1) /\ GetChannel st1 = (Ok 2, st2).
Proof.
  intros st. eexists.
  destruct (GetChannel_after_ReturnChannel st _ 2 eq_refl)
    as (_ & st2 & Hget & _).
  exists st2. split; [reflexivity | exact Hget].
Defined.

(** ** What the engine leaves alone *)

Lemma pool_kept_refl (st : ChannelImpl) : pool_kept st st.
Proof. repeat split. Qed.

Lemma pool_kept_trans (a b c : ChannelImpl) :
  pool_kept a b -> pool_kept b c -> pool_kept a c.
Proof. unfold pool_kept. intros (?&?&?) (?&?&?). repeat split; congruence. Qed.

#[local] Hint Resolve pool_kept_refl : core.

Lemma CheckForQueuedMessageOnChannel_pure (ch : Z) (st st' : ChannelImpl)
    (o : outcome bool) :
  CheckForQueuedMessageOnChannel ch st = (o, st') -> st' = st.
Proof.
  unfold CheckForQueuedMessageOnChannel.
  repeat (match goal with
          | |- context [match ?x with _ => _ end] => destruct x
          end); congruence.
Qed.

(** Enqueuing touches the frame queue and the delivered messages only. *)
Lemma AddToFrameQueue_frame (f : amqp_frame_t) (st st' : ChannelImpl)
    (o : outcome unit) :
  AddToFrameQueue f st = (o, st') ->
  pool_kept st st' /\ m_connection st' = m_connection st.
Proof.
  unfold AddToFrameQueue. run.
  destruct (CheckForQueuedMessageOnChannel _ _) as [c st1] eqn:Hcheck.
  apply CheckForQueuedMessageOnChannel_pure in Hcheck. subst st1.
  destruct c as [[|]| |]; simpl;
    try (intros [= <- <-]; split; [repeat split | reflexivity]).
  unfold ConsumeMessageOnChannelInner. simpl.
  destruct (pull_delivery _ _) as [[env q]|]; simpl;
    intros [= <- <-]; split; repeat split.
Qed.

Lemma CheckFrameForClose_Ok (f : amqp_frame_t) (ch : Z)
    (st st' : ChannelImpl) (u : unit) :
  CheckFrameForClose f ch st = (Ok u, st') -> st' = st.
Proof.
  unfold CheckFrameForClose, FinishCloseChannel, FinishCloseConnection,
    amqp_send_method, CheckForError.
  destruct (payload f) as [[]| |]; run; try congruence;
    repeat (match goal with
            | |- context [match ?x with _ => _ end] => destruct x; simpl
            end); discriminate.
Qed.

Lemma GetNextFrameFromBroker_frame (timeout : option Z)
    (st st' : ChannelImpl) (o : outcome (option amqp_frame_t)) :
  GetNextFrameFromBroker timeout st = (o, st') ->
  pool_kept st st' /\ m_frame_queue st' = m_frame_queue st /\
  (forall r, o = Ok r ->
     S (length (incoming (m_connection st'))) =
       length (incoming (m_connection st)) \/
     (r = None /\ st' = st /\ timeout <> None)).
Proof.
  unfold GetNextFrameFromBroker.
  destruct (incoming (m_connection st)) as [|[f|p] w] eqn:Hw.
  - destruct timeout; intros [= <- <-]; repeat split; auto.
    intros r [= <-]. right. repeat split. discriminate.
    intros r [=].
  - intros [= <- <-]. repeat split. intros r _. left. reflexivity.
  - destruct (Z.neg p =? AMQP_STATUS_TIMEOUT).
    + intros [= <- <-]. repeat split. intros r _. left. reflexivity.
    + unfold CheckForError. run. intros [= <- <-]. repeat split.
      intros r _. left. reflexivity.
Qed.

Lemma GetNextFrameFromBrokerOnChannel_loop_Ok (fuel : nat)
    (channels : list Z) (timeout : option Z) :
  forall (st st' : ChannelImpl) (r : option amqp_frame_t),
    GetNextFrameFromBrokerOnChannel_loop fuel channels timeout st
      = (Ok r, st') ->
    pool_kept st st'.
Proof.
  induction fuel as [|fuel IH]; simpl; intros st st' r; [discriminate|].
  unfold bind at 1.
  destruct (GetNextFrameFromBroker timeout st) as [o st1] eqn:Hread.
  destruct (GetNextFrameFromBroker_frame _ _ _ _ Hread) as (Hpool & _).
  destruct o as [[frame|]| |]; try discriminate.
  - unfold bind at 1.
    destruct (CheckFrameForClose frame (channel frame) st1) as [o st2] eqn:Hc.
    destruct o as [[]| |]; try discriminate.
    apply CheckFrameForClose_Ok in Hc. subst st2.
    destruct (existsb _ channels).
    + intros [= <- <-]. assumption.
    + unfold bind at 1.
      destruct (AddToFrameQueue frame st1) as [o st2] eqn:Hadd.
      destruct (AddToFrameQueue_frame _ _ _ _ Hadd) as (Hpool2 & _).
      destruct o as [[]| |]; try discriminate.
      intros H. apply IH in H.
      eauto using pool_kept_trans.
  - intros [= <- <-]. assumption.
Qed.

Lemma GetMethodOnChannel_loop_Ok (fuel : nat) (channels expected : list Z)
    (timeout : option Z) :
  forall (st st' : ChannelImpl) (r : option amqp_frame_t),
    GetMethodOnChannel_loop fuel channels expected timeout st = (Ok r, st') ->
    pool_kept st st'.
Proof.
  induction fuel as [|fuel IH]; simpl; intros st st' r; [discriminate|].
  unfold bind at 1.
  destruct (GetNextFrameFromBrokerOnChannel channels timeout st)
    as [o st1] eqn:Hread.
  destruct o as [[frame|]| |]; try discriminate;
    apply GetNextFrameFromBrokerOnChannel_loop_Ok in Hread.
  - destruct (is_expected_method_on_channel _ _ _).
    + intros [= <- <-]. assumption.
    + unfold bind at 1.
      destruct (AddToFrameQueue frame st1) as [o st2] eqn:Hadd.
      destruct (AddToFrameQueue_frame _ _ _ _ Hadd) as (Hpool2 & _).
      destruct o as [[]| |]; try discriminate.
      intros H. apply IH in H. eauto using pool_kept_trans.
  - intros [= <- <-]. assumption.
Qed.

(** A wait for a method that returns has left the pool as it was. *)
Lemma GetMethodOnChannel_Ok (channels expected : list Z)
    (timeout : option Z) (st st' : ChannelImpl)
    (r : option amqp_frame_t) :
  GetMethodOnChannel channels expected timeout st = (Ok r, st') ->
  pool_kept st st'.
Proof.
  unfold GetMethodOnChannel.
  destruct (find_erase _ (m_frame_queue st)) as [[frame q]|].
  - unfold bind at 1.
    destruct (CheckFrameForClose _ _ _) as [o st1] eqn:Hc.
    destruct o as [[]| |]; try discriminate.
    apply CheckFrameForClose_Ok in Hc. subst st1.
    intros [= <- <-]. repeat split.
  - apply GetMethodOnChannel_loop_Ok.
Qed.

(** ** Confirm tracking: cumulative acks *)

Lemma alter_fixed {A : Type} (f : A -> A) (l : list A) (i : nat) (x : A) :
  l !! i = Some x -> f x = x -> alter f i l = l.
Proof.
  revert i. induction l as [|y l IH]; intros [|i]; simpl; intros Hx Hf;
    try discriminate.
  - injection Hx as ->. now rewrite Hf.
  - f_equal. now apply IH.
Qed.

Lemma banked_banked (ch n m : Z) (st : ChannelImpl) :
  banked ch n (banked ch m st) = banked ch n st.
Proof.
  unfold banked, set_m_channels. simpl. f_equal.
  rewrite list_alter_alter_eq. now apply list_alter_ext.
Qed.

(** The fast path: a wait on a channel with banked acks takes one of them
    and touches nothing else. *)
Lemma GetAckOnChannel_banked (ch : Z) (st : ChannelImpl)
    (s : channel_state_t) :
  m_channels st !! Z.to_nat ch = Some s ->
  0 < unconsumed_ack s < 2 ^ 64 ->
  GetAckOnChannel ch st = (Ok tt, banked ch (unconsumed_ack s - 1) st).
Proof.
  intros Hs Hn. unfold GetAckOnChannel, bind at 1, at_. rewrite Hs.
  destruct (Z.gtb_spec (unconsumed_ack s) 0) as [_|]; [|lia].
  unfold update_ref, modify, banked. now rewrite u64_small by lia.
Qed.

Lemma waits_banked (ch : Z) (k : nat) :
  forall (st : ChannelImpl) (s : channel_state_t),
    m_channels st !! Z.to_nat ch = Some s ->
    Z.of_nat k <= unconsumed_ack s < 2 ^ 64 ->
    waits k ch st = (Ok tt, banked ch (unconsumed_ack s - Z.of_nat k) st).
Proof.
  induction k as [|k IH]; intros st s Hs Hn.
  - simpl. unfold ret, banked. f_equal. rewrite Z.sub_0_r.
    rewrite (alter_fixed _ _ _ s Hs); [now destruct st | now destruct s].
  - cbn [waits]. unfold bind.
    rewrite (GetAckOnChannel_banked ch st s Hs) by lia.
    assert (Hs' : m_channels (banked ch (unconsumed_ack s - 1) st)
                    !! Z.to_nat ch
                  = Some (set_unconsumed_ack (unconsumed_ack s - 1) s)).
    { unfold banked. simpl. now rewrite list_lookup_alter_eq, Hs. }
    rewrite (IH _ _ Hs')
      by (cbn [unconsumed_ack set_unconsumed_ack]; lia).
    rewrite banked_banked. cbn [unconsumed_ack set_unconsumed_ack].
    do 2 f_equal. lia.
Qed.

Lemma ReturnChannel_Ok (ch : Z) (st : ChannelImpl) (s : channel_state_t) :
  m_channels st !! Z.to_nat ch = Some s ->
  ReturnChannel ch st
    = (Ok tt,
       set_m_last_used_channel ch
         (set_m_channels
            (<[Z.to_nat ch := set_availability CS_Open s]> (m_channels st))
            st)).
Proof. intros Hs. unfold ReturnChannel. run. now rewrite Hs. Qed.

Lemma find_if_forallb {A : Type} (p : A -> bool) (l : list A) :
  find_if p l = None <-> forallb (fun x => negb (p x)) l = true.
Proof.
  induction l as [|x l IH]; simpl; [tauto|].
  destruct (p x); simpl; [split; discriminate | exact IH].
Qed.

Lemma MaybeReleaseBuffersOnChannel_Ok (ch : Z) (st : ChannelImpl) :
  MaybeReleaseBuffersOnChannel ch st = (Ok tt, release_offered ch st).
Proof.
  unfold MaybeReleaseBuffersOnChannel, release_offered.
  destruct (find_if _ _) eqn:Hfind.
  - destruct (forallb _ _) eqn:Hall; [|reflexivity].
    apply find_if_forallb in Hall. congruence.
  - apply find_if_forallb in Hfind. now rewrite Hfind.
Qed.

Lemma release_offered_pool (ch : Z) (st : ChannelImpl) :
  m_channels (release_offered ch st) = m_channels st /\
  m_last_used_channel (release_offered ch st) = m_last_used_channel st.
Proof. unfold release_offered. now destruct (forallb _ _). Qed.

(** C1. On a channel with no banked ack and last delivery tag [T0], a
    publish-confirm wait that observes a basic.ack with tag [T > T0]
    returns with last delivery tag [T] and [T - T0 - 1] banked acks, and
    each of the next [T - T0 - 1] waits on the channel succeeds by taking
    one banked ack: the state after [k] of them differs from the state
    after the first wait in the banked acks of the slot only, so neither
    the transport nor the frame queue was read. *)
Theorem GetAckOnChannel_cumulative_ack (st st1 : ChannelImpl) (ch : Z)
    (s : channel_state_t) (frame_channel T : Z) (multiple : bool)
    (Hslot : m_channels st !! Z.to_nat ch = Some s)
    (Hbank : unconsumed_ack s = 0)
    (Htag : 0 <= last_delivery_tag s < T)
    (Hu64 : T < 2 ^ 64)
    (Hack : GetMethodOnChannel [ch] PUBLISH_ACK None st
            = (Ok (Some {| channel := frame_channel;
                           payload := method_payload (basic_ack T multiple) |}),
               st1)) :
  exists st2 s2,
    GetAckOnChannel ch st = (Ok tt, st2) /\
    m_channels st2 !! Z.to_nat ch = Some s2 /\
    last_delivery_tag s2 = T /\
    unconsumed_ack s2 = T - last_delivery_tag s - 1 /\
    forall k : nat,
      Z.of_nat k <= T - last_delivery_tag s - 1 ->
      waits k ch st2
        = (Ok tt, banked ch (T - last_delivery_tag s - 1 - Z.of_nat k) st2).
Proof.
  destruct (GetMethodOnChannel_Ok _ _ _ _ _ _ Hack) as (Hch & _).
  pose proof (lookup_lt_Some _ _ _ Hslot) as Hlt.
  set (T0 := last_delivery_tag s) in *.
  set (s2 := set_availability CS_Open
               (set_unconsumed_ack (T - T0 - 1) (set_last_delivery_tag T s))).
  assert (Hrun : exists st2,
             GetAckOnChannel ch st = (Ok tt, st2) /\
             m_channels st2 !! Z.to_nat ch = Some s2).
  { unfold GetAckOnChannel, bind at 1, at_ at 1. rewrite Hslot, Hbank.
    change (0 >? 0) with false. cbv iota.
    unfold bind at 1. rewrite Hack. cbv iota beta.
    unfold bind at 1, at_ at 1. rewrite Hch, Hslot. fold T0.
    destruct (Z.leb_spec T T0) as [|_]; [lia|].
    rewrite (u64_small (T - T0)) by lia.
    destruct (Z.gtb_spec (T - T0) 1) as [Hgt|Hle].
    - run. rewrite Hch. rewrite u64_small by lia.
      erewrite ReturnChannel_Ok
        by (simpl; rewrite !list_lookup_alter_eq, Hslot; reflexivity).
      rewrite MaybeReleaseBuffersOnChannel_Ok. eexists. split; [reflexivity|].
      rewrite (proj1 (release_offered_pool _ _)). simpl.
      now rewrite list_lookup_insert_eq by (rewrite !length_alter; lia).
    - run. rewrite Hch.
      erewrite ReturnChannel_Ok
        by (simpl; rewrite !list_lookup_alter_eq, Hslot; reflexivity).
      rewrite MaybeReleaseBuffersOnChannel_Ok. eexists. split; [reflexivity|].
      rewrite (proj1 (release_offered_pool _ _)). simpl.
      rewrite list_lookup_insert_eq by (rewrite !length_alter; lia).
      subst s2. destruct s; unfold set_availability; simpl in *.
      do 2 f_equal. subst T0. simpl in *. lia. }
  destruct Hrun as (st2 & Hrun & Hs2).
  exists st2, s2. repeat split; try assumption.
  intros k Hk.
  rewrite (waits_banked ch k st2 s2 Hs2) by (subst s2; simpl; lia).
  reflexivity.
Qed.

Lemma GetAckOnChannel_cumulative_ack_witness :
  let st := arriving [method_frame 1 (basic_ack 3 true)]
              (with_channels [new_channel_state CS_Used] (fresh_ChannelImpl 0)) in
  exists st2 s2,
    GetAckOnChannel 1 st = (Ok tt, st2) /\
    m_channels st2 !! Z.to_nat 1 = Some s2 /\
    last_delivery_tag s2 = 3 /\
    unconsumed_ack s2 = 3 - 0 - 1 /\
    forall k : nat,
      Z.of_nat k <= 3 - 0 - 1 ->
      waits k 1 st2 = (Ok tt, banked 1 (3 - 0 - 1 - Z.of_nat k) st2).
Proof.
  intros st.
  refine (GetAckOnChannel_cumulative_ack st _ 1 (new_channel_state CS_Used)
            1 3 true eq_refl eq_refl _ _ _).
  - simpl. lia.
  - reflexivity.
  - vm_compute. reflexivity.
Defined.

(** ** Confirm tracking: nack and return *)

Lemma GetNextFrameOnChannel_Ok (ch : Z) (timeout : option Z)
    (st st' : ChannelImpl) (r : option amqp_frame_t) :
  GetNextFrameOnChannel ch timeout st = (Ok r, st') -> pool_kept st st'.
Proof.
  unfold GetNextFrameOnChannel.
  destruct (find_erase _ (m_frame_queue st)) as [[frame q]|].
  - destruct (payload frame) as [[]| |]; try (intros [= <- <-]; repeat split).
    unfold FinishCloseChannel, amqp_send_method, CheckForError. run.
    repeat (match goal with
            | |- context [match ?x with _ => _ end] => destruct x; simpl
            end); discriminate.
  - apply GetNextFrameFromBrokerOnChannel_loop_Ok.
Qed.

(** What the allocator grants is no concern of the frame engine: a wait
    for a frame leaves it as it was. *)
Lemma FinishCloseChannel_allocatable (ch : Z) (st st' : ChannelImpl)
    (o : outcome unit) :
  FinishCloseChannel ch st = (o, st') -> allocatable st' = allocatable st.
Proof.
  unfold FinishCloseChannel, amqp_send_method, CheckForError. run.
  destruct (m_channels st !! Z.to_nat ch); simpl; [|now intros [= <- <-]].
  destruct (send_status (m_connection st) <? 0) eqn:Hsend; simpl;
    rewrite ?Hsend; now intros [= <- <-].
Qed.

Lemma CheckFrameForClose_allocatable (f : amqp_frame_t) (ch : Z)
    (st st' : ChannelImpl) (o : outcome unit) :
  CheckFrameForClose f ch st = (o, st') -> allocatable st' = allocatable st.
Proof.
  unfold CheckFrameForClose.
  destruct (payload f) as [[]| |]; try (now intros [= <- <-]).
  - unfold FinishCloseConnection, amqp_send_method. run.
    destruct (send_status (m_connection st) <? 0); now intros [= <- <-].
  - unfold bind.
    destruct (FinishCloseChannel ch st) as [[[]|e|w] st1] eqn:Hclose;
      apply FinishCloseChannel_allocatable in Hclose;
      intros [= <- <-]; exact Hclose.
Qed.

Lemma GetNextFrameFromBroker_allocatable (timeout : option Z)
    (st st' : ChannelImpl) (o : outcome (option amqp_frame_t)) :
  GetNextFrameFromBroker timeout st = (o, st') ->
  allocatable st' = allocatable st.
Proof.
  unfold GetNextFrameFromBroker, CheckForError.
  destruct (incoming (m_connection st)) as [|[f|p] w].
  - destruct timeout; now intros [= <- <-].
  - now intros [= <- <-].
  - destruct (Z.neg p =? AMQP_STATUS_TIMEOUT); [now intros [= <- <-]|].
    run. destruct (Z.neg p <? 0); now intros [= <- <-].
Qed.

Lemma AddToFrameQueue_allocatable (f : amqp_frame_t) (st st' : ChannelImpl)
    (o : outcome unit) :
  AddToFrameQueue f st = (o, st') -> allocatable st' = allocatable st.
Proof.
  unfold AddToFrameQueue. run.
  destruct (CheckForQueuedMessageOnChannel _ _) as [c st1] eqn:Hcheck.
  apply CheckForQueuedMessageOnChannel_pure in Hcheck. subst st1.
  destruct c as [[|]| |]; simpl; try (now intros [= <- <-]).
  unfold ConsumeMessageOnChannelInner. simpl.
  destruct (pull_delivery _ _) as [[env q]|]; simpl; now intros [= <- <-].
Qed.

Lemma GetNextFrameFromBrokerOnChannel_loop_allocatable (fuel : nat)
    (channels : list Z) (timeout : option Z) :
  forall (st st' : ChannelImpl) (o : outcome (option amqp_frame_t)),
    GetNextFrameFromBrokerOnChannel_loop fuel channels timeout st = (o, st') ->
    allocatable st' = allocatable st.
Proof.
  induction fuel as [|fuel IH]; simpl; intros st st' o;
    [now intros [= <- <-]|].
  unfold bind at 1.
  destruct (GetNextFrameFromBroker timeout st) as [o1 st1] eqn:Hread.
  apply GetNextFrameFromBroker_allocatable in Hread.
  destruct o1 as [[frame|]| |]; try (now intros [= <- <-]).
  unfold bind at 1.
  destruct (CheckFrameForClose frame (channel frame) st1) as [o2 st2] eqn:Hc.
  apply CheckFrameForClose_allocatable in Hc.
  destruct o2 as [[]| |]; try (intros [= <- <-]; congruence).
  destruct (existsb _ channels); [intros [= <- <-]; congruence|].
  unfold bind at 1.
  destruct (AddToFrameQueue frame st2) as [o3 st3] eqn:Hadd.
  apply AddToFrameQueue_allocatable in Hadd.
  destruct o3 as [[]| |]; try (intros [= <- <-]; congruence).
  intros H. apply IH in H. congruence.
Qed.

Lemma GetNextFrameOnChannel_allocatable (ch : Z) (timeout : option Z)
    (st st' : ChannelImpl) (o : outcome (option amqp_frame_t)) :
  GetNextFrameOnChannel ch timeout st = (o, st') ->
  allocatable st' = allocatable st.
Proof.
  unfold GetNextFrameOnChannel.
  destruct (find_erase _ (m_frame_queue st)) as [[frame q]|].
  - destruct (payload frame) as [[]| |]; try (now intros [= <- <-]).
    unfold bind.
    destruct (FinishCloseChannel ch (set_m_frame_queue q st))
      as [[[]|e|w] st1] eqn:Hclose;
      apply FinishCloseChannel_allocatable in Hclose;
      intros [= <- <-]; exact Hclose.
  - apply GetNextFrameFromBrokerOnChannel_loop_allocatable.
Qed.

Lemma ReadContent_loop_Ok (fuel : nat) (ch body_size : Z) :
  forall (frame : amqp_frame_t) (received : Z) (body body' : bytes)
         (st st' : ChannelImpl),
    ReadContent_loop fuel ch frame body_size received body st = (Ok body', st') ->
    pool_kept st st'.
Proof.
  induction fuel as [|fuel IH]; intros frame received body body' st st';
    simpl; destruct (received <? body_size); try discriminate;
    try (intros [= <- <-]; now apply pool_kept_refl).
  unfold bind at 1.
  destruct (GetNextFrameOnChannel ch None st) as [o st1] eqn:Hnext.
  destruct o as [r| |]; try discriminate.
  apply GetNextFrameOnChannel_Ok in Hnext.
  destruct (payload (match r with Some f => f | None => frame end));
    try discriminate.
  intros H. apply IH in H. eauto using pool_kept_trans.
Qed.

(** Reassembling a content leaves the pool as it was. *)
(** [ReadContent], step by step: the header frame, the [assert] and the
    [reserve] on its body size, then the body loop. *)
Lemma ReadContent_steps (ch : Z) (st : ChannelImpl) :
  ReadContent ch st
  = match GetNextFrameOnChannel ch None st with
    | (Ok (Some frame), st1) =>
        match payload frame with
        | properties_payload body_size properties =>
            if negb (body_size <? SIZE_MAX)
            then (Stuck assertion_failed, st1)
            else if string_max_size <? body_size
            then (Throw std_length_error, st1)
            else if allocatable st1 <? body_size
            then (Throw std_bad_alloc, st1)
            else
              match ReadContent_loop (S (frames_left st1)) ch frame
                      body_size 0 [] st1 with
              | (Ok body, st2) =>
                  (Ok (SetMessageProperties
                         (set_Body body BasicMessage_Create) properties), st2)
              | (Throw e, st2) => (Throw e, st2)
              | (Stuck w, st2) => (Stuck w, st2)
              end
        | _ => (Throw (std_runtime_error unexpected_header), st1)
        end
    | (Ok None, st1) => (Stuck indeterminate_frame, st1)
    | (Throw e, st1) => (Throw e, st1)
    | (Stuck w, st1) => (Stuck w, st1)
    end.
Proof.
  unfold ReadContent, bind at 1.
  destruct (GetNextFrameOnChannel ch None st) as [[[frame|]|e|w] st1];
    try reflexivity.
  destruct (payload frame) as [m|body_size properties|b]; try reflexivity.
  destruct (negb (body_size <? SIZE_MAX)); [reflexivity|].
  unfold bind at 1, reserve.
  destruct (string_max_size <? body_size); [reflexivity|].
  destruct (allocatable st1 <? body_size); [reflexivity|].
  cbv beta iota zeta delta [bind ret gets].
  now destruct (ReadContent_loop _ _ _ _ _ _ st1) as [[body|e|w] st2].
Qed.

Lemma ReadContent_Ok (ch : Z) (st st' : ChannelImpl) (m : BasicMessage) :
  ReadContent ch st = (Ok m, st') -> pool_kept st st'.
Proof.
  rewrite ReadContent_steps.
  destruct (GetNextFrameOnChannel ch None st) as [o st1] eqn:Hnext.
  destruct o as [[frame|]| |]; try discriminate.
  apply GetNextFrameOnChannel_Ok in Hnext.
  destruct (payload frame) as [|body_size properties|]; try discriminate.
  destruct (negb (body_size <? SIZE_MAX)); [discriminate|].
  destruct (string_max_size <? body_size); [discriminate|].
  destruct (allocatable st1 <? body_size); [discriminate|].
  destruct (ReadContent_loop _ _ _ _ _ _ st1) as [o st2] eqn:Hloop.
  destruct o; try discriminate.
  apply ReadContent_loop_Ok in Hloop.
  intros [= <- <-]. eauto using pool_kept_trans.
Qed.

(** C6. A publish-confirm wait that observes a basic.nack with delivery
    tag [t] records [t] as the channel's last delivery tag, returns the
    channel to the pool (slot Open, most recently used) and fails with
    the rejection carrying [t]; it is one failure and nothing is banked
    for later waits, also when the nack is cumulative. *)
Theorem GetAckOnChannel_nack (st st1 : ChannelImpl) (ch : Z)
    (s : channel_state_t) (frame_channel t : Z) (multiple requeue : bool)
    (Hslot : m_channels st !! Z.to_nat ch = Some s)
    (Hbank : unconsumed_ack s = 0)
    (Hnack : GetMethodOnChannel [ch] PUBLISH_ACK None st
             = (Ok (Some {| channel := frame_channel;
                            payload :=
                              method_payload (basic_nack t multiple requeue) |}),
                st1)) :
  exists st2 s2,
    GetAckOnChannel ch st = (Throw (MessageRejectedException t), st2) /\
    m_channels st2 !! Z.to_nat ch = Some s2 /\
    last_delivery_tag s2 = t /\
    availability s2 = CS_Open /\
    unconsumed_ack s2 = 0 /\
    m_last_used_channel st2 = ch.
Proof.
  destruct (GetMethodOnChannel_Ok _ _ _ _ _ _ Hnack) as (Hch & _).
  pose proof (lookup_lt_Some _ _ _ Hslot) as Hlt.
  unfold GetAckOnChannel, bind at 1, at_ at 1. rewrite Hslot, Hbank.
  change (0 >? 0) with false. cbv iota.
  unfold bind at 1. rewrite Hnack. cbv iota beta.
  run. rewrite Hch.
  erewrite ReturnChannel_Ok
    by (simpl; rewrite !list_lookup_alter_eq, Hslot; reflexivity).
  rewrite MaybeReleaseBuffersOnChannel_Ok.
  eexists. eexists. split; [reflexivity|].
  rewrite (proj1 (release_offered_pool _ _)),
    (proj2 (release_offered_pool _ _)).
  simpl. rewrite list_lookup_insert_eq by (rewrite !length_alter; lia).
  repeat split. simpl. assumption.
Qed.

Lemma GetAckOnChannel_nack_witness :
  let st := arriving [method_frame 1 (basic_nack 4 true false)]
              (with_channels [new_channel_state CS_Used] (fresh_ChannelImpl 0)) in
  exists st2 s2,
    GetAckOnChannel 1 st = (Throw (MessageRejectedException 4), st2) /\
    m_channels st2 !! Z.to_nat 1 = Some s2 /\
    last_delivery_tag s2 = 4 /\
    availability s2 = CS_Open /\
    unconsumed_ack s2 = 0 /\
    m_last_used_channel st2 = 1.
Proof.
  intros st.
  refine (GetAckOnChannel_nack st _ 1 (new_channel_state CS_Used) 1 4 true
            false eq_refl eq_refl _).
  vm_compute. reflexivity.
Defined.

Lemma release_offered_wire (ch : Z) (st : ChannelImpl) :
  m_frame_queue (release_offered ch st) = m_frame_queue st /\
  incoming (m_connection (release_offered ch st))
    = incoming (m_connection st).
Proof. unfold release_offered. now destruct (forallb _ _). Qed.

(** C10. A publish-confirm wait that observes a basic.return reassembles
    the returned message, consumes the basic.ack that follows and raises
    the returned-message failure carrying the message, reply code, reply
    text, exchange and routing key; the channel's last delivery tag and
    banked acks are what they were before the wait, whatever the delivery
    tag of the consumed ack. *)
Theorem GetAckOnChannel_return (st st1 st2 st3 : ChannelImpl) (ch : Z)
    (s : channel_state_t) (frame_channel reply_code : Z)
    (reply_text exchange routing_key : bytes) (content : BasicMessage)
    (ack_channel ack_tag : Z) (multiple : bool)
    (Hslot : m_channels st !! Z.to_nat ch = Some s)
    (Hbank : unconsumed_ack s = 0)
    (Hreturn : GetMethodOnChannel [ch] PUBLISH_ACK None st
               = (Ok (Some {| channel := frame_channel;
                              payload :=
                                method_payload
                                  (basic_return reply_code reply_text
                                     exchange routing_key) |}),
                  st1))
    (Hcontent : ReadContent ch st1 = (Ok content, st2))
    (Hack : GetMethodOnChannel [ch] BASIC_ACK None st2
            = (Ok (Some {| channel := ack_channel;
                           payload :=
                             method_payload (basic_ack ack_tag multiple) |}),
               st3)) :
  exists st4 s4,
    GetAckOnChannel ch st
      = (Throw (MessageReturnedException content reply_code reply_text
                  exchange routing_key), st4) /\
    m_channels st4 !! Z.to_nat ch = Some s4 /\
    last_delivery_tag s4 = last_delivery_tag s /\
    unconsumed_ack s4 = unconsumed_ack s /\
    m_frame_queue st4 = m_frame_queue st3 /\
    incoming (m_connection st4) = incoming (m_connection st3).
Proof.
  destruct (GetMethodOnChannel_Ok _ _ _ _ _ _ Hreturn) as (Hch1 & _).
  destruct (ReadContent_Ok _ _ _ _ Hcontent) as (Hch2 & _).
  destruct (GetMethodOnChannel_Ok _ _ _ _ _ _ Hack) as (Hch3 & _).
  assert (Hslot3 : m_channels st3 !! Z.to_nat ch = Some s) by congruence.
  pose proof (lookup_lt_Some _ _ _ Hslot3) as Hlt.
  unfold GetAckOnChannel, bind at 1, at_ at 1. rewrite Hslot, Hbank.
  change (0 >? 0) with false. cbv iota.
  unfold bind at 1. rewrite Hreturn. cbv iota beta.
  unfold CreateMessageReturnedException.
  unfold bind at 1, bind at 1. rewrite Hcontent. unfold ret at 1.
  unfold bind at 1. rewrite Hack.
  unfold bind at 1. rewrite (ReturnChannel_Ok _ _ _ Hslot3).
  unfold bind at 1. rewrite MaybeReleaseBuffersOnChannel_Ok.
  unfold throw. eexists. eexists. split; [reflexivity|].
  rewrite (proj1 (release_offered_pool _ _)). simpl.
  rewrite list_lookup_insert_eq by assumption.
  rewrite (proj1 (release_offered_wire _ _)),
    (proj2 (release_offered_wire _ _)).
  repeat split. simpl. exact Hbank.
Qed.

Lemma GetAckOnChannel_return_witness :
  let st := arriving [method_frame 1 (basic_return 312 [] [] []);
                      header_frame 1 5 no_properties;
                      body_frame 1 "hel"; body_frame 1 "lo";
                      method_frame 1 (basic_ack 7 false)]
              (with_channels [new_channel_state CS_Used] (fresh_ChannelImpl 0)) in
  exists st4 s4,
    GetAckOnChannel 1 st
      = (Throw (MessageReturnedException
                  (SetMessageProperties
                     (set_Body (String.list_byte_of_string "hello")
                        BasicMessage_Create) no_properties)
                  312 [] [] []), st4) /\
    m_channels st4 !! Z.to_nat 1 = Some s4 /\
    last_delivery_tag s4 = 0 /\
    unconsumed_ack s4 = 0.
Proof.
  intros st.
  set (st1 := snd (GetMethodOnChannel [1] PUBLISH_ACK None st)).
  set (st2 := snd (ReadContent 1 st1)).
  set (st3 := snd (GetMethodOnChannel [1] BASIC_ACK None st2)).
  destruct (GetAckOnChannel_return st st1 st2 st3 1
              (new_channel_state CS_Used) 1 312 [] [] []
              (SetMessageProperties
                 (set_Body (String.list_byte_of_string "hello")
                    BasicMessage_Create) no_properties)
              1 7 false eq_refl eq_refl eq_refl eq_refl eq_refl)
    as (st4 & s4 & Hrun & Hs4 & Htag & Hbank & _).
  exists st4, s4. auto.
Defined.

(** ** Confirm tracking: the exits and the pool *)

(** The banked exit.  A wait that takes a banked ack changes the
    banked count of the slot and nothing else: the slot's availability,
    the most recently used channel and the release hints given to the
    transport are what they were. *)
Lemma GetAckOnChannel_banked_keeps_pool (ch : Z) (st : ChannelImpl)
    (s : channel_state_t) :
  m_channels st !! Z.to_nat ch = Some s ->
  0 < unconsumed_ack s < 2 ^ 64 ->
  exists st' s',
    GetAckOnChannel ch st = (Ok tt, st') /\
    m_channels st' !! Z.to_nat ch = Some s' /\
    availability s' = availability s /\
    m_last_used_channel st' = m_last_used_channel st /\
    m_connection st' = m_connection st.
Proof.
  intros Hs Hn. rewrite (GetAckOnChannel_banked ch st s Hs Hn).
  eexists. eexists. split; [reflexivity|]. unfold banked. simpl.
  rewrite list_lookup_alter_eq, Hs. simpl. repeat split.
Qed.

(** C2. The publish-confirm wait does not release the channel on the
    banked exit.  In the run below every publish takes its channel with
    [GetChannel] and waits with [GetAckOnChannel]; the first wait fails
    with the returned message and the second succeeds on basic.ack 2,
    both releasing channel 1; the third takes a banked ack and returns
    with channel 1 still Used, no release hint given and basic.ack 3
    unread, so that the pool will not hand channel 1 out again. *)
Theorem GetAckOnChannel_banked_exit_not_released :
  let st1 := snd (GetChannel three_publishes) in
  let st2 := snd (GetAckOnChannel 1 st1) in
  let st3 := snd (GetChannel st2) in
  let st4 := snd (GetAckOnChannel 1 st3) in
  let st5 := snd (GetChannel st4) in
  let st6 := snd (GetAckOnChannel 1 st5) in
  fst (GetChannel three_publishes) = Ok 1 /\
  (exists m, fst (GetAckOnChannel 1 st1)
             = Throw (MessageReturnedException m 312 [] [] [])) /\
  slot_availability 1 st2 = Some CS_Open /\
  fst (GetChannel st2) = Ok 1 /\
  fst (GetAckOnChannel 1 st3) = Ok tt /\
  slot_availability 1 st4 = Some CS_Open /\
  released (m_connection st4) = [1; 1] /\
  fst (GetChannel st4) = Ok 1 /\
  fst (GetAckOnChannel 1 st5) = Ok tt /\
  slot_availability 1 st6 = Some CS_Used /\
  released (m_connection st6) = [1; 1] /\
  incoming (m_connection st6) = [wire_frame (method_frame 1 (basic_ack 3 false))].
Proof.
  vm_compute. repeat split. eexists. reflexivity.
Qed.

(** ** The message-boundary detector *)

Lemma queued_bytes_nonneg (q : list amqp_frame_t) : 0 <= queued_bytes q.
Proof.
  induction q as [|f q IH]; simpl; [lia|].
  destruct (payload f); unfold len; lia.
Qed.

Lemma queued_bytes_app (q r : list amqp_frame_t) :
  queued_bytes (q ++ r) = queued_bytes q + queued_bytes r.
Proof.
  induction q as [|f q IH]; simpl; [reflexivity|].
  destruct (payload f); lia.
Qed.

Lemma find_if_filter {A : Type} (p : A -> bool) (l : list A) :
  match find_if p l with
  | None => List.filter p l = []
  | Some (x, l') => List.filter p l = x :: List.filter p l'
  end.
Proof.
  induction l as [|y l IH]; simpl; [reflexivity|].
  destruct (p y); [reflexivity | exact IH].
Qed.

Lemma find_if_suffix {A : Type} (p : A -> bool) (l l' : list A) (x : A) :
  find_if p l = Some (x, l') -> exists pre, l = pre ++ x :: l'.
Proof.
  revert l'. induction l as [|y l IH]; simpl; intros l' H; [discriminate|].
  destruct (p y).
  - injection H as -> ->. now exists [].
  - destruct (IH _ H) as [pre ->]. now exists (y :: pre).
Qed.

Lemma is_deliver_method (f : amqp_frame_t) (ch : Z) :
  is_method_on_channel f AMQP_BASIC_DELIVER_METHOD ch
  = is_on_channel f ch && is_deliver f.
Proof.
  unfold is_method_on_channel, is_on_channel, is_deliver.
  rewrite (Z.eqb_sym ch). destruct (channel f =? ch); [|reflexivity].
  destruct (payload f) as [[]| |]; reflexivity.
Qed.

(** The body loop of the detector follows [accumulate] on the frames of
    the channel, as long as the byte total fits 64 bits. *)
Lemma queued_body_loop_accumulate (ch size : Z) (range : list amqp_frame_t) :
  forall received : Z,
    0 <= received ->
    received + queued_bytes range < 2 ^ 64 ->
    queued_body_loop ch size received range
    = detected (accumulate size received (on_channel ch range)).
Proof.
  induction range as [|f range IH]; intros received Hpos Hfit; simpl.
  - rewrite Z.leb_antisym. now destruct (received <? size).
  - simpl in Hfit. pose proof (queued_bytes_nonneg range) as Hq.
    destruct (is_on_channel f ch) eqn:Hon; simpl.
    + rewrite Z.leb_antisym. destruct (received <? size) eqn:Hlt; simpl.
      * destruct (payload f) as [m|sz props|b]; try reflexivity.
        assert (0 <= len b) by (unfold len; lia).
        rewrite u64_small by lia. apply IH; lia.
      * reflexivity.
    + rewrite IH by (destruct (payload f); unfold len in *; lia).
      destruct (received <? size) eqn:Hlt; [reflexivity|].
      destruct (on_channel ch range); simpl;
        now rewrite Z.leb_antisym, Hlt.
Qed.

(** The detector computes the spec's rule on the frames of the channel. *)
Lemma CheckForQueuedMessageOnChannel_detect (ch : Z) (st : ChannelImpl) :
  queued_bytes (m_frame_queue st) < 2 ^ 64 ->
  CheckForQueuedMessageOnChannel ch st
  = (detected (detect (on_channel ch (m_frame_queue st))), st).
Proof.
  unfold CheckForQueuedMessageOnChannel.
  generalize (m_frame_queue st) as q.
  induction q as [|f q IH]; intros Hfit; simpl; [reflexivity|].
  assert (Hq : queued_bytes q < 2 ^ 64).
  { simpl in Hfit. pose proof (queued_bytes_nonneg q).
    destruct (payload f); unfold len in *; lia. }
  rewrite is_deliver_method.
  destruct (is_on_channel f ch) eqn:Hon; simpl; [|now apply IH].
  destruct (is_deliver f) eqn:Hd; simpl; [|now apply IH].
  generalize (find_if_filter (fun frame => is_on_channel frame ch) q).
  fold (on_channel ch q).
  destruct (find_if (fun frame => is_on_channel frame ch) q)
    as [[it range]|] eqn:Hfind; cbv iota beta;
    intros ->; simpl; [|reflexivity].
  destruct (payload it) as [m|size props|b] eqn:Hit; try reflexivity.
  fold (on_channel ch range).
  rewrite queued_body_loop_accumulate; [reflexivity | lia |].
  destruct (find_if_suffix _ _ _ _ Hfind) as [pre ->].
  rewrite queued_bytes_app in Hq. simpl in Hq.
  pose proof (queued_bytes_nonneg pre).
  rewrite Hit in Hq. lia.
Qed.

Lemma find_erase_filter {A : Type} (p : A -> bool) (l : list A) :
  match find_erase p l with
  | None => List.filter p l = []
  | Some (x, l') =>
      List.filter p l = x :: List.filter p l' /\ length l = S (length l')
  end.
Proof.
  induction l as [|y l IH]; simpl; [reflexivity|].
  destruct (p y) eqn:Hy; [auto|].
  destruct (find_erase p l) as [[x l']|]; [|exact IH].
  simpl. rewrite Hy. destruct IH as [-> ->]. auto.
Qed.

Lemma find_erase_bytes (p : amqp_frame_t -> bool) (l l' : list amqp_frame_t)
    (x : amqp_frame_t) :
  find_erase p l = Some (x, l') -> queued_bytes l' <= queued_bytes l.
Proof.
  revert l'. induction l as [|y l IH]; simpl; intros l' H; [discriminate|].
  pose proof (queued_bytes_nonneg l).
  destruct (p y).
  - injection H as <- <-. destruct (payload y); unfold len; lia.
  - destruct (find_erase p l) as [[z r]|]; [|discriminate].
    injection H as <- <-. specialize (IH _ eq_refl). simpl.
    destruct (payload y); lia.
Qed.

Lemma split_at_app {A : Type} (p : A -> bool) (l pre post : list A) (x : A) :
  split_at p l = Some (pre, x, post) ->
  l = pre ++ x :: post /\ p x = true.
Proof.
  revert pre. induction l as [|y l IH]; simpl; intros pre H; [discriminate|].
  destruct (p y) eqn:Hy.
  - injection H as <- <- <-. auto.
  - destruct (split_at p l) as [[[pre' z] post']|]; [|discriminate].
    injection H as <- <- <-. destruct (IH _ eq_refl) as [-> Hz]. auto.
Qed.

(** Where the detector sees a complete delivery, the earliest deliver of
    the channel splits the queue, and what follows it is complete. *)
Lemma detect_complete_split (ch : Z) (q : list amqp_frame_t) :
  detect (on_channel ch q) = complete ->
  exists pre d post,
    split_at
      (fun frame => is_method_on_channel frame AMQP_BASIC_DELIVER_METHOD ch) q
    = Some (pre, d, post) /\
    is_deliver d = true /\
    after_deliver (on_channel ch post) = complete.
Proof.
  induction q as [|f q IH]; simpl; [discriminate|].
  rewrite is_deliver_method.
  destruct (is_on_channel f ch) eqn:Hon; simpl.
  - destruct (is_deliver f) eqn:Hd; simpl.
    + intros H. exists [], f, q. auto.
    + intros H. destruct (IH H) as (pre & d & post & -> & Hdel & Hafter).
      exists (f :: pre), d, post. auto.
  - intros H. destruct (IH H) as (pre & d & post & -> & Hdel & Hafter).
    exists (f :: pre), d, post. auto.
Qed.

Lemma pull_body_accumulate (ch size : Z) (q : list amqp_frame_t) :
  forall (received : Z) (body : bytes),
    0 <= received ->
    received + queued_bytes q < 2 ^ 64 ->
    accumulate size received (on_channel ch q) = complete ->
    exists b r, pull_body ch size received body q = Some (b, r) /\
                (length r <= length q)%nat.
Proof.
  induction q as [|f q IH]; intros received body Hpos Hfit; simpl.
  - rewrite Z.leb_antisym. destruct (received <? size); simpl;
      [discriminate | eauto].
  - simpl in Hfit. pose proof (queued_bytes_nonneg q) as Hq.
    destruct (is_on_channel f ch) eqn:Hon; simpl.
    + rewrite Z.leb_antisym. destruct (received <? size) eqn:Hlt; simpl.
      * destruct (payload f) as [m|sz props|b]; try discriminate.
        assert (Hb : 0 <= len b) by (unfold len; lia).
        rewrite u64_small by lia. intros Hacc.
        destruct (IH (received + len b) (body ++ b)) as (b' & r & -> & Hr);
          try lia; try assumption.
        exists b', r. split; [reflexivity | lia].
      * intros _. exists body, (f :: q). split; [reflexivity | simpl; lia].
    + destruct (received <? size) eqn:Hlt.
      * intros H.
        destruct (IH received body) as (b' & r & -> & Hr);
          try assumption; [destruct (payload f); unfold len in *; lia|].
        exists b', (f :: r). split; [reflexivity | simpl; lia].
      * intros _. exists body, (f :: q). split; [reflexivity | simpl; lia].
Qed.

(** A delivery that the detector finds complete can be pulled out of the
    queue, which gets shorter by the deliver and the header at least. *)
Lemma pull_delivery_complete (ch : Z) (q : list amqp_frame_t) :
  queued_bytes q < 2 ^ 64 ->
  detect (on_channel ch q) = complete ->
  exists env q',
    pull_delivery ch q = Some (env, q') /\ (length q' + 2 <= length q)%nat.
Proof.
  intros Hfit Hdet.
  destruct (detect_complete_split ch q Hdet)
    as (pre & d & post & Hsplit & Hdel & Hafter).
  unfold pull_delivery. rewrite Hsplit.
  destruct (split_at_app _ _ _ _ _ Hsplit) as [-> _].
  unfold is_deliver in Hdel.
  destruct (payload d) as [[]| |] eqn:Hd; try discriminate.
  pose proof (find_erase_filter (fun f => is_on_channel f ch) post) as Hfe.
  pose proof (find_erase_bytes (fun f => is_on_channel f ch) post) as Hfb.
  fold (on_channel ch post) in Hfe. unfold after_deliver in Hafter.
  destruct (find_erase (fun f => is_on_channel f ch) post)
    as [[header post']|].
  - destruct Hfe as [Hfe Hlen]. rewrite Hfe in Hafter.
    destruct (payload header) as [m|size props|b]; try discriminate.
    specialize (Hfb _ _ eq_refl).
    rewrite queued_bytes_app in Hfit. simpl in Hfit. rewrite Hd in Hfit.
    pose proof (queued_bytes_nonneg pre).
    destruct (pull_body_accumulate ch size post' 0 [] ltac:(lia) ltac:(lia)
                Hafter) as (body & rest & -> & Hrest).
    eexists. eexists. split; [reflexivity|].
    rewrite !length_app. simpl. lia.
  - rewrite Hfe in Hafter. discriminate.
Qed.

(** C3. Enqueuing a frame promotes a delivery to the delivered-message
    list exactly when, among the frames of the enqueued frame's channel
    in queue order, the earliest queued basic.deliver is followed by a
    header frame and then by body frames whose byte total reaches the
    declared body size.  If the frame after that deliver is not a header
    frame (or a frame that is not a body frame comes before the total is
    reached) the operation fails with the protocol error; if the queue
    runs out first, or holds no deliver, the frame is parked: it is
    appended and nothing else changes. *)
Theorem AddToFrameQueue_detect (st : ChannelImpl) (f : amqp_frame_t)
    (Hfit : queued_bytes (m_frame_queue st ++ [f]) < 2 ^ 64) :
  let q := m_frame_queue st ++ [f] in
  match detect (on_channel (channel f) q) with
  | complete =>
      exists env q',
        pull_delivery (channel f) q = Some (env, q') /\
        AddToFrameQueue f st
        = (Ok tt,
           set_m_delivered_messages (m_delivered_messages st ++ [env])
             (set_m_frame_queue q' st))
  | violation =>
      AddToFrameQueue f st
      = (Throw (std_runtime_error "Protocol error"), set_m_frame_queue q st)
  | no_delivery | parked =>
      AddToFrameQueue f st = (Ok tt, set_m_frame_queue q st)
  end.
Proof.
  intros q. unfold AddToFrameQueue. run.
  rewrite CheckForQueuedMessageOnChannel_detect by exact Hfit.
  simpl. fold q.
  destruct (detect (on_channel (channel f) q)) eqn:Hdet; simpl;
    try reflexivity.
  destruct (pull_delivery_complete (channel f) q Hfit Hdet)
    as (env & q' & Hpull & _).
  exists env, q'. split; [assumption|].
  unfold ConsumeMessageOnChannelInner. simpl. fold q. now rewrite Hpull.
Qed.

Lemma AddToFrameQueue_detect_witness :
  let st := set_m_frame_queue
              [method_frame 2 (basic_deliver [] 1 false [] []);
               body_frame 1 "x"; header_frame 2 5 no_properties;
               body_frame 2 "hel"] (fresh_ChannelImpl 0) in
  let f := body_frame 2 "lo" in
  queued_bytes (m_frame_queue st ++ [f]) < 2 ^ 64 /\
  exists env q',
    pull_delivery 2 (m_frame_queue st ++ [f]) = Some (env, q') /\
    AddToFrameQueue f st
    = (Ok tt,
       set_m_delivered_messages (m_delivered_messages st ++ [env])
         (set_m_frame_queue q' st)).
Proof.
  intros st f.
  assert (Hfit : queued_bytes (m_frame_queue st ++ [f]) < 2 ^ 64)
    by (vm_compute; reflexivity).
  split; [exact Hfit|].
  exact (AddToFrameQueue_detect st f Hfit).
Defined.

(** ** Content reassembly *)

Lemma pull_body_length (ch size : Z) (q : list amqp_frame_t) :
  forall (received : Z) (body b : bytes) (r : list amqp_frame_t),
    pull_body ch size received body q = Some (b, r) ->
    (length r <= length q)%nat.
Proof.
  induction q as [|f q IH]; intros received body b r; simpl.
  - destruct (received <? size); [discriminate|]. now intros [= <- <-].
  - destruct (received <? size); [|now intros [= <- <-]].
    destruct (is_on_channel f ch).
    + destruct (payload f); try discriminate.
      intros H. apply IH in H. lia.
    + destruct (pull_body ch size received body q) as [[b' r']|] eqn:Hp;
        [|discriminate].
      intros [= <- <-]. apply IH in Hp. simpl. lia.
Qed.

Lemma pull_delivery_length (ch : Z) (q q' : list amqp_frame_t)
    (env : Envelope) :
  pull_delivery ch q = Some (env, q') -> (length q' <= length q)%nat.
Proof.
  unfold pull_delivery.
  destruct (split_at _ q) as [[[pre d] post]|] eqn:Hsplit; [|discriminate].
  destruct (split_at_app _ _ _ _ _ Hsplit) as [-> _].
  destruct (payload d) as [[]| |]; try discriminate.
  pose proof (find_erase_filter (fun f => is_on_channel f ch) post) as Hfe.
  destruct (find_erase _ post) as [[header post']|]; [|discriminate].
  destruct Hfe as [_ Hlen].
  destruct (payload header); try discriminate.
  destruct (pull_body _ _ _ _ _) as [[body rest]|] eqn:Hbody; [|discriminate].
  apply pull_body_length in Hbody.
  intros [= <- <-]. rewrite !length_app. simpl. lia.
Qed.

(** Enqueuing makes the queue longer by one frame at most. *)
Lemma AddToFrameQueue_length (f : amqp_frame_t) (st st' : ChannelImpl)
    (o : outcome unit) :
  AddToFrameQueue f st = (o, st') ->
  (length (m_frame_queue st') <= S (length (m_frame_queue st)))%nat.
Proof.
  unfold AddToFrameQueue. run.
  destruct (CheckForQueuedMessageOnChannel _ _) as [c st1] eqn:Hcheck.
  apply CheckForQueuedMessageOnChannel_pure in Hcheck. subst st1.
  assert (Hpush : length (m_frame_queue st ++ [f])
                  = S (length (m_frame_queue st)))
    by (rewrite length_app; simpl; lia).
  destruct c as [[|]| |]; simpl;
    try (intros [= <- <-]; simpl; lia).
  unfold ConsumeMessageOnChannelInner. simpl.
  destruct (pull_delivery _ _) as [[env q]|] eqn:Hpull; simpl;
    intros [= <- <-]; simpl; [|lia].
  apply pull_delivery_length in Hpull. lia.
Qed.

Lemma GetNextFrameFromBrokerOnChannel_loop_left (fuel : nat)
    (channels : list Z) :
  forall (st st' : ChannelImpl) (r : option amqp_frame_t),
    GetNextFrameFromBrokerOnChannel_loop fuel channels None st = (Ok r, st') ->
    (frames_left st' < frames_left st)%nat.
Proof.
  induction fuel as [|fuel IH]; simpl; intros st st' r; [discriminate|].
  unfold bind at 1.
  destruct (GetNextFrameFromBroker None st) as [o st1] eqn:Hread.
  destruct (GetNextFrameFromBroker_frame _ _ _ _ Hread) as (_ & Hq & Hin).
  assert (Hleft : forall x, o = Ok x ->
                            (S (S (frames_left st1)) = frames_left st)%nat).
  { intros x Hx. unfold frames_left. rewrite Hq.
    destruct (Hin x Hx) as [Hlen|(_ & _ & Hnone)]; [lia | congruence]. }
  destruct o as [[frame|]| |]; try discriminate;
    specialize (Hleft _ eq_refl).
  - unfold bind at 1.
    destruct (CheckFrameForClose frame (channel frame) st1) as [o st2] eqn:Hc.
    destruct o as [[]| |]; try discriminate.
    apply CheckFrameForClose_Ok in Hc. subst st2.
    destruct (existsb _ channels).
    + intros [= <- <-]. lia.
    + unfold bind at 1.
      destruct (AddToFrameQueue frame st1) as [o st2] eqn:Hadd.
      pose proof (AddToFrameQueue_length _ _ _ _ Hadd) as Hlen.
      destruct (AddToFrameQueue_frame _ _ _ _ Hadd) as (_ & Hconn).
      destruct o as [[]| |]; try discriminate.
      intros H. apply IH in H. unfold frames_left in *. rewrite Hconn in *.
      lia.
  - intros [= <- <-]. lia.
Qed.

(** Every frame handed out brings the bound down. *)
Lemma GetNextFrameOnChannel_left (ch : Z) (st st' : ChannelImpl)
    (r : option amqp_frame_t) :
  GetNextFrameOnChannel ch None st = (Ok r, st') ->
  (frames_left st' < frames_left st)%nat.
Proof.
  unfold GetNextFrameOnChannel.
  pose proof (find_erase_filter (fun frame => is_on_channel frame ch)
                (m_frame_queue st)) as Hfe.
  destruct (find_erase _ (m_frame_queue st)) as [[frame q]|].
  - destruct Hfe as [_ Hlen].
    destruct (payload frame) as [[]| |];
      try (intros [= <- <-]; unfold frames_left; simpl; lia).
    unfold FinishCloseChannel, amqp_send_method, CheckForError. run.
    repeat (match goal with
            | |- context [match ?x with _ => _ end] => destruct x; simpl
            end); discriminate.
  - apply GetNextFrameFromBrokerOnChannel_loop_left.
Qed.

Lemma reads_left (ch : Z) (st st' : ChannelImpl) (fs : list amqp_frame_t) :
  reads ch st fs st' ->
  (length fs + frames_left st' <= frames_left st)%nat.
Proof.
  induction 1 as [st|st st1 st2 f fs Hnext _ IH]; simpl; [lia|].
  apply GetNextFrameOnChannel_left in Hnext. lia.
Qed.

(** The body loop follows [gather]; the fuel is enough when it covers
    the frames read. *)
Lemma ReadContent_loop_gather (ch size : Z) (props : amqp_basic_properties_t)
    (st st' : ChannelImpl) (fs : list amqp_frame_t) :
  reads ch st fs st' ->
  forall (fuel : nat) (frame : amqp_frame_t) (received : Z) (body : bytes),
    (length fs <= fuel)%nat ->
    0 <= received ->
    received + queued_bytes fs < 2 ^ 64 ->
    match gather props size received body fs with
    | content b p =>
        p = props /\
        ReadContent_loop fuel ch frame size received body st = (Ok b, st')
    | not_a_body =>
        ReadContent_loop fuel ch frame size received body st
        = (Throw (std_runtime_error unexpected_body), st')
    | not_a_header => False
    | other => True
    end.
Proof.
  induction 1 as [st|st st1 st2 f fs Hnext Hreads IH];
    intros fuel frame received body Hfuel Hpos Hfit.
  - simpl. rewrite Z.leb_antisym.
    destruct fuel; simpl; now destruct (received <? size).
  - cbn [gather]. rewrite Z.leb_antisym.
    destruct (received <? size) eqn:Hlt; cbn [negb]; [|exact I].
    destruct fuel as [|fuel]; [simpl in Hfuel; lia|].
    assert (Hstep :
              ReadContent_loop (S fuel) ch frame size received body st
              = match payload f with
                | body_fragment b =>
                    ReadContent_loop fuel ch f size (u64 (received + len b))
                      (body ++ b) st1
                | _ => (Throw (std_runtime_error unexpected_body), st1)
                end).
    { cbn [ReadContent_loop]. rewrite Hlt. unfold bind. rewrite Hnext.
      now destruct (payload f). }
    rewrite Hstep. clear Hstep.
    simpl in Hfit, Hfuel. pose proof (queued_bytes_nonneg fs) as Hq.
    destruct (payload f) as [m|sz pr|b] eqn:Hf.
    + destruct fs; [|exact I]. inversion Hreads; subst. reflexivity.
    + destruct fs; [|exact I]. inversion Hreads; subst. reflexivity.
    + assert (Hb : 0 <= len b) by (unfold len; lia).
      rewrite u64_small by lia. apply IH; lia.
Qed.

Lemma gather_concat (props : amqp_basic_properties_t) (size : Z)
    (fs : list amqp_frame_t) :
  forall (total : Z) (body b : bytes) (p : amqp_basic_properties_t),
    gather props size total body fs = content b p ->
    b = body ++ concat (fragments fs).
Proof.
  induction fs as [|f fs IH]; intros total body b p; simpl.
  - destruct (size <=? total); [|discriminate].
    intros [= <- _]. now rewrite app_nil_r.
  - destruct (size <=? total); [discriminate|].
    destruct (payload f) as [m|sz pr|frag].
    + destruct fs; discriminate.
    + destruct fs; discriminate.
    + intros H. apply IH in H. simpl. now rewrite H, <- app_assoc.
Qed.

(** C5, counterexample.  The broker sends, on channel 1, a header that
    declares a body of 2^63 bytes, a body fragment and a basic.ack: the
    statement for every declared size promises the protocol error for
    the basic.ack, read before 2^63 bytes have accumulated.
    [ReadContent] raises [std::length_error] when it reserves the body
    buffer, with the fragment and the basic.ack still to be read. *)
Lemma ReadContent_refuses_large_size :
  let st := arriving [header_frame 1 (2 ^ 63) no_properties;
                      body_frame 1 "x"; method_frame 1 (basic_ack 1 false)]
              (with_channels [new_channel_state CS_Used]
                 (fresh_ChannelImpl 0)) in
  ReadContent 1 st
  = (Throw std_length_error,
     arriving [body_frame 1 "x"; method_frame 1 (basic_ack 1 false)] st) /\
  ~ reassembles_every_declared_size.
Proof.
  intros st. split; [reflexivity|].
  intros Hclaim.
  assert (Hreads :
            reads 1 st
              [header_frame 1 (2 ^ 63) no_properties; body_frame 1 "x";
               method_frame 1 (basic_ack 1 false)]
              (arriving [] st)).
  { do 3 (eapply reads_cons; [reflexivity|]). apply reads_nil. }
  specialize (Hclaim 1 st _ _ Hreads eq_refl).
  discriminate Hclaim.
Qed.

(** C5, amended.  When the next frame on the channel is a header frame
    declaring a body size [N] for which the body buffer can be reserved
    ([N] at most [std::string::max_size()] and granted by the
    allocator), [ReadContent] returns the message whose body is the
    concatenation, in arrival order, of the body fragments that follow
    on the channel, having read exactly the fragments up to the one with
    which the accumulated byte count reaches [N]; when the first frame
    read is not a header frame, or a frame that is not a body frame is
    read before [N] bytes have accumulated, it raises the protocol
    error, having read that frame last.  For a header whose [N] cannot
    be reserved it reads no further frame: it raises
    [std::length_error] for [N] above [max_size()] and [std::bad_alloc]
    for one the allocator refuses (and stops at the assertion for
    [N = SIZE_MAX]).  The frames read are those that
    [GetNextFrameOnChannel] hands out, from the queue or from the
    transport; their fragments total less than 2^64 bytes. *)
Theorem ReadContent_reassemble (ch : Z) (st st' : ChannelImpl)
    (fs : list amqp_frame_t)
    (Hreads : reads ch st fs st')
    (Hfit : queued_bytes fs < 2 ^ 64) :
  ((forall N, declared_size fs = Some N -> reservable st N) ->
   match reassemble fs with
   | content body props =>
       body = concat (fragments fs) /\
       exists m,
         ReadContent ch st = (Ok m, st') /\
         Body m = concat (fragments fs) /\
         m = SetMessageProperties (set_Body body BasicMessage_Create) props
   | not_a_header =>
       ReadContent ch st = (Throw (std_runtime_error unexpected_header), st')
   | not_a_body =>
       ReadContent ch st = (Throw (std_runtime_error unexpected_body), st')
   | other => True
   end) /\
  (forall N, declared_size fs = Some N -> ~ reservable st N ->
     exists header st1,
       GetNextFrameOnChannel ch None st = (Ok (Some header), st1) /\
       ReadContent ch st = (refused N, st1)).
Proof.
  destruct Hreads as [st|st st1 st2 f fs Hnext Hreads];
    [split; [intros _; exact I | discriminate]|].
  pose proof (GetNextFrameOnChannel_allocatable _ _ _ _ _ Hnext) as Halloc.
  rewrite ReadContent_steps, Hnext. cbn [reassemble declared_size].
  destruct (payload f) as [m|size props|b] eqn:Hf.
  - split; [intros _|discriminate].
    destruct fs; [|exact I]. inversion Hreads; subst. reflexivity.
  - unfold reservable, refused. rewrite Halloc. split.
    + intros Hroom. destruct (Hroom size eq_refl) as [Hmax Hgrant].
      assert (Hassert : (size <? SIZE_MAX) = true)
        by (apply Z.ltb_lt; unfold SIZE_MAX, string_max_size in *; lia).
      rewrite Hassert. cbn [negb].
      destruct (Z.ltb_spec string_max_size size); [lia|].
      destruct (Z.ltb_spec (allocatable st) size); [lia|].
      pose proof (reads_left _ _ _ _ Hreads) as Hleft.
      simpl in Hfit. rewrite Hf in Hfit.
      pose proof (ReadContent_loop_gather ch size props st1 st2 fs Hreads
                    (S (frames_left st1)) f 0 [] ltac:(lia) ltac:(lia)
                    ltac:(lia))
        as Hloop.
      revert Hloop. unfold fragments. simpl. rewrite Hf. simpl.
      fold (fragments fs).
      destruct (gather props size 0 [] fs) eqn:Hg;
        [intros [-> Hloop] | intros [] | intros Hloop | intros _; exact I];
        rewrite Hloop; [|reflexivity].
      apply gather_concat in Hg. simpl in Hg. subst body.
      split; [reflexivity|]. eexists. split; [reflexivity|].
      split; reflexivity.
    + intros N [= <-] Hno. exists f, st1. split; [reflexivity|].
      destruct (negb (size <? SIZE_MAX)); [reflexivity|].
      destruct (Z.ltb_spec string_max_size size); [reflexivity|].
      destruct (Z.ltb_spec (allocatable st) size); [reflexivity|].
      exfalso. apply Hno. lia.
  - split; [intros _|discriminate].
    destruct fs; [|exact I]. inversion Hreads; subst. reflexivity.
Qed.

Lemma ReadContent_reassemble_witness :
  let st := arriving [body_frame 2 "zz"; body_frame 1 "lo";
                      method_frame 1 (basic_ack 1 false)]
              (set_m_frame_queue
                 [header_frame 1 5 no_properties; body_frame 2 "yy";
                  body_frame 1 "hel"] (fresh_ChannelImpl 0)) in
  let fs := [header_frame 1 5 no_properties; body_frame 1 "hel";
             body_frame 1 "lo"] in
  exists st' m,
    reads 1 st fs st' /\
    ReadContent 1 st = (Ok m, st') /\
    Body m = String.list_byte_of_string "hello".
Proof.
  intros st fs.
  assert (Hreads : reads 1 st fs (snd (ReadContent 1 st))).
  { do 3 (eapply reads_cons; [reflexivity|]). apply reads_nil. }
  assert (Hroom : forall N, declared_size fs = Some N -> reservable st N).
  { intros N [= <-]. split; vm_compute; discriminate. }
  destruct (proj1 (ReadContent_reassemble 1 st _ fs Hreads eq_refl) Hroom)
    as (_ & m & Hrun & Hbody & _).
  exists (snd (ReadContent 1 st)), m.
  split; [exact Hreads|]. split; [exact Hrun | exact Hbody].
Defined.

(** ** Close frames *)
















(** ** Broker version *)

Lemma land_u32_byte (x : Z) : Z.land (u32 x) 0xFF = Z.land x 0xFF.
Proof.
  unfold u32, wrap. change 0xFF with (Z.ones 8).
  rewrite !Z.land_ones by lia.
  apply Z.mod_mod_divide. exists (2 ^ 24). reflexivity.
Qed.

(** Where the version entry splits into three components and each has a
    number in front, the result is the packed value of the numbers;
    where the entry is absent or does not split into three components,
    it is 0. *)
Lemma ComputeBrokerVersion_cases (properties : list (bytes * bytes)) :
  match find_if (fun entry => bytesEqual (fst entry) version_key)
          properties with
  | None => ComputeBrokerVersion properties = Ok 0
  | Some (entry, _) =>
      match splitVersion (snd entry) with
      | [c0; c1; c2] =>
          forall major minor patch : Z,
            stoul c0 = Ok major -> stoul c1 = Ok minor ->
            stoul c2 = Ok patch ->
            ComputeBrokerVersion properties
            = Ok (packed_version major minor patch)
      | _ => ComputeBrokerVersion properties = Ok 0
      end
  end.
Proof.
  unfold ComputeBrokerVersion. fold version_key.
  destruct (find_if _ properties) as [[entry rest]|]; [|reflexivity].
  destruct (splitVersion (snd entry)) as [|c0 [|c1 [|c2 [|c3 l]]]];
    try reflexivity.
  intros major minor patch -> -> ->. unfold packed_version.
  now rewrite !land_u32_byte.
Qed.

(** C8. With a version entry that splits into three components of which
    one has no number in front, [ComputeBrokerVersion] does not return 0:
    [std::stoul] throws, [std::invalid_argument] for a component without
    a digit and [std::out_of_range] for one that exceeds 64 bits. *)
Theorem ComputeBrokerVersion_throws :
  ComputeBrokerVersion (properties_with_version "3.8.9") = Ok 0x030809 /\
  ComputeBrokerVersion (properties_with_version "3.8") = Ok 0 /\
  ComputeBrokerVersion (properties_with_version "3.8.x") = Throw std_invalid_argument /\
  ComputeBrokerVersion (properties_with_version "v3.8.9") = Throw std_invalid_argument /\
  ComputeBrokerVersion (properties_with_version "3.8.") = Throw std_invalid_argument /\
  ComputeBrokerVersion
    (properties_with_version "3.8.99999999999999999999")
  = Throw std_out_of_range.
Proof. vm_compute. repeat split. Qed.


(** ** The loop bounds are never reached *)

Lemma fueled_bind {A B : Type} (m : M A) (k : A -> M B) :
  fueled m -> (forall a, fueled (k a)) -> fueled (bind m k).
Proof.
  intros Hm Hk st. unfold bind. specialize (Hm st).
  destruct (m st) as [[a|e|w] st1]; simpl in *; [apply Hk | discriminate |].
  congruence.
Qed.

Lemma fueled_ret {A : Type} (a : A) : fueled (ret a).
Proof. intros st. discriminate. Qed.

Lemma fueled_throw {A : Type} (e : exn) : fueled (@throw A e).
Proof. intros st. discriminate. Qed.

Lemma fueled_modify (f : ChannelImpl -> ChannelImpl) : fueled (modify f).
Proof. intros st. discriminate. Qed.

Lemma fueled_gets {A : Type} (f : ChannelImpl -> A) : fueled (gets f).
Proof. intros st. discriminate. Qed.

Lemma fueled_at (i : Z) : fueled (at_ i).
Proof. intros st. unfold at_. now destruct (_ !! _). Qed.

Create HintDb fuel.

#[local] Hint Resolve fueled_ret fueled_throw fueled_modify fueled_gets
  fueled_at : fuel.

Ltac fueled :=
  repeat first
    [ solve [auto with fuel]
    | apply fueled_bind; [|intros ?]
    | match goal with
      | |- fueled (match ?x with _ => _ end) => destruct x
      | |- fueled (if ?b then _ else _) => destruct b
      end ].

Lemma fueled_update_channel (i : Z) (f : channel_state_t -> channel_state_t) :
  fueled (update_channel i f).
Proof. unfold update_channel. fueled. Qed.

Lemma fueled_update_ref (i : Z) (f : channel_state_t -> channel_state_t) :
  fueled (update_ref i f).
Proof. unfold update_ref. fueled. Qed.

#[local] Hint Resolve fueled_update_channel fueled_update_ref : fuel.

Lemma fueled_ReturnChannel (ch : Z) : fueled (ReturnChannel ch).
Proof. unfold ReturnChannel. fueled. Qed.

Lemma fueled_MaybeReleaseBuffersOnChannel (ch : Z) :
  fueled (MaybeReleaseBuffersOnChannel ch).
Proof. intros st. now rewrite MaybeReleaseBuffersOnChannel_Ok. Qed.

Lemma fueled_CheckFrameForClose (f : amqp_frame_t) (ch : Z) :
  fueled (CheckFrameForClose f ch).
Proof.
  unfold CheckFrameForClose, FinishCloseChannel, FinishCloseConnection,
    CheckForError.
  assert (forall c i, fueled (amqp_send_method c i))
    by (intros c i st; discriminate).
  fueled.
Qed.

Lemma queued_body_loop_not_stuck (ch size : Z) (range : list amqp_frame_t) :
  forall (received : Z) (w : stuck),
    queued_body_loop ch size received range <> Stuck w.
Proof.
  induction range as [|x l IH]; intros received w; simpl.
  - now destruct (received <? size).
  - destruct (received <? size); [|discriminate].
    destruct (is_on_channel x ch); [|apply IH].
    destruct (payload x); try discriminate. apply IH.
Qed.

Lemma fueled_AddToFrameQueue (f : amqp_frame_t) : fueled (AddToFrameQueue f).
Proof.
  unfold AddToFrameQueue.
  assert (forall ch, fueled (CheckForQueuedMessageOnChannel ch)).
  { intros ch st. unfold CheckForQueuedMessageOnChannel.
    repeat (match goal with
            | |- context [match ?x with _ => _ end] => destruct x
            end); try discriminate.
    simpl. apply queued_body_loop_not_stuck. }
  assert (forall ch, fueled (ConsumeMessageOnChannelInner ch)).
  { intros ch st. unfold ConsumeMessageOnChannelInner.
    now destruct (pull_delivery _ _) as [[]|]. }
  fueled.
Qed.

#[local] Hint Resolve fueled_ReturnChannel fueled_MaybeReleaseBuffersOnChannel
  fueled_CheckFrameForClose fueled_AddToFrameQueue : fuel.

Lemma fueled_GetNextFrameFromBroker (timeout : option Z) :
  fueled (GetNextFrameFromBroker timeout).
Proof.
  intros st. unfold GetNextFrameFromBroker, CheckForError.
  destruct (incoming _) as [|[]]; [now destruct timeout | discriminate |].
  destruct (_ =? _); [discriminate|].
  unfold bind, throw, ret. now destruct (_ <? _).
Qed.

Lemma GetNextFrameFromBrokerOnChannel_loop_fueled (fuel : nat)
    (channels : list Z) (timeout : option Z) :
  forall st : ChannelImpl,
    (length (incoming (m_connection st)) < fuel)%nat ->
    fst (GetNextFrameFromBrokerOnChannel_loop fuel channels timeout st)
    <> Stuck out_of_fuel.
Proof.
  induction fuel as [|fuel IH]; intros st Hfuel; [lia|].
  cbn [GetNextFrameFromBrokerOnChannel_loop]. unfold bind at 1.
  pose proof (fueled_GetNextFrameFromBroker timeout st) as Hread.
  destruct (GetNextFrameFromBroker timeout st) as [o st1] eqn:Hnext.
  destruct (GetNextFrameFromBroker_frame _ _ _ _ Hnext) as (_ & _ & Hin).
  destruct o as [[frame|]| |]; try discriminate; [|simpl in *; congruence].
  destruct (Hin _ eq_refl) as [Hlen|(Hnone & _)]; [|discriminate].
  unfold bind at 1.
  pose proof (fueled_CheckFrameForClose frame (channel frame) st1) as Hclose.
  destruct (CheckFrameForClose _ _ st1) as [o st2] eqn:Hc.
  destruct o as [[]| |]; try discriminate; [|simpl in *; congruence].
  apply CheckFrameForClose_Ok in Hc. subst st2.
  destruct (existsb _ channels); [discriminate|].
  unfold bind at 1.
  pose proof (fueled_AddToFrameQueue frame st1) as Hqueue.
  destruct (AddToFrameQueue frame st1) as [o st2] eqn:Hadd.
  destruct (AddToFrameQueue_frame _ _ _ _ Hadd) as (_ & Hconn).
  destruct o as [[]| |]; try discriminate; [|simpl in *; congruence].
  apply IH. rewrite Hconn. lia.
Qed.

Lemma fueled_GetNextFrameFromBrokerOnChannel (channels : list Z)
    (timeout : option Z) :
  fueled (GetNextFrameFromBrokerOnChannel channels timeout).
Proof.
  intros st. apply GetNextFrameFromBrokerOnChannel_loop_fueled. lia.
Qed.

(** A frame handed over by the transport loop has been taken off the
    transport. *)
Lemma GetNextFrameFromBrokerOnChannel_loop_taken (fuel : nat)
    (channels : list Z) (timeout : option Z) :
  forall (st st' : ChannelImpl) (f : amqp_frame_t),
    GetNextFrameFromBrokerOnChannel_loop fuel channels timeout st
    = (Ok (Some f), st') ->
    (length (incoming (m_connection st'))
     < length (incoming (m_connection st)))%nat.
Proof.
  induction fuel as [|fuel IH]; simpl; intros st st' f; [discriminate|].
  unfold bind at 1.
  destruct (GetNextFrameFromBroker timeout st) as [o st1] eqn:Hnext.
  destruct (GetNextFrameFromBroker_frame _ _ _ _ Hnext) as (_ & _ & Hin).
  destruct o as [[frame|]| |]; try discriminate.
  destruct (Hin _ eq_refl) as [Hlen|(Hnone & _)]; [|discriminate].
  unfold bind at 1.
  destruct (CheckFrameForClose _ _ st1) as [o st2] eqn:Hc.
  destruct o as [[]| |]; try discriminate.
  apply CheckFrameForClose_Ok in Hc. subst st2.
  destruct (existsb _ channels).
  - intros [= <- <-]. lia.
  - unfold bind at 1.
    destruct (AddToFrameQueue frame st1) as [o st2] eqn:Hadd.
    destruct (AddToFrameQueue_frame _ _ _ _ Hadd) as (_ & Hconn).
    destruct o as [[]| |]; try discriminate.
    intros H. apply IH in H. rewrite Hconn in H. lia.
Qed.

Lemma GetMethodOnChannel_loop_fueled (fuel : nat)
    (channels expected : list Z) (timeout : option Z) :
  forall st : ChannelImpl,
    (length (incoming (m_connection st)) < fuel)%nat ->
    fst (GetMethodOnChannel_loop fuel channels expected timeout st)
    <> Stuck out_of_fuel.
Proof.
  induction fuel as [|fuel IH]; intros st Hfuel; [lia|].
  cbn [GetMethodOnChannel_loop]. unfold bind at 1.
  pose proof (fueled_GetNextFrameFromBrokerOnChannel channels timeout st)
    as Hread.
  destruct (GetNextFrameFromBrokerOnChannel channels timeout st)
    as [o st1] eqn:Hnext.
  destruct o as [[frame|]| |]; try discriminate; [|simpl in *; congruence].
  apply GetNextFrameFromBrokerOnChannel_loop_taken in Hnext.
  destruct (is_expected_method_on_channel _ _ _); [discriminate|].
  unfold bind at 1.
  pose proof (fueled_AddToFrameQueue frame st1) as Hqueue.
  destruct (AddToFrameQueue frame st1) as [o st2] eqn:Hadd.
  destruct (AddToFrameQueue_frame _ _ _ _ Hadd) as (_ & Hconn).
  destruct o as [[]| |]; try discriminate; [|simpl in *; congruence].
  apply IH. rewrite Hconn. lia.
Qed.

Lemma fueled_GetMethodOnChannel (channels expected : list Z)
    (timeout : option Z) :
  fueled (GetMethodOnChannel channels expected timeout).
Proof.
  intros st. unfold GetMethodOnChannel.
  destruct (find_erase _ _) as [[frame q]|].
  - assert (Hf : fueled (CheckFrameForClose frame (channel frame) ;;;
                         ret (Some frame))) by fueled.
    apply Hf.
  - apply GetMethodOnChannel_loop_fueled. lia.
Qed.

Lemma fueled_GetNextFrameOnChannel (ch : Z) (timeout : option Z) :
  fueled (GetNextFrameOnChannel ch timeout).
Proof.
  intros st. unfold GetNextFrameOnChannel.
  destruct (find_erase _ _) as [[frame q]|];
    [|apply fueled_GetNextFrameFromBrokerOnChannel].
  assert (Hf : forall code text,
             @fueled (option amqp_frame_t)
               (FinishCloseChannel ch ;;;
                throw (ChannelException code text))).
  { intros code text. unfold FinishCloseChannel, CheckForError.
    assert (forall c i, fueled (amqp_send_method c i))
      by (intros c i s; discriminate).
    fueled. }
  destruct (payload frame) as [[]| |]; try discriminate. apply Hf.
Qed.

Lemma ReadContent_loop_fueled (fuel : nat) (ch size : Z) :
  forall (frame : amqp_frame_t) (received : Z) (body : bytes)
         (st : ChannelImpl),
    (frames_left st < fuel)%nat ->
    fst (ReadContent_loop fuel ch frame size received body st)
    <> Stuck out_of_fuel.
Proof.
  induction fuel as [|fuel IH]; intros frame received body st Hfuel; [lia|].
  cbn [ReadContent_loop].
  destruct (received <? size); [|discriminate].
  unfold bind at 1.
  pose proof (fueled_GetNextFrameOnChannel ch None st) as Hread.
  destruct (GetNextFrameOnChannel ch None st) as [o st1] eqn:Hnext.
  destruct o as [r| |]; try discriminate; [|simpl in *; congruence].
  apply GetNextFrameOnChannel_left in Hnext.
  destruct (payload _); try discriminate.
  apply IH. lia.
Qed.

Lemma fueled_ReadContent (ch : Z) : fueled (ReadContent ch).
Proof.
  intros st. rewrite ReadContent_steps.
  pose proof (fueled_GetNextFrameOnChannel ch None st) as Hread.
  destruct (GetNextFrameOnChannel ch None st) as [[[frame|]|e|w] st1];
    cbn [fst] in *; try discriminate; [|congruence].
  destruct (payload frame) as [|body_size properties|]; try discriminate.
  destruct (negb (body_size <? SIZE_MAX)); [discriminate|].
  destruct (string_max_size <? body_size); [discriminate|].
  destruct (allocatable st1 <? body_size); [discriminate|].
  pose proof (ReadContent_loop_fueled (S (frames_left st1)) ch body_size
                frame 0 [] st1 ltac:(lia)) as Hloop.
  destruct (ReadContent_loop _ _ _ _ _ _ st1) as [[b|e|w] st2];
    simpl in *; [discriminate.. | congruence].
Qed.

#[local] Hint Resolve fueled_GetMethodOnChannel fueled_ReadContent : fuel.

(** The publish-confirm wait never stops for want of fuel: the bounds of
    the loops are bounds of the code's loops. *)
Lemma fueled_GetAckOnChannel (ch : Z) : fueled (GetAckOnChannel ch).
Proof.
  unfold GetAckOnChannel, CreateMessageReturnedException.
  fueled; intros st H; simpl in H; discriminate H.
Qed.

Lemma fueled_GetChannel : fueled GetChannel.
Proof.
  unfold GetChannel, CreateNewChannel, DoRpcOnChannel, CheckForError.
  assert (forall c i, fueled (amqp_send_method c i))
    by (intros c i st; discriminate).
  assert (fueled GetNextChannelId).
  { intros st. unfold GetNextChannelId.
    destruct (find_index _ _); [discriminate|].
    now destruct (_ <? _). }
  fueled.
Qed.

(** ** A close in the middle of a content *)

(** A channel.close that arrives behind part of a content is not among
    the frames that [ReadContent] reads: the wait for the next frame
    answers it with the close handshake and raises the channel
    exception, which [ReadContent] passes on. *)
Lemma ReadContent_channel_close :
  let st := arriving [body_frame 1 "hel"; method_frame 1 (channel_close 406 [])]
              (set_m_frame_queue [header_frame 1 5 no_properties]
                 (with_channels [new_channel_state CS_Used]
                    (fresh_ChannelImpl 0))) in
  fst (ReadContent 1 st) = Throw (ChannelException 406 []) /\
  slot_availability 1 (snd (ReadContent 1 st)) = Some CS_Closed /\
  sent (m_connection (snd (ReadContent 1 st)))
  = [(1, AMQP_CHANNEL_CLOSE_OK_METHOD)].
Proof. vm_compute. repeat split. Qed.

(** * Further properties of the channel pool *)

Lemma effective_channel_max_range (st : ChannelImpl) :
  negotiated st -> 1 <= effective_channel_max st <= 65535.
Proof.
  unfold negotiated, effective_channel_max.
  destruct (Z.eqb_spec (channel_max (m_connection st)) 0); lia.
Qed.

(** What [GetNextChannelId] does, outcome by outcome. *)
Lemma GetNextChannelId_cases (st : ChannelImpl) :
  negotiated st ->
  Z.of_nat (length (m_channels st)) <= 65536 ->
  match find_index
          (fun state => availability_eqb (availability state) CS_Closed)
          (m_channels st) with
  | Some i => GetNextChannelId st = (Ok (Z.of_nat i), st)
  | None =>
      if effective_channel_max st <? Z.of_nat (length (m_channels st)) then
        GetNextChannelId st
        = (Throw (std_runtime_error "Too many channels open"), st)
      else
        GetNextChannelId st
        = (Ok (Z.of_nat (length (m_channels st))),
           set_m_channels (m_channels st ++ [new_channel_state CS_Closed]) st)
  end.
Proof.
  intros Hmax Hlen. pose proof (effective_channel_max_range st Hmax) as Heff.
  unfold GetNextChannelId.
  destruct (find_index _ (m_channels st)) as [i|] eqn:Hfind.
  - apply find_index_lt in Hfind. now rewrite u16_small by lia.
  - unfold UINT16_MAX. rewrite (Z.eqb_sym 0).
    fold (effective_channel_max st). rewrite u64_small by lia.
    destruct (Z.ltb_spec (effective_channel_max st)
                (Z.of_nat (length (m_channels st)))); [reflexivity|].
    now rewrite u16_small by lia.
Qed.

(** X1. Channel-id allocation keeps the table within the negotiated
    channel-max: from a table with at most channel-max + 1 slots whose
    slot 0 is not Closed, an id that [GetNextChannelId] returns lies
    between 1 and the effective channel-max, its slot exists and is
    Closed afterwards, and the table is still within the bound; the
    table never gets shorter and grows by one slot at most. *)
Theorem GetNextChannelId_within_max (st st' : ChannelImpl) (id : Z)
    (s0 : channel_state_t)
    (Hmax : negotiated st)
    (Hbound : table_bounded st)
    (Hzero : m_channels st !! O = Some s0)
    (Hused : availability s0 <> CS_Closed)
    (Hrun : GetNextChannelId st = (Ok id, st')) :
  1 <= id <= effective_channel_max st' /\
  (exists s, m_channels st' !! Z.to_nat id = Some s /\
             availability s = CS_Closed) /\
  table_bounded st' /\
  (length (m_channels st) <= length (m_channels st')
   <= S (length (m_channels st)))%nat.
Proof.
  pose proof (effective_channel_max_range st Hmax) as Heff.
  unfold table_bounded in *.
  assert (Hlen : Z.of_nat (length (m_channels st)) <= 65536) by lia.
  pose proof (GetNextChannelId_cases st Hmax Hlen) as Hcases.
  destruct (find_index _ (m_channels st)) as [i|] eqn:Hfind.
  - rewrite Hcases in Hrun. injection Hrun as <- <-.
    pose proof (find_index_lt _ _ _ Hfind) as Hi.
    destruct (find_index_Some _ _ _ Hfind) as (s & Hs & Hclosed & _).
    apply availability_eqb_eq in Hclosed.
    assert (i <> O) by (intros ->; congruence).
    rewrite Nat2Z.id. repeat split; try lia. eauto.
  - destruct (Z.ltb_spec (effective_channel_max st)
                (Z.of_nat (length (m_channels st)))) as [Hsat|Hroom];
      rewrite Hcases in Hrun; [discriminate|].
    injection Hrun as <- <-.
    pose proof (lookup_lt_Some _ _ _ Hzero) as Hnonempty.
    unfold effective_channel_max in *. simpl.
    rewrite Nat2Z.id, length_app. simpl. repeat split; try lia.
    exists (new_channel_state CS_Closed). split; [|reflexivity].
    rewrite lookup_app_r by lia. now rewrite Nat.sub_diag.
Qed.

Lemma GetNextChannelId_within_max_witness :
  let st := with_channels [new_channel_state CS_Used; new_channel_state CS_Open]
              (fresh_ChannelImpl 3) in
  exists st',
    GetNextChannelId st = (Ok 3, st') /\
    1 <= 3 <= effective_channel_max st' /\ table_bounded st'.
Proof.
  intros st. eexists. split; [reflexivity|].
  assert (Hmax : negotiated st) by (vm_compute; split; discriminate).
  assert (Hbound : table_bounded st) by (vm_compute; discriminate).
  destruct (GetNextChannelId_within_max st _ 3 (new_channel_state CS_Used)
              Hmax Hbound eq_refl ltac:(discriminate) eq_refl)
    as (Hid & _ & Hb & _).
  split; assumption.
Defined.

Lemma DoRpcOnChannel_Ok (ch method : Z) (expected : list Z)
    (st st' : ChannelImpl) (r : option amqp_frame_t) :
  DoRpcOnChannel ch method expected st = (Ok r, st') -> pool_kept st st'.
Proof.
  unfold DoRpcOnChannel, amqp_send_method, CheckForError.
  cbv beta iota zeta delta [bind ret throw].
  destruct (send_status (m_connection st) <? 0); [discriminate|].
  intros H. apply GetMethodOnChannel_Ok in H. exact H.
Qed.

(** A new channel is the slot that [GetNextChannelId] names, opened. *)
Lemma CreateNewChannel_Ok (st st' : ChannelImpl) (c : Z) :
  CreateNewChannel st = (Ok c, st') ->
  exists st1 st2 s,
    GetNextChannelId st = (Ok c, st1) /\
    pool_kept st1 st2 /\
    m_channels st1 !! Z.to_nat c = Some s /\
    m_channels st'
    = <[Z.to_nat c := set_availability CS_Open s]> (m_channels st1) /\
    m_last_used_channel st' = m_last_used_channel st1.
Proof.
  unfold CreateNewChannel. unfold bind at 1.
  destruct (GetNextChannelId st) as [[id|e|w] st1] eqn:Hid; try discriminate.
  unfold bind at 1.
  destruct (DoRpcOnChannel id AMQP_CHANNEL_OPEN_METHOD _ st1)
    as [[r1|e|w] sta] eqn:Hopen; try discriminate.
  unfold bind at 1.
  destruct (DoRpcOnChannel id AMQP_CONFIRM_SELECT_METHOD _ sta)
    as [[r2|e|w] stb] eqn:Hsel; try discriminate.
  apply DoRpcOnChannel_Ok in Hopen. apply DoRpcOnChannel_Ok in Hsel.
  pose proof (pool_kept_trans _ _ _ Hopen Hsel) as Hkept.
  run. destruct (m_channels stb !! Z.to_nat id) as [s|] eqn:Hs; simpl;
    [|discriminate].
  intros [= <- <-]. exists st1, stb, s. simpl.
  split; [reflexivity|]. split; [exact Hkept|].
  destruct Hkept as (Hch & Hlast & _). rewrite <- Hch. auto.
Qed.

(** X2. The pool never hands out a channel that is in use: the slot of
    the id that [GetChannel] returns was not Used before the call (it was
    Open, Closed or not in the table yet) and is Used after it, and every
    other slot of the table is what it was. *)
Theorem GetChannel_never_issues_used (st st' : ChannelImpl) (c : Z)
    (Hmax : negotiated st)
    (Hlen : Z.of_nat (length (m_channels st)) <= 65536)
    (Hrun : GetChannel st = (Ok c, st')) :
  (forall s, m_channels st !! Z.to_nat c = Some s ->
             availability s <> CS_Used) /\
  (exists s', m_channels st' !! Z.to_nat c = Some s' /\
              availability s' = CS_Used) /\
  (forall i s, i <> Z.to_nat c -> m_channels st !! i = Some s ->
               m_channels st' !! i = Some s).
Proof.
  revert Hrun. unfold GetChannel.
  cbv beta iota zeta delta [bind gets at_].
  destruct (m_channels st !! Z.to_nat (m_last_used_channel st))
    as [s0|] eqn:Hlast; [|discriminate].
  destruct (availability_eqb CS_Open (availability s0)) eqn:Hopen.
  - apply availability_eqb_eq in Hopen. run. intros [= <- <-]. simpl.
    repeat split.
    + intros s Hs. congruence.
    + rewrite list_lookup_alter_eq, Hlast. simpl. eauto.
    + intros i s Hi Hs. now rewrite list_lookup_alter_ne by congruence.
  - destruct (find_index _ (m_channels st)) as [it|] eqn:Hfind.
    + pose proof (find_index_lt _ _ _ Hfind) as Hit.
      destruct (find_index_Some _ _ _ Hfind) as (s & Hs & Hav & _).
      apply availability_eqb_eq in Hav.
      run. rewrite u16_small by lia. intros [= <- <-]. simpl.
      rewrite !Nat2Z.id. repeat split.
      * intros s1 Hs1. congruence.
      * rewrite list_lookup_alter_eq, Hs. simpl. eauto.
      * intros i s1 Hi Hs1. now rewrite list_lookup_alter_ne by congruence.
    + destruct (CreateNewChannel st) as [[id|e|w] st1] eqn:Hnew;
        try discriminate.
      destruct (CreateNewChannel_Ok _ _ _ Hnew)
        as (sta & stb & s & Hid & _ & Hs & Hch & _).
      run. rewrite Hch.
      rewrite list_lookup_insert_eq
        by (apply lookup_lt_Some in Hs; exact Hs).
      simpl. intros [= <- <-]. simpl.
      pose proof (lookup_lt_Some _ _ _ Hs) as Hlt.
      rewrite Hch, list_insert_insert_eq.
      pose proof (GetNextChannelId_cases st Hmax Hlen) as Hcases.
      destruct (find_index
                  (fun state =>
                     availability_eqb (availability state) CS_Closed)
                  (m_channels st)) as [i|] eqn:Hclosed.
      * rewrite Hcases in Hid. injection Hid as <- <-.
        destruct (find_index_Some _ _ _ Hclosed) as (sc & Hsc & Hav & _).
        apply availability_eqb_eq in Hav. rewrite Nat2Z.id in *.
        repeat split.
        -- intros s1 Hs1. congruence.
        -- rewrite list_lookup_insert_eq by assumption. eauto.
        -- intros j s1 Hj Hs1. now rewrite list_lookup_insert_ne by congruence.
      * destruct (effective_channel_max st <? _);
          rewrite Hcases in Hid; [discriminate|].
        injection Hid as <- <-. simpl in *. rewrite Nat2Z.id in *.
        repeat split.
        -- intros s1 Hs1. apply lookup_lt_Some in Hs1. lia.
        -- rewrite list_lookup_insert_eq by assumption. eauto.
        -- intros j s1 Hj Hs1. rewrite list_lookup_insert_ne by congruence.
           rewrite lookup_app_l by (apply lookup_lt_Some in Hs1; exact Hs1).
           exact Hs1.
Qed.

Lemma GetChannel_never_issues_used_witness :
  let st := arriving [method_frame 1 channel_open_ok;
                      method_frame 1 confirm_select_ok]
              (with_channels [set_availability CS_Closed
                                (new_channel_state CS_Used);
                              new_channel_state CS_Used]
                 (fresh_ChannelImpl 0)) in
  exists st',
    GetChannel st = (Ok 1, st') /\
    (exists s', m_channels st' !! Z.to_nat 1 = Some s' /\
                availability s' = CS_Used).
Proof.
  intros st. eexists. split; [reflexivity|].
  assert (Hmax : negotiated st) by (vm_compute; split; discriminate).
  assert (Hlen : Z.of_nat (length (m_channels st)) <= 65536)
    by (vm_compute; discriminate).
  exact (proj1 (proj2 (GetChannel_never_issues_used st _ 1 Hmax Hlen eq_refl))).
Defined.

(** X3. While a slot of the table is Open, [GetChannel] opens no new
    channel: it returns the last-returned channel when that one is Open
    and otherwise the lowest-numbered Open slot, marks that slot Used and
    leaves everything else, the transport and the frame queue included,
    as it was. *)
Theorem GetChannel_reuses_open_slot (st : ChannelImpl) (s0 : channel_state_t)
    (i : nat)
    (Hlen : Z.of_nat (length (m_channels st)) <= 65536)
    (Hlast : m_channels st !! Z.to_nat (m_last_used_channel st) = Some s0)
    (Hopen : find_index
               (fun state => availability_eqb (availability state) CS_Open)
               (m_channels st) = Some i) :
  let c := if availability_eqb CS_Open (availability s0)
           then m_last_used_channel st else Z.of_nat i in
  GetChannel st
  = (Ok c,
     set_m_channels
       (alter (set_availability CS_Used) (Z.to_nat c) (m_channels st)) st) /\
  (exists s, m_channels st !! Z.to_nat c = Some s /\
             availability s = CS_Open) /\
  (availability s0 <> CS_Open ->
   Forall (fun s => availability s <> CS_Open) (take i (m_channels st))).
Proof.
  intros c. subst c. unfold GetChannel.
  cbv beta iota zeta delta [bind gets at_]. rewrite Hlast.
  pose proof (find_index_lt _ _ _ Hopen) as Hi.
  destruct (find_index_Some _ _ _ Hopen) as (s & Hs & Hav & Hbefore).
  apply availability_eqb_eq in Hav.
  destruct (availability_eqb CS_Open (availability s0)) eqn:Hs0.
  - apply availability_eqb_eq in Hs0. run. repeat split; eauto.
    intros Hne. congruence.
  - rewrite Hopen. run. rewrite u16_small by lia. rewrite Nat2Z.id.
    repeat split; eauto.
    intros _. eapply Forall_impl; [exact Hbefore|]. simpl.
    intros x. apply availability_eqb_neq.
Qed.

Lemma GetChannel_reuses_open_slot_witness :
  let st := with_channels [new_channel_state CS_Used;
                           new_channel_state CS_Open;
                           new_channel_state CS_Open]
              (fresh_ChannelImpl 0) in
  GetChannel st
  = (Ok 2,
     set_m_channels
       (alter (set_availability CS_Used) 2%nat (m_channels st)) st).
Proof.
  intros st.
  assert (Hlen : Z.of_nat (length (m_channels st)) <= 65536)
    by (vm_compute; discriminate).
  exact (proj1 (GetChannel_reuses_open_slot st (new_channel_state CS_Used)
                  2%nat Hlen eq_refl eq_refl)).
Defined.

Lemma FinishCloseChannel_table (ch : Z) (s : channel_state_t)
    (st st1 : ChannelImpl) (o : outcome unit) :
  m_channels st !! Z.to_nat ch = Some s ->
  FinishCloseChannel ch st = (o, st1) ->
  m_channels st1
  = <[Z.to_nat ch := set_availability CS_Closed s]> (m_channels st) /\
  channel_max (m_connection st1) = channel_max (m_connection st) /\
  o = (if send_status (m_connection st) <? 0
       then Throw (AmqpLibraryException (send_status (m_connection st)))
       else Ok tt) /\
  sent (m_connection st1)
  = (if send_status (m_connection st) <? 0 then sent (m_connection st)
     else sent (m_connection st) ++ [(ch, AMQP_CHANNEL_CLOSE_OK_METHOD)]).
Proof.
  intros Hs. unfold FinishCloseChannel, amqp_send_method, CheckForError.
  run. rewrite Hs. simpl.
  destruct (send_status (m_connection st) <? 0) eqn:Hsend; simpl;
    rewrite ?Hsend; intros [= <- <-]; simpl; auto.
Qed.

(** X4. A closed channel's id is reusable capacity: once
    [FinishCloseChannel c] has run (whether or not the close-ok could be
    sent), the next [GetNextChannelId] returns the lowest-numbered Closed
    slot, an id not above [c], and leaves the table at its length. *)
Theorem closed_channel_id_is_reused (st st1 : ChannelImpl) (c : Z)
    (s : channel_state_t) (o : outcome unit)
    (Hmax : negotiated st)
    (Hlen : Z.of_nat (length (m_channels st)) <= 65536)
    (Hslot : m_channels st !! Z.to_nat c = Some s)
    (Hclose : FinishCloseChannel c st = (o, st1)) :
  exists id : nat,
    GetNextChannelId st1 = (Ok (Z.of_nat id), st1) /\
    (id <= Z.to_nat c)%nat /\
    (exists s', m_channels st1 !! id = Some s' /\
                availability s' = CS_Closed) /\
    Forall (fun x => availability x <> CS_Closed) (take id (m_channels st1)).
Proof.
  destruct (FinishCloseChannel_table c s st st1 o Hslot Hclose)
    as (Htable & Hcm & _).
  pose proof (lookup_lt_Some _ _ _ Hslot) as Hlt.
  assert (Hmax1 : negotiated st1) by (unfold negotiated; now rewrite Hcm).
  assert (Hlen1 : Z.of_nat (length (m_channels st1)) <= 65536)
    by (rewrite Htable, length_insert; exact Hlen).
  pose proof (GetNextChannelId_cases st1 Hmax1 Hlen1) as Hcases.
  assert (Hc : m_channels st1 !! Z.to_nat c
               = Some (set_availability CS_Closed s))
    by (rewrite Htable; now apply list_lookup_insert_eq).
  destruct (find_index _ (m_channels st1)) as [id|] eqn:Hfind.
  - destruct (find_index_Some _ _ _ Hfind) as (s' & Hs' & Hav & Hbefore).
    apply availability_eqb_eq in Hav.
    exists id. repeat split; eauto.
    + destruct (le_lt_dec id (Z.to_nat c)) as [|Hgt]; [assumption|].
      exfalso. rewrite Forall_forall in Hbefore.
      assert (Hin : set_availability CS_Closed s ∈ take id (m_channels st1)).
      { apply list_elem_of_lookup. exists (Z.to_nat c).
        rewrite lookup_take_lt by lia. exact Hc. }
      specialize (Hbefore _ Hin). discriminate.
    + eapply Forall_impl; [exact Hbefore|]. simpl.
      intros x. apply availability_eqb_neq.
  - exfalso. apply find_index_None in Hfind.
    rewrite Forall_forall in Hfind.
    assert (Hin : set_availability CS_Closed s ∈ m_channels st1).
    { apply list_elem_of_lookup. eauto. }
    specialize (Hfind _ Hin). discriminate.
Qed.

Lemma closed_channel_id_is_reused_witness :
  let st := with_channels [new_channel_state CS_Used;
                           new_channel_state CS_Used;
                           new_channel_state CS_Open]
              (fresh_ChannelImpl 0) in
  exists id : nat,
    GetNextChannelId (snd (FinishCloseChannel 2 st))
    = (Ok (Z.of_nat id), snd (FinishCloseChannel 2 st)) /\
    (id <= Z.to_nat 2)%nat.
Proof.
  intros st.
  assert (Hmax : negotiated st) by (vm_compute; split; discriminate).
  assert (Hlen : Z.of_nat (length (m_channels st)) <= 65536)
    by (vm_compute; discriminate).
  destruct (closed_channel_id_is_reused st (snd (FinishCloseChannel 2 st)) 2
              (new_channel_state CS_Used) (fst (FinishCloseChannel 2 st))
              Hmax Hlen eq_refl eq_refl) as (id & Hrun & Hle & _).
  exists id. split; assumption.
Defined.

(** * Further properties of the close handshakes *)

(** X5. An operation on a channel id outside the table throws
    [std::out_of_range] and changes nothing: returning the channel,
    asking whether it is open, closing it (no close-ok is sent) and
    waiting for its publish confirm (nothing is read). *)
Theorem unknown_channel_out_of_range (st : ChannelImpl) (ch : Z)
    (Hout : Z.of_nat (length (m_channels st)) <= ch) :
  ReturnChannel ch st = (Throw std_out_of_range, st) /\
  IsChannelOpen ch st = (Throw std_out_of_range, st) /\
  FinishCloseChannel ch st = (Throw std_out_of_range, st) /\
  GetAckOnChannel ch st = (Throw std_out_of_range, st).
Proof.
  assert (Hnone : m_channels st !! Z.to_nat ch = None)
    by (apply lookup_ge_None; lia).
  unfold ReturnChannel, IsChannelOpen, FinishCloseChannel, GetAckOnChannel.
  cbv beta iota zeta delta [bind at_ update_channel]. rewrite Hnone.
  auto.
Qed.

Lemma unknown_channel_out_of_range_witness :
  GetAckOnChannel 7 (fresh_ChannelImpl 0)
  = (Throw std_out_of_range, fresh_ChannelImpl 0).
Proof.
  apply (unknown_channel_out_of_range (fresh_ChannelImpl 0) 7).
  vm_compute. discriminate.
Defined.

(** X6. [FinishCloseChannel] marks the slot Closed before it sends the
    close-ok: when the send fails it throws the library exception of the
    failed send, nothing is recorded as sent, and the channel is Closed
    all the same, so that [IsChannelOpen] answers false after either
    outcome; no other slot changes. *)
Theorem FinishCloseChannel_closes_first (st st1 : ChannelImpl) (ch : Z)
    (s : channel_state_t) (o : outcome unit)
    (Hslot : m_channels st !! Z.to_nat ch = Some s)
    (Hclose : FinishCloseChannel ch st = (o, st1)) :
  o = (if send_status (m_connection st) <? 0
       then Throw (AmqpLibraryException (send_status (m_connection st)))
       else Ok tt) /\
  sent (m_connection st1)
  = (if send_status (m_connection st) <? 0 then sent (m_connection st)
     else sent (m_connection st) ++ [(ch, AMQP_CHANNEL_CLOSE_OK_METHOD)]) /\
  IsChannelOpen ch st1 = (Ok false, st1) /\
  (forall i, i <> Z.to_nat ch -> m_channels st1 !! i = m_channels st !! i).
Proof.
  destruct (FinishCloseChannel_table ch s st st1 o Hslot Hclose)
    as (Htable & _ & Ho & Hsent).
  pose proof (lookup_lt_Some _ _ _ Hslot) as Hlt.
  repeat split; try assumption.
  - unfold IsChannelOpen. cbv beta iota zeta delta [bind at_ ret].
    rewrite Htable, list_lookup_insert_eq by assumption. reflexivity.
  - intros i Hi. rewrite Htable. now apply list_lookup_insert_ne.
Qed.

Lemma FinishCloseChannel_closes_first_witness :
  let st := set_m_connection
              {| incoming := []; sent := []; send_status := -9;
                 released := []; channel_max := 0 |}
              (with_channels [new_channel_state CS_Used]
                 (fresh_ChannelImpl 0)) in
  fst (FinishCloseChannel 1 st) = Throw (AmqpLibraryException (-9)) /\
  IsChannelOpen 1 (snd (FinishCloseChannel 1 st))
  = (Ok false, snd (FinishCloseChannel 1 st)).
Proof.
  intros st.
  destruct (FinishCloseChannel_closes_first st (snd (FinishCloseChannel 1 st))
              1 (new_channel_state CS_Used) (fst (FinishCloseChannel 1 st))
              eq_refl eq_refl) as (Ho & _ & Hopen & _).
  split; [exact Ho | exact Hopen].
Defined.

(** X7. [FinishCloseConnection] never throws: whatever the transport
    answers to the close-ok, it returns, the connection is marked not
    connected, so that [CheckIsConnected] throws from then on, and the
    channel table and the frame queue are untouched. *)
Theorem FinishCloseConnection_never_throws (st : ChannelImpl) :
  exists st',
    FinishCloseConnection st = (Ok tt, st') /\
    CheckIsConnected st' = inr ConnectionClosedException /\
    m_channels st' = m_channels st /\
    m_frame_queue st' = m_frame_queue st /\
    sent (m_connection st')
    = (if send_status (m_connection st) <? 0 then sent (m_connection st)
       else sent (m_connection st)
            ++ [(0, AMQP_CONNECTION_CLOSE_OK_METHOD)]).
Proof.
  unfold FinishCloseConnection, amqp_send_method, CheckIsConnected. run.
  eexists. split; [reflexivity|].
  destruct (send_status (m_connection st) <? 0); simpl; auto.
Qed.

(** X8. [CheckRpcReply] returns normally for a normal reply and for no
    other, and then changes nothing.  For a server exception that is a
    channel.close it closes the channel first (slot Closed, close-ok
    sent) and raises the broker's exception, unless the close-ok cannot
    be sent: then the library exception of the failed send is raised in
    its place, the slot being Closed all the same.  For one that is a
    connection.close it marks the connection not connected and raises
    the broker's exception whether or not the close-ok could be sent. *)
Theorem CheckRpcReply_cases
    (CreateException AmqpException_Throw : amqp_rpc_reply_t -> exn)
    (st : ChannelImpl) (ch : Z) (s : channel_state_t)
    (reply : amqp_rpc_reply_t)
    (Hslot : m_channels st !! Z.to_nat ch = Some s) :
  (forall st', CheckRpcReply CreateException AmqpException_Throw ch reply st = (Ok tt, st') <->
               reply_type reply = AMQP_RESPONSE_NORMAL /\ st' = st) /\
  (reply_type reply = AMQP_RESPONSE_SERVER_EXCEPTION ->
   reply_id reply = AMQP_CHANNEL_CLOSE_METHOD ->
   exists st',
     CheckRpcReply CreateException AmqpException_Throw ch reply st
     = (Throw (if send_status (m_connection st) <? 0
               then AmqpLibraryException (send_status (m_connection st))
               else AmqpException_Throw reply), st') /\
     m_channels st'
     = <[Z.to_nat ch := set_availability CS_Closed s]> (m_channels st)) /\
  (reply_type reply = AMQP_RESPONSE_SERVER_EXCEPTION ->
   reply_id reply = AMQP_CONNECTION_CLOSE_METHOD ->
   exists st',
     CheckRpcReply CreateException AmqpException_Throw ch reply st = (Throw (AmqpException_Throw reply), st') /\
     m_is_connected st' = false /\ m_channels st' = m_channels st).
Proof.
  unfold CheckRpcReply. split; [|split].
  - intros st'. split.
    + destruct (reply_type reply); try discriminate.
      * intros [= <-]. auto.
      * unfold bind.
        destruct (reply_id reply =? AMQP_CHANNEL_CLOSE_METHOD);
          [destruct (FinishCloseChannel ch st) as [[[]|e|w] st1];
           discriminate|].
        destruct (reply_id reply =? AMQP_CONNECTION_CLOSE_METHOD);
          [destruct (FinishCloseConnection st) as [[[]|e|w] st1]|];
          discriminate.
    + intros [-> ->]. reflexivity.
  - intros -> ->. simpl. unfold bind.
    destruct (FinishCloseChannel ch st) as [o st1] eqn:Hclose.
    destruct (FinishCloseChannel_table ch s st st1 o Hslot Hclose)
      as (Htable & _ & -> & _).
    exists st1. split; [|exact Htable].
    now destruct (send_status (m_connection st) <? 0).
  - intros -> ->. simpl. unfold bind, FinishCloseConnection, amqp_send_method.
    run. eexists. split; [reflexivity|].
    now destruct (send_status (m_connection st) <? 0).
Qed.

Lemma CheckRpcReply_cases_witness :
  let st := with_channels [new_channel_state CS_Used] (fresh_ChannelImpl 0) in
  let reply := {| reply_type := AMQP_RESPONSE_SERVER_EXCEPTION;
                  reply_id := AMQP_CHANNEL_CLOSE_METHOD;
                  library_error := 0 |} in
  exists st',
    CheckRpcReply (fun _ => std_out_of_range)
      (fun _ => ChannelException 404 []) 1 reply st
    = (Throw (ChannelException 404 []), st') /\
    m_channels st'
    = <[1%nat := set_availability CS_Closed (new_channel_state CS_Used)]>
        (m_channels st).
Proof.
  intros st reply.
  destruct (CheckRpcReply_cases (fun _ => std_out_of_range)
              (fun _ => ChannelException 404 []) st 1
              (new_channel_state CS_Used) reply eq_refl)
    as (_ & Hchannel & _).
  exact (Hchannel eq_refl eq_refl).
Defined.

(** * Further properties of the confirm tracker *)

Lemma insert_alter_same {A : Type} (f : A -> A) (l : list A) (i : nat)
    (x : A) :
  <[i := x]> (alter f i l) = <[i := x]> l.
Proof.
  revert i. induction l as [|y l IH]; intros [|i]; simpl; try reflexivity.
  now rewrite IH.
Qed.

(** X9. A publish-confirm wait that observes a basic.ack with tag [T]
    succeeds whatever [T] is: the last delivery tag becomes the larger of
    the old one and [T], so that a stale or repeated ack (T not above
    the last tag) changes neither the tag nor the banked acks, and the
    channel goes back to the pool: its slot is Open, it is the most
    recently used channel and the buffer release is offered. *)
Theorem GetAckOnChannel_ack_exit (st st1 : ChannelImpl) (ch : Z)
    (s : channel_state_t) (frame_channel T : Z) (multiple : bool)
    (Hslot : m_channels st !! Z.to_nat ch = Some s)
    (Hbank : unconsumed_ack s = 0)
    (Htag : 0 <= last_delivery_tag s)
    (Hu64 : 0 <= T < 2 ^ 64)
    (Hack : GetMethodOnChannel [ch] PUBLISH_ACK None st
            = (Ok (Some {| channel := frame_channel;
                           payload := method_payload (basic_ack T multiple) |}),
               st1)) :
  GetAckOnChannel ch st
  = (Ok tt,
     returned_to_pool ch
       (set_unconsumed_ack (Z.max 0 (T - last_delivery_tag s - 1))
          (set_last_delivery_tag (Z.max (last_delivery_tag s) T) s))
       st1).
Proof.
  destruct (GetMethodOnChannel_Ok _ _ _ _ _ _ Hack) as (Hch & _).
  pose proof (lookup_lt_Some _ _ _ Hslot) as Hlt.
  unfold returned_to_pool.
  unfold GetAckOnChannel, bind at 1, at_ at 1. rewrite Hslot, Hbank.
  change (0 >? 0) with false. cbv iota.
  unfold bind at 1. rewrite Hack. cbv iota beta.
  unfold bind at 1, at_ at 1. rewrite Hch, Hslot.
  destruct (Z.leb_spec T (last_delivery_tag s)) as [Hstale|Hfresh].
  - run. rewrite (ReturnChannel_Ok ch st1 s) by congruence.
    rewrite MaybeReleaseBuffersOnChannel_Ok.
    rewrite Z.max_l, Z.max_l by lia. rewrite Hch.
    destruct s; simpl in *; subst; reflexivity.
  - rewrite (u64_small (T - last_delivery_tag s)) by lia.
    rewrite Z.max_r, (Z.max_r (last_delivery_tag s)) by lia.
    destruct (Z.gtb_spec (T - last_delivery_tag s) 1) as [Hgt|Hle].
    + run. rewrite Hch. rewrite u64_small by lia.
      erewrite ReturnChannel_Ok
        by (simpl; rewrite !list_lookup_alter_eq, Hslot; reflexivity).
      rewrite MaybeReleaseBuffersOnChannel_Ok. simpl.
      rewrite !insert_alter_same, <- Hch.
      reflexivity.
    + run. rewrite Hch.
      erewrite ReturnChannel_Ok
        by (simpl; rewrite !list_lookup_alter_eq, Hslot; reflexivity).
      rewrite MaybeReleaseBuffersOnChannel_Ok. simpl.
      rewrite !insert_alter_same, <- Hch.
      replace (T - last_delivery_tag s - 1) with (unconsumed_ack s) by lia.
      destruct s; reflexivity.
Qed.

Lemma GetAckOnChannel_ack_exit_witness :
  let s := set_last_delivery_tag 5 (new_channel_state CS_Used) in
  let st := arriving [method_frame 1 (basic_ack 3 false)]
              (with_channels [s] (fresh_ChannelImpl 0)) in
  GetAckOnChannel 1 st
  = (Ok tt,
     returned_to_pool 1 s (snd (GetMethodOnChannel [1] PUBLISH_ACK None st))).
Proof.
  intros s st.
  refine (GetAckOnChannel_ack_exit st _ 1 s 1 3 false eq_refl eq_refl _ _
            eq_refl).
  - simpl. lia.
  - split; [lia | reflexivity].
Defined.

(** X10. A publish-confirm wait that observes a basic.return ends, once
    the content and the following basic.ack are read, with the channel
    back in the pool and its slot otherwise as before the wait: slot
    Open, most recently used, buffer release offered, and the
    returned-message failure raised. *)
Theorem GetAckOnChannel_return_exit (st st1 st2 st3 : ChannelImpl) (ch : Z)
    (s : channel_state_t) (frame_channel reply_code : Z)
    (reply_text exchange routing_key : bytes) (content : BasicMessage)
    (ack : option amqp_frame_t)
    (Hslot : m_channels st !! Z.to_nat ch = Some s)
    (Hbank : unconsumed_ack s = 0)
    (Hreturn : GetMethodOnChannel [ch] PUBLISH_ACK None st
               = (Ok (Some {| channel := frame_channel;
                              payload :=
                                method_payload
                                  (basic_return reply_code reply_text
                                     exchange routing_key) |}),
                  st1))
    (Hcontent : ReadContent ch st1 = (Ok content, st2))
    (Hack : GetMethodOnChannel [ch] BASIC_ACK None st2 = (Ok ack, st3)) :
  GetAckOnChannel ch st
  = (Throw (MessageReturnedException content reply_code reply_text exchange
              routing_key),
     returned_to_pool ch s st3).
Proof.
  destruct (GetMethodOnChannel_Ok _ _ _ _ _ _ Hreturn) as (Hch1 & _).
  destruct (ReadContent_Ok _ _ _ _ Hcontent) as (Hch2 & _).
  destruct (GetMethodOnChannel_Ok _ _ _ _ _ _ Hack) as (Hch3 & _).
  assert (Hslot3 : m_channels st3 !! Z.to_nat ch = Some s) by congruence.
  unfold GetAckOnChannel, bind at 1, at_ at 1. rewrite Hslot, Hbank.
  change (0 >? 0) with false. cbv iota.
  unfold bind at 1. rewrite Hreturn. cbv iota beta.
  unfold CreateMessageReturnedException.
  unfold bind at 1, bind at 1. rewrite Hcontent. unfold ret at 1.
  unfold bind at 1. rewrite Hack.
  unfold bind at 1. rewrite (ReturnChannel_Ok _ _ _ Hslot3).
  unfold bind at 1. rewrite MaybeReleaseBuffersOnChannel_Ok.
  reflexivity.
Qed.

Lemma GetAckOnChannel_return_exit_witness :
  let st := arriving [method_frame 1 (basic_return 312 [] [] []);
                      header_frame 1 2 no_properties; body_frame 1 "hi";
                      method_frame 1 (basic_ack 7 false)]
              (with_channels [new_channel_state CS_Used] (fresh_ChannelImpl 0)) in
  exists m st3,
    GetAckOnChannel 1 st
    = (Throw (MessageReturnedException m 312 [] [] []),
       returned_to_pool 1 (new_channel_state CS_Used) st3).
Proof.
  intros st.
  set (st1 := snd (GetMethodOnChannel [1] PUBLISH_ACK None st)).
  set (st2 := snd (ReadContent 1 st1)).
  set (st3 := snd (GetMethodOnChannel [1] BASIC_ACK None st2)).
  eexists. exists st3.
  exact (GetAckOnChannel_return_exit st st1 st2 st3 1
           (new_channel_state CS_Used) 1 312 [] [] [] _ _
           eq_refl eq_refl eq_refl eq_refl eq_refl).
Defined.

(** * Further properties of the frame queue *)

Lemma find_erase_others {A : Type} (p : A -> bool) (l l' : list A) (x : A) :
  find_erase p l = Some (x, l') ->
  List.filter (fun y => negb (p y)) l' = List.filter (fun y => negb (p y)) l.
Proof.
  revert l'. induction l as [|y l IH]; simpl; intros l' H; [discriminate|].
  destruct (p y) eqn:Hy; simpl.
  - now injection H as <- <-.
  - destruct (find_erase p l) as [[z r]|]; [|discriminate].
    injection H as <- <-. simpl. rewrite Hy. simpl. f_equal. now apply IH.
Qed.

Lemma filter_none_others {A : Type} (p : A -> bool) (l : list A) :
  List.filter p l = [] -> List.filter (fun y => negb (p y)) l = l.
Proof.
  induction l as [|y l IH]; simpl; [reflexivity|].
  destruct (p y); simpl; [discriminate|]. intros H. f_equal. now apply IH.
Qed.

(** X11. The frame queue is first-in first-out per channel: successive
    [GetNextFrameOnChannel] calls for a channel hand out the queued
    frames of that channel in their queue order without reading from the
    transport, and leave the queued frames of all other channels in
    place and in order (no queued frame of the channel being a
    channel.close, which would end the run with the close handshake). *)
Theorem frame_queue_is_fifo_per_channel (st : ChannelImpl) (ch : Z)
    (Hclean : Forall (fun f => is_channel_close f = false)
                (on_channel ch (m_frame_queue st))) :
  reads ch st (on_channel ch (m_frame_queue st))
    (set_m_frame_queue (off_channel ch (m_frame_queue st)) st).
Proof.
  remember (on_channel ch (m_frame_queue st)) as fs eqn:Hon.
  symmetry in Hon. revert st Hon Hclean.
  induction fs as [|f fs IH]; intros st Hon Hclean.
  - unfold off_channel. rewrite filter_none_others by exact Hon.
    replace (set_m_frame_queue (m_frame_queue st) st) with st
      by (now destruct st).
    constructor.
  - pose proof (find_erase_filter (fun frame => is_on_channel frame ch)
                  (m_frame_queue st)) as Hfe.
    pose proof (find_erase_others (fun frame => is_on_channel frame ch)
                  (m_frame_queue st)) as Hothers.
    fold (on_channel ch (m_frame_queue st)) in Hfe. rewrite Hon in Hfe.
    destruct (find_erase _ (m_frame_queue st)) as [[x q]|] eqn:Hfind;
      [|discriminate].
    destruct Hfe as [[= <- Hrest] _]. specialize (Hothers _ _ eq_refl).
    pose proof (Forall_inv Hclean) as Hf.
    pose proof (Forall_inv_tail Hclean) as Hfs.
    apply reads_cons with (st1 := set_m_frame_queue q st).
    + unfold GetNextFrameOnChannel. rewrite Hfind.
      unfold is_channel_close in Hf.
      now destruct (payload f) as [[]| |].
    + specialize (IH (set_m_frame_queue q st) (eq_sym Hrest) Hfs).
      simpl in IH. unfold off_channel in *. rewrite Hothers in IH.
      exact IH.
Qed.

Lemma frame_queue_is_fifo_per_channel_witness :
  let st := arriving [body_frame 1 "never read"]
              (set_m_frame_queue
                 [body_frame 1 "a"; body_frame 2 "x"; body_frame 1 "b";
                  method_frame 2 (basic_ack 1 false); body_frame 1 "c"]
                 (fresh_ChannelImpl 0)) in
  reads 1 st [body_frame 1 "a"; body_frame 1 "b"; body_frame 1 "c"]
    (set_m_frame_queue [body_frame 2 "x"; method_frame 2 (basic_ack 1 false)]
       st).
Proof.
  intros st. apply (frame_queue_is_fifo_per_channel st 1).
  repeat constructor.
Defined.

(** X12. Whether a delivery is complete on a channel depends on the
    frames of that channel only: two queues that hold the same frames
    of the channel in the same order, however the frames of other
    channels are interleaved with them, get the same answer (true,
    false or the protocol error) from
    [CheckForQueuedMessageOnChannel]. *)
Theorem detection_ignores_other_channels (st1 st2 : ChannelImpl) (ch : Z)
    (Hfit1 : queued_bytes (m_frame_queue st1) < 2 ^ 64)
    (Hfit2 : queued_bytes (m_frame_queue st2) < 2 ^ 64)
    (Hsame : on_channel ch (m_frame_queue st1)
             = on_channel ch (m_frame_queue st2)) :
  fst (CheckForQueuedMessageOnChannel ch st1)
  = fst (CheckForQueuedMessageOnChannel ch st2).
Proof.
  rewrite !CheckForQueuedMessageOnChannel_detect by assumption.
  simpl. now rewrite Hsame.
Qed.

Lemma detection_ignores_other_channels_witness :
  let q1 := [method_frame 1 (basic_deliver [] 1 false [] []);
             header_frame 1 2 no_properties; body_frame 1 "hi"] in
  let q2 := [body_frame 2 "x"; method_frame 1 (basic_deliver [] 1 false [] []);
             method_frame 3 (basic_ack 1 false);
             header_frame 1 2 no_properties; body_frame 2 "y";
             body_frame 1 "hi"] in
  fst (CheckForQueuedMessageOnChannel 1
         (set_m_frame_queue q1 (fresh_ChannelImpl 0)))
  = fst (CheckForQueuedMessageOnChannel 1
           (set_m_frame_queue q2 (fresh_ChannelImpl 0))).
Proof.
  intros q1 q2.
  apply detection_ignores_other_channels; vm_compute; reflexivity.
Defined.

(** * Further properties of content reassembly *)

Lemma u64_le (x : Z) : 0 <= x -> 0 <= u64 x <= x.
Proof.
  intros H. unfold u64, wrap. split.
  - apply Z.mod_pos_bound. lia.
  - apply Z.mod_le; lia.
Qed.

Lemma u64_add_len (body fragment : bytes) :
  u64 (u64 (len body) + len fragment) = u64 (len (body ++ fragment)).
Proof.
  unfold u64, wrap, len. rewrite length_app, Nat2Z.inj_add.
  now rewrite Z.add_mod_idemp_l by lia.
Qed.

Lemma ReadContent_loop_covers (fuel : nat) (ch body_size : Z) :
  forall (frame : amqp_frame_t) (received : Z) (body b : bytes)
         (st st' : ChannelImpl),
    received = u64 (len body) ->
    ReadContent_loop fuel ch frame body_size received body st = (Ok b, st') ->
    body_size <= len b /\
    (exists rest, b = body ++ rest) /\
    (body_size <= received -> b = body /\ st' = st).
Proof.
  induction fuel as [|fuel IH]; intros frame received body b st st' Hinv;
    cbn [ReadContent_loop]; destruct (received <? body_size) eqn:Hlt;
    try discriminate.
  - intros [= <- <-]. apply Z.ltb_ge in Hlt.
    pose proof (u64_le (len body) ltac:(unfold len; lia)).
    split; [lia|]. split; [exists []; now rewrite app_nil_r|auto].
  - unfold bind at 1.
    destruct (GetNextFrameOnChannel ch None st) as [o st1].
    destruct o as [r| |]; try discriminate.
    destruct (payload match r with Some f => f | None => frame end)
      as [| |fragment]; try discriminate.
    intros Hloop. apply IH in Hloop; [|now rewrite Hinv, u64_add_len].
    destruct Hloop as (Hsize & [rest ->] & _). apply Z.ltb_lt in Hlt.
    split; [exact Hsize|]. split; [|lia].
    exists (fragment ++ rest). now rewrite app_assoc.
  - intros [= <- <-]. apply Z.ltb_ge in Hlt.
    pose proof (u64_le (len body) ltac:(unfold len; lia)).
    split; [lia|]. split; [exists []; now rewrite app_nil_r|auto].
Qed.

(** X13. A content that [ReadContent] returns is never shorter than the
    body size its header declares: fragments are appended whole, so the
    body may overshoot the declared size but is not cut to it; the
    message carries the header's properties; and a header declaring
    size 0 is answered with an empty body without reading a further
    frame. *)
Theorem ReadContent_body_covers_size (ch : Z) (st st' : ChannelImpl)
    (m : BasicMessage)
    (Hread : ReadContent ch st = (Ok m, st')) :
  exists (header : amqp_frame_t) (st1 : ChannelImpl) (body_size : Z)
         (props : amqp_basic_properties_t),
    GetNextFrameOnChannel ch None st = (Ok (Some header), st1) /\
    payload header = properties_payload body_size props /\
    m = SetMessageProperties (set_Body (Body m) BasicMessage_Create) props /\
    body_size <= len (Body m) /\
    (body_size <= 0 -> Body m = [] /\ st' = st1).
Proof.
  revert Hread. rewrite ReadContent_steps.
  destruct (GetNextFrameOnChannel ch None st) as [o st1] eqn:Hnext.
  destruct o as [[frame|]| |]; try discriminate.
  destruct (payload frame) as [|body_size props|] eqn:Hpayload;
    try discriminate.
  destruct (negb (body_size <? SIZE_MAX)); [discriminate|].
  destruct (string_max_size <? body_size); [discriminate|].
  destruct (allocatable st1 <? body_size); [discriminate|].
  destruct (ReadContent_loop _ _ _ _ _ _ st1) as [o st2] eqn:Hloop.
  destruct o as [b| |]; try discriminate.
  apply ReadContent_loop_covers in Hloop; [|reflexivity].
  destruct Hloop as (Hsize & _ & Hzero).
  intros [= <- <-]. exists frame, st1, body_size, props.
  split; [reflexivity|]. split; [exact Hpayload|].
  split; [reflexivity|]. split; [exact Hsize|exact Hzero].
Qed.

Lemma ReadContent_body_covers_size_witness :
  let st := set_m_frame_queue
              [header_frame 1 4 no_properties; body_frame 1 "hel";
               body_frame 1 "lo"] (fresh_ChannelImpl 0) in
  exists (header : amqp_frame_t) (st1 : ChannelImpl) (body_size : Z)
         (props : amqp_basic_properties_t),
    GetNextFrameOnChannel 1 None st = (Ok (Some header), st1) /\
    payload header = properties_payload body_size props /\
    fst (ReadContent 1 st)
    = Ok (SetMessageProperties
            (set_Body (String.list_byte_of_string "hello")
               BasicMessage_Create) props) /\
    body_size = 4 /\
    body_size <= len (String.list_byte_of_string "hello").
Proof.
  intros st.
  destruct (ReadContent_body_covers_size 1 st (snd (ReadContent 1 st))
              (SetMessageProperties
                 (set_Body (String.list_byte_of_string "hello")
                    BasicMessage_Create) no_properties) eq_refl)
    as (header & st1 & body_size & props & Hnext & Hpayload & _ & Hsize & _).
  exists header, st1, body_size, props.
  injection Hnext as <- <-. injection Hpayload as <- <-.
  repeat split. exact Hsize.
Defined.

(** * Further properties of the broker version *)

Lemma splitVersion_from_cur (version : bytes) :
  forall cur : bytes,
    splitVersion_from cur version
    = match splitVersion_from [] version with
      | c :: rest => (cur ++ c) :: rest
      | [] => [cur]
      end.
Proof.
  induction version as [|c version IH]; intros cur; simpl.
  - now rewrite app_nil_r.
  - destruct (Byte.eqb c "."%byte).
    + now rewrite app_nil_r.
    + rewrite (IH (cur ++ [c])), (IH [c]).
      destruct (splitVersion_from [] version); [reflexivity|].
      now rewrite <- app_assoc.
Qed.

Lemma splitVersion_cons (c : Byte.byte) (version : bytes) :
  splitVersion (c :: version)
  = if Byte.eqb c "."%byte then [] :: splitVersion version
    else match splitVersion version with
         | first :: rest => (c :: first) :: rest
         | [] => [[c]]
         end.
Proof.
  unfold splitVersion. simpl. destruct (Byte.eqb c "."%byte); [reflexivity|].
  now rewrite splitVersion_from_cur.
Qed.

Lemma splitVersion_nonempty (version : bytes) : splitVersion version <> [].
Proof.
  destruct version as [|c version]; [discriminate|].
  rewrite splitVersion_cons.
  destruct (Byte.eqb c "."%byte); [discriminate|].
  now destruct (splitVersion version).
Qed.

(** X14. [splitVersion] cuts a string at its dots and loses nothing:
    the components joined with a dot between each two give the string
    back, no component holds a dot, and there is one component more than
    there are dots (so an empty string gives one empty component, and a
    trailing dot an empty last one). *)
Theorem splitVersion_round_trip (version : bytes) :
  join_version (splitVersion version) = version /\
  Forall (fun c => ~ In "."%byte c) (splitVersion version) /\
  length (splitVersion version) = S (dots version).
Proof.
  induction version as [|c version [Hjoin [Hfree Hlen]]].
  - repeat split. repeat constructor. intros [].
  - rewrite splitVersion_cons. unfold dots in *. simpl.
    pose proof (splitVersion_nonempty version) as Hne.
    destruct (Byte.eqb c "."%byte) eqn:Hc.
    + apply Byte.byte_dec_bl in Hc. subst c. simpl.
      destruct (splitVersion version) as [|first rest]; [contradiction|].
      rewrite Hjoin. repeat split; auto.
    + apply Byte.eqb_false in Hc.
      destruct (splitVersion version) as [|first rest]; [contradiction|].
      pose proof (Forall_inv Hfree) as Hfirst.
      pose proof (Forall_inv_tail Hfree) as Hrest.
      repeat split.
      * simpl in *. destruct rest; now rewrite <- Hjoin.
      * constructor; [|exact Hrest]. intros [Heq|Hin]; [congruence|auto].
      * exact Hlen.
Qed.

Lemma testbit_low_byte (x n : Z) :
  0 <= n -> Z.testbit (Z.land x 0xFF) n = Z.testbit x n && (n <? 8).
Proof.
  intros Hn. change 0xFF with (Z.ones 8).
  now rewrite Z.land_spec, Z.testbit_ones_nonneg by lia.
Qed.

Lemma testbit_packed_version (major minor patch n : Z) :
  0 <= n ->
  Z.testbit (packed_version major minor patch) n
  = if n <? 8 then Z.testbit patch n
    else if n <? 16 then Z.testbit minor (n - 8)
    else if n <? 24 then Z.testbit major (n - 16)
    else false.
Proof.
  intros Hn. unfold packed_version.
  rewrite !Z.lor_spec, !Z.shiftl_spec by lia.
  destruct (Z.ltb_spec n 8); [|destruct (Z.ltb_spec n 16);
                                [|destruct (Z.ltb_spec n 24)]].
  - rewrite (Z.testbit_neg_r _ (n - 16)), (Z.testbit_neg_r _ (n - 8)) by lia.
    rewrite testbit_low_byte by lia.
    destruct (Z.ltb_spec n 8); [|lia]. simpl. now rewrite andb_true_r.
  - rewrite (Z.testbit_neg_r _ (n - 16)) by lia.
    rewrite !testbit_low_byte by lia.
    destruct (Z.ltb_spec n 8); [lia|].
    destruct (Z.ltb_spec (n - 8) 8); [|lia].
    now rewrite !andb_true_r, !andb_false_r, orb_false_r.
  - rewrite !testbit_low_byte by lia.
    destruct (Z.ltb_spec n 8); [lia|].
    destruct (Z.ltb_spec (n - 8) 8); [lia|].
    destruct (Z.ltb_spec (n - 16) 8); [|lia].
    now rewrite !andb_true_r, !andb_false_r, !orb_false_r.
  - rewrite !testbit_low_byte by lia.
    destruct (Z.ltb_spec n 8); [lia|].
    destruct (Z.ltb_spec (n - 8) 8); [lia|].
    destruct (Z.ltb_spec (n - 16) 8); [lia|].
    now rewrite !andb_false_r.
Qed.

(** X15. The broker version is packed one byte per component: when the
    version entry splits into three components with the numbers
    [major], [minor] and [patch] in front, [ComputeBrokerVersion]
    returns a value below 2^24 whose bytes, from the top, are the three
    numbers modulo 256, so a component above 255 is cut to its low
    eight bits and not rejected. *)
Theorem ComputeBrokerVersion_packs_low_bytes
    (properties : list (bytes * bytes)) (entry : bytes * bytes)
    (after : list (bytes * bytes)) (c0 c1 c2 : bytes)
    (major minor patch : Z)
    (Hentry : find_if (fun entry => bytesEqual (fst entry) version_key)
                properties = Some (entry, after))
    (Hsplit : splitVersion (snd entry) = [c0; c1; c2])
    (Hmajor : stoul c0 = Ok major)
    (Hminor : stoul c1 = Ok minor)
    (Hpatch : stoul c2 = Ok patch) :
  exists v : Z,
    ComputeBrokerVersion properties = Ok v /\
    0 <= v < 2 ^ 24 /\
    Z.shiftr v 16 = major mod 256 /\
    Z.land (Z.shiftr v 8) 0xFF = minor mod 256 /\
    Z.land v 0xFF = patch mod 256.
Proof.
  exists (packed_version major minor patch).
  pose proof (ComputeBrokerVersion_cases properties) as Hcases.
  rewrite Hentry, Hsplit in Hcases.
  split; [now apply Hcases|].
  assert (Hbits : packed_version major minor patch
                  = Z.land (packed_version major minor patch) (Z.ones 24)).
  { apply Z.bits_inj'. intros n Hn.
    rewrite Z.land_spec, Z.testbit_ones_nonneg, testbit_packed_version by lia.
    destruct (n <? 8) eqn:H8; [apply Z.ltb_lt in H8|].
    - destruct (Z.ltb_spec n 24); [|lia]. now rewrite andb_true_r.
    - destruct (n <? 16) eqn:H16; [apply Z.ltb_lt in H16|].
      + destruct (Z.ltb_spec n 24); [|lia]. now rewrite andb_true_r.
      + destruct (n <? 24); [now rewrite andb_true_r|reflexivity]. }
  split; [|split; [|split]].
  - rewrite Hbits, Z.land_ones by lia. apply Z.mod_pos_bound. lia.
  - change 256 with (2 ^ 8). rewrite <- Z.land_ones by lia.
    apply Z.bits_inj'. intros n Hn.
    rewrite Z.shiftr_spec, testbit_packed_version by lia.
    change (Z.ones 8) with 0xFF. rewrite testbit_low_byte by lia.
    destruct (Z.ltb_spec (n + 16) 8); [lia|].
    destruct (Z.ltb_spec (n + 16) 16); [lia|].
    replace (n + 16 - 16) with n by lia.
    destruct (Z.ltb_spec (n + 16) 24); destruct (Z.ltb_spec n 8);
      try lia; now rewrite ?andb_true_r, ?andb_false_r.
  - change 256 with (2 ^ 8). rewrite <- Z.land_ones by lia.
    change (Z.ones 8) with 0xFF.
    apply Z.bits_inj'. intros n Hn.
    rewrite !testbit_low_byte, Z.shiftr_spec, testbit_packed_version by lia.
    destruct (Z.ltb_spec n 8); [|now rewrite !andb_false_r].
    destruct (Z.ltb_spec (n + 8) 8); [lia|].
    destruct (Z.ltb_spec (n + 8) 16); [|lia].
    now replace (n + 8 - 8) with n by lia.
  - change 256 with (2 ^ 8). rewrite <- Z.land_ones by lia.
    change (Z.ones 8) with 0xFF.
    apply Z.bits_inj'. intros n Hn.
    rewrite !testbit_low_byte, testbit_packed_version by lia.
    now destruct (Z.ltb_spec n 8); [|rewrite !andb_false_r].
Qed.

Lemma ComputeBrokerVersion_packs_low_bytes_witness :
  exists v : Z,
    ComputeBrokerVersion (properties_with_version "3.300.1") = Ok v /\
    0 <= v < 2 ^ 24 /\
    Z.shiftr v 16 = 3 /\
    Z.land (Z.shiftr v 8) 0xFF = 44 /\
    Z.land v 0xFF = 1.
Proof.
  exact (ComputeBrokerVersion_packs_low_bytes
           (properties_with_version "3.300.1")
           (version_key, String.list_byte_of_string "3.300.1") []
           (String.list_byte_of_string "3")
           (String.list_byte_of_string "300")
           (String.list_byte_of_string "1")
           3 300 1 eq_refl eq_refl eq_refl eq_refl eq_refl).
Defined.

(** * Properties of the consumer registry *)

Lemma tag_compare_refl (k : string) : tag_compare k k = Eq.
Proof.
  unfold tag_compare.
  destruct (OrdersEx.String_as_OT.compare_spec k k) as [_|H|H];
    [reflexivity| |];
    now apply (StrictOrder_Irreflexive
                 (R := OrdersEx.String_as_OT.lt)) in H.
Qed.

Lemma tag_compare_eq (k k' : string) : tag_compare k k' = Eq -> k = k'.
Proof.
  unfold tag_compare.
  destruct (OrdersEx.String_as_OT.compare_spec k k') as [H|_|_];
    [intros _; exact H|discriminate|discriminate].
Qed.

Lemma tag_compare_trans (a b c : string) :
  tag_compare a b = Lt -> tag_compare b c = Lt -> tag_compare a c = Lt.
Proof.
  exact (StrictOrder_Transitive (R := OrdersEx.String_as_OT.lt) a b c).
Qed.

Lemma tag_compare_gt (k k' : string) :
  tag_compare k k' = Gt -> tag_compare k' k = Lt.
Proof.
  unfold tag_compare.
  destruct (OrdersEx.String_as_OT.compare_spec k k') as [_|_|H];
    [discriminate|discriminate|intros _; exact H].
Qed.

Lemma map_find_above (key : string) (m : consumer_map_t) :
  Forall (fun entry => tag_compare key (fst entry) = Lt) m ->
  map_find key m = None.
Proof.
  destruct m as [|[k v] m]; [reflexivity|].
  intros H. apply Forall_inv in H. simpl in *. now rewrite H.
Qed.

Lemma above_trans (a b : string) (m : consumer_map_t) :
  tag_compare a b = Lt ->
  Forall (fun entry => tag_compare b (fst entry) = Lt) m ->
  Forall (fun entry => tag_compare a (fst entry) = Lt) m.
Proof.
  intros Hab H. eapply List.Forall_impl; [|exact H].
  intros entry. now apply tag_compare_trans.
Qed.

Lemma map_find_In (key : string) (ch : Z) (m : consumer_map_t) :
  map_find key m = Some ch -> In (key, ch) m.
Proof.
  induction m as [|[k v] m IH]; simpl; [discriminate|].
  destruct (tag_compare key k) eqn:Hc; [|discriminate|auto].
  apply tag_compare_eq in Hc. intros [= ->]. left. now subst.
Qed.

Lemma map_insert_Forall (P : string * Z -> Prop) (key : string) (value : Z)
    (m : consumer_map_t) :
  P (key, value) -> Forall P m -> Forall P (map_insert key value m).
Proof.
  intros Hnew. induction m as [|[k v] m IH]; simpl; intros Hm.
  - now constructor.
  - destruct (tag_compare key k); [exact Hm|now constructor|].
    constructor; [exact (Forall_inv Hm)|].
    apply IH. exact (Forall_inv_tail Hm).
Qed.

Lemma map_erase_Forall (P : string * Z -> Prop) (key : string)
    (m : consumer_map_t) :
  Forall P m -> Forall P (map_erase key m).
Proof.
  induction m as [|[k v] m IH]; simpl; intros Hm; [exact Hm|].
  destruct (tag_compare key k); [exact (Forall_inv_tail Hm)|exact Hm|].
  constructor; [exact (Forall_inv Hm)|].
  apply IH. exact (Forall_inv_tail Hm).
Qed.

Lemma ordered_map_insert (key : string) (value : Z) (m : consumer_map_t) :
  ordered m -> ordered (map_insert key value m).
Proof.
  induction m as [|[k v] m IH]; simpl.
  - intros _. split; [constructor|exact I].
  - intros [Habove Hm]. destruct (tag_compare key k) eqn:Hc; simpl.
    + auto.
    + split; [|auto]. constructor; [exact Hc|].
      now apply above_trans with k.
    + split; [|auto]. apply map_insert_Forall; [|exact Habove].
      now apply tag_compare_gt.
Qed.

Lemma ordered_map_erase (key : string) (m : consumer_map_t) :
  ordered m -> ordered (map_erase key m).
Proof.
  induction m as [|[k v] m IH]; simpl; [auto|].
  intros [Habove Hm]. destruct (tag_compare key k); simpl; auto.
  split; [|auto]. now apply map_erase_Forall.
Qed.

Lemma registry_ordered (m : consumer_map_t) : registry m -> ordered m.
Proof.
  induction 1 as [|tag ch m _ IH|tag m _ IH].
  - exact I.
  - now apply ordered_map_insert.
  - unfold RemoveConsumer. destruct (map_find tag m); simpl; [|exact IH].
    now apply ordered_map_erase.
Qed.

Lemma map_find_insert_same (key : string) (value : Z) (m : consumer_map_t) :
  map_find key (map_insert key value m)
  = Some (match map_find key m with Some old => old | None => value end).
Proof.
  induction m as [|[k v] m IH]; simpl.
  - now rewrite tag_compare_refl.
  - destruct (tag_compare key k) eqn:Hc; simpl.
    + now rewrite Hc.
    + now rewrite tag_compare_refl.
    + now rewrite Hc.
Qed.

Lemma map_find_insert_other (key other : string) (value : Z)
    (m : consumer_map_t) :
  other <> key ->
  map_find other (map_insert key value m) = map_find other m.
Proof.
  intros Hne. induction m as [|[k v] m IH]; simpl.
  - destruct (tag_compare other key) eqn:Hc; try reflexivity.
    now apply tag_compare_eq in Hc.
  - destruct (tag_compare key k) eqn:Hc; simpl; [reflexivity| |].
    + destruct (tag_compare other key) eqn:Ho.
      * now apply tag_compare_eq in Ho.
      * now rewrite (tag_compare_trans _ _ _ Ho Hc).
      * reflexivity.
    + now destruct (tag_compare other k).
Qed.

Lemma map_find_erase_same (key : string) (m : consumer_map_t) :
  ordered m -> map_find key (map_erase key m) = None.
Proof.
  induction m as [|[k v] m IH]; simpl; [reflexivity|].
  intros [Habove Hm]. destruct (tag_compare key k) eqn:Hc; simpl.
  - apply tag_compare_eq in Hc. subst k. now apply map_find_above.
  - now rewrite Hc.
  - rewrite Hc. auto.
Qed.

Lemma map_find_erase_other (key other : string) (m : consumer_map_t) :
  ordered m -> other <> key ->
  map_find other (map_erase key m) = map_find other m.
Proof.
  intros Hm Hne. induction m as [|[k v] m IH]; simpl; [reflexivity|].
  destruct Hm as [Habove Hm]. destruct (tag_compare key k) eqn:Hc; simpl.
  - apply tag_compare_eq in Hc. subst k.
    destruct (tag_compare other key) eqn:Ho.
    + now apply tag_compare_eq in Ho.
    + apply map_find_above. now apply above_trans with key.
    + reflexivity.
  - reflexivity.
  - destruct (tag_compare other k); auto.
Qed.

Lemma map_erase_length (key : string) (ch : Z) (m : consumer_map_t) :
  map_find key m = Some ch -> length m = S (length (map_erase key m)).
Proof.
  induction m as [|[k v] m IH]; simpl; [discriminate|].
  destruct (tag_compare key k); simpl; [reflexivity|discriminate|].
  intros H. now rewrite IH.
Qed.

(** X16. Registering a consumer never replaces an entry: after
    [AddConsumer tag ch] the tag resolves to the channel it already had,
    if it was registered, and to [ch] otherwise; every other tag
    resolves as before. *)
Theorem AddConsumer_keeps_first (m : consumer_map_t) (tag : string)
    (ch : Z) :
  GetConsumerChannel tag (AddConsumer tag ch m)
  = inl (match GetConsumerChannel tag m with
         | inl old => old
         | inr _ => ch
         end) /\
  (forall other, other <> tag ->
     GetConsumerChannel other (AddConsumer tag ch m)
     = GetConsumerChannel other m).
Proof.
  unfold GetConsumerChannel, AddConsumer. split.
  - rewrite map_find_insert_same. now destruct (map_find tag m).
  - intros other Hne. now rewrite map_find_insert_other.
Qed.

(** X17. Removing a consumer: for a registered tag [RemoveConsumer]
    returns the channel that [GetConsumerChannel] gives and takes that
    one entry out, so the tag is unknown afterwards and every other tag
    resolves as before; for an unknown tag it throws
    [ConsumerTagNotFoundException] and leaves the registry as it was. *)
Theorem RemoveConsumer_removes_one (m : consumer_map_t) (tag : string)
    (Hreg : registry m) :
  match GetConsumerChannel tag m with
  | inl ch =>
      exists m',
        RemoveConsumer tag m = (inl ch, m') /\
        GetConsumerChannel tag m' = inr ConsumerTagNotFoundException /\
        (forall other, other <> tag ->
           GetConsumerChannel other m' = GetConsumerChannel other m) /\
        length m = S (length m')
  | inr e =>
      e = ConsumerTagNotFoundException /\ RemoveConsumer tag m = (inr e, m)
  end.
Proof.
  apply registry_ordered in Hreg.
  unfold GetConsumerChannel, RemoveConsumer.
  destruct (map_find tag m) as [ch|] eqn:Hfind; [|auto].
  exists (map_erase tag m). split; [reflexivity|].
  rewrite map_find_erase_same by exact Hreg. split; [reflexivity|].
  split; [|now apply map_erase_length with ch].
  intros other Hne. now rewrite map_find_erase_other.
Qed.

Lemma RemoveConsumer_removes_one_witness :
  let m := AddConsumer "b" 2 (AddConsumer "a" 1 (AddConsumer "c" 3 [])) in
  exists m',
    RemoveConsumer "b" m = (inl 2, m') /\
    GetConsumerChannel "b" m' = inr ConsumerTagNotFoundException /\
    (forall other, other <> "b"%string ->
       GetConsumerChannel other m' = GetConsumerChannel other m) /\
    length m = S (length m').
Proof.
  intros m.
  exact (RemoveConsumer_removes_one m "b"
           (registry_add _ _ _
              (registry_add _ _ _ (registry_add _ _ _ registry_empty)))).
Defined.

(** X18. [GetAllConsumerChannels] lists the channels of the registered
    consumers and nothing else: a channel is in the list exactly when
    some tag resolves to it, and the list has one entry for each
    registered consumer. *)
Theorem GetAllConsumerChannels_registered (m : consumer_map_t) (ch : Z)
    (Hreg : registry m) :
  In ch (GetAllConsumerChannels m)
  <-> exists tag, GetConsumerChannel tag m = inl ch.
Proof.
  apply registry_ordered in Hreg.
  unfold GetAllConsumerChannels, GetConsumerChannel. split.
  - induction m as [|[k v] m IH]; simpl; [intros []|].
    destruct Hreg as [Habove Hm]. intros [<-|Hin].
    + exists k. now rewrite tag_compare_refl.
    + destruct (IH Hm Hin) as [tag Htag]. exists tag.
      destruct (map_find tag m) as [c|] eqn:Hfind; [|discriminate].
      apply map_find_In in Hfind.
      apply (proj1 (List.Forall_forall _ _) Habove) in Hfind.
      simpl in Hfind.
      destruct (tag_compare tag k) eqn:Hc; [| |exact Htag].
      * apply tag_compare_eq in Hc. subst tag.
        rewrite tag_compare_refl in Hfind. discriminate.
      * pose proof (tag_compare_trans _ _ _ Hc Hfind) as Hkk.
        rewrite tag_compare_refl in Hkk. discriminate.
  - intros [tag Htag].
    destruct (map_find tag m) as [c|] eqn:Hfind; [|discriminate].
    injection Htag as ->. apply map_find_In in Hfind.
    now apply (in_map snd) in Hfind.
Qed.

Lemma GetAllConsumerChannels_registered_witness :
  let m := AddConsumer "b" 2 (AddConsumer "a" 1 (AddConsumer "c" 3 [])) in
  GetAllConsumerChannels m = [1; 2; 3] /\
  (In 2 (GetAllConsumerChannels m)
   <-> exists tag, GetConsumerChannel tag m = inl 2).
Proof.
  intros m. split; [reflexivity|].
  exact (GetAllConsumerChannels_registered m 2
           (registry_add _ _ _
              (registry_add _ _ _ (registry_add _ _ _ registry_empty)))).
Defined.

(** * Properties of direct reply-to *)

(** X19. A channel subscribes to the direct reply-to queue at most
    once.  A call of [MaybeSubscribeToDirectReply] on a channel with a
    token returns at once: nothing is sent and neither the object nor
    the registry changes.  A call that returns on a channel without a
    token has sent basic.consume and got a basic.consume-ok; the
    consumer tag of that reply is the channel's token from then on, the
    tag is registered for the channel (unless the tag was registered
    already, the registry never replacing an entry), every other slot
    of the table is as before, and, the tag not being empty, a further
    call changes nothing. *)
Theorem MaybeSubscribeToDirectReply_once (st st' : ChannelImpl) (ch : Z)
    (s : channel_state_t) (consumers consumers' : consumer_map_t)
    (Hslot : m_channels st !! Z.to_nat ch = Some s)
    (Hrun : MaybeSubscribeToDirectReply ch consumers st
            = (Ok consumers', st')) :
  if empty (direct_reply_tag s) then
    exists (st1 : ChannelImpl) (reply_channel : Z) (consumer_tag : bytes),
      let tag := String.string_of_list_byte consumer_tag in
      DoRpcOnChannel ch AMQP_BASIC_CONSUME_METHOD
        [AMQP_BASIC_CONSUME_OK_METHOD] st
      = (Ok (Some {| channel := reply_channel;
                     payload :=
                       method_payload (basic_consume_ok consumer_tag) |}),
         st1) /\
      GetDirectReplyToken ch st' = (Ok tag, st') /\
      consumers' = AddConsumer tag ch consumers /\
      m_channels st'
      = <[Z.to_nat ch := set_direct_reply_tag tag s]> (m_channels st) /\
      (empty tag = false ->
       forall registered,
         MaybeSubscribeToDirectReply ch registered st'
         = (Ok registered, st'))
  else consumers' = consumers /\ st' = st.
Proof.
  revert Hrun. unfold MaybeSubscribeToDirectReply.
  unfold bind at 1, at_ at 1. rewrite Hslot.
  destruct (empty (direct_reply_tag s)) eqn:Hempty;
    [|unfold ret; simpl; now intros [= <- <-]].
  change (negb true) with false. cbv iota.
  unfold bind at 1.
  destruct (DoRpcOnChannel ch _ _ st) as [o st1] eqn:Hrpc.
  destruct o as [[[reply_channel pl]|]| |]; try discriminate.
  simpl option_map.
  destruct pl as [m| |]; try discriminate.
  destruct m; try discriminate.
  pose proof Hrpc as Hreply.
  pose proof (DoRpcOnChannel_Ok _ _ _ _ _ _ Hrpc) as (Hch & _).
  cbn [option_map payload]. cbv zeta. unfold bind at 1. cbv beta.
  rewrite MaybeReleaseBuffersOnChannel_Ok.
  cbv beta iota zeta delta [bind ret modify update_ref].
  intros [= <- <-].
  destruct (release_offered_pool ch st1) as (Hpool & _).
  pose proof (lookup_lt_Some _ _ _ Hslot) as Hlt.
  assert (Htable :
    m_channels
      (set_m_channels
         (alter (set_direct_reply_tag
                   (String.string_of_list_byte consumer_tag))
            (Z.to_nat ch) (m_channels (release_offered ch st1)))
         (release_offered ch st1))
    = <[Z.to_nat ch :=
          set_direct_reply_tag (String.string_of_list_byte consumer_tag) s]>
        (m_channels st)).
  { simpl. rewrite Hpool, Hch. apply list_eq. intros i.
    destruct (decide (i = Z.to_nat ch)) as [->|Hne].
    - now rewrite list_lookup_alter_eq, list_lookup_insert_eq, Hslot by lia.
    - now rewrite list_lookup_alter_ne, list_lookup_insert_ne by auto. }
  exists st1, reply_channel, consumer_tag. cbv zeta.
  split; [reflexivity|].
  split; [|split; [reflexivity|split; [exact Htable|]]].
  - unfold GetDirectReplyToken, bind, at_. rewrite Htable.
    now rewrite list_lookup_insert_eq by lia.
  - intros Htag registered. unfold at_.
    rewrite Htable, list_lookup_insert_eq by lia.
    cbn [direct_reply_tag set_direct_reply_tag]. now rewrite Htag.
Qed.

Lemma MaybeSubscribeToDirectReply_once_witness :
  let st := arriving [method_frame 1 (basic_consume_ok
                                       (String.list_byte_of_string
                                          "amq.ctag-1"))]
              (with_channels [new_channel_state CS_Used]
                 (fresh_ChannelImpl 0)) in
  let st' := snd (MaybeSubscribeToDirectReply 1 [] st) in
  GetDirectReplyToken 1 st' = (Ok "amq.ctag-1"%string, st') /\
  GetConsumerChannel "amq.ctag-1" (AddConsumer "amq.ctag-1" 1 []) = inl 1 /\
  MaybeSubscribeToDirectReply 1 [("amq.ctag-1"%string, 1)] st'
  = (Ok [("amq.ctag-1"%string, 1)], st').
Proof.
  intros st st'.
  pose proof (MaybeSubscribeToDirectReply_once st st' 1
                (new_channel_state CS_Used) [] [("amq.ctag-1"%string, 1)]
                eq_refl eq_refl) as H.
  simpl empty in H. cbv iota in H.
  destruct H as (st1 & reply_channel & consumer_tag & Hrpc & Htoken & _ & _
                 & Honce).
  injection Hrpc as <- <- <-.
  split; [exact Htoken|]. split; [reflexivity|].
  apply Honce. reflexivity.
Defined.
